(** * The transaction store and its chain traversal

    A shallow embedding of [src/models/transaction.py] and
    [src/utils/database.py]: the [Transaction] record and its persisted
    form, the SQLite-backed [Database] (tables [transactions] and
    [transaction_links]) and the recursive chain traversal.  Around them:
    the tracker ([src/main.py]), the command line
    ([src/cli/interface.py]), and what the Coinbase client
    ([src/exchange/coinbase.py]) and the DEX tracker
    ([src/blockchain/dex.py]) compute once the network has answered.

    How the program is modelled:
    - a Python exception is the [Raise] constructor of [result]; a
      [try/except] is [try_except];
    - the database file is a record of its two tables, each a list of rows
      in rowid order, and of its write lock; every operation takes the
      store and, when it writes, returns the new one;
    - a TEXT column that the code decodes is kept as what the decoder makes
      of it: the timestamp as its characters (it is compared as text by
      ORDER BY and parsed by [fromisoformat]), a JSON column as NULL, as
      text that is not JSON, or as the JSON document;
    - [datetime] carries the wall-clock fields and an optional UTC offset,
      with the comparison rules of Python (naive against aware raises);
    - the [visited] set of the traversal is a [gset], the [chain] a list,
      both threaded through the recursion as the one shared state;
    - floats are carried as data ([spec_float]); only "is NaN" and, for
      the display of a fee, "is above zero" are looked at;
    - what a client has fetched from the network is an argument of the
      function that goes on from it.

    The first half of the file holds the definitions, the second half the
    lemmas and theorems. *)

From Stdlib Require Import ZArith Ascii String List Sorting.Sorted SpecFloat.
From stdpp Require Import base tactics option list sets fin_sets gmap strings sorting.

Local Open Scope string_scope.
Set Warnings "-register-all,-clear-no-such-hyp".

(** ** Exceptions *)

(** The exception classes that the store's code paths can raise. *)
Inductive exn : Type :=
  | TypeError
  | ValueError
  | JSONDecodeError
  | OperationalError
  | IntegrityError
  | RecursionError.

Inductive result (A : Type) : Type :=
  | Ok (a : A)
  | Raise (e : exn).
Arguments Ok {A} a.
Arguments Raise {A} e.

Definition rbind {A B : Type} (r : result A) (k : A → result B) : result B :=
  match r with
  | Ok a => k a
  | Raise e => Raise e
  end.

Definition rmap {A B : Type} (f : A → B) (r : result A) : result B :=
  match r with
  | Ok a => Ok (f a)
  | Raise e => Raise e
  end.

#[export] Instance result_bind : MBind result := λ A B k r, rbind r k.
#[export] Instance result_ret : MRet result := @Ok.
#[export] Instance result_fmap : FMap result := @rmap.

(** [try: body / except Exception: return False] as save_transaction and
    link_transactions write it: the state is kept only when the body ran to
    its [return True]. *)
Definition try_except {S : Type} (s : S) (body : result S) : S * bool :=
  match body with
  | Ok s' => (s', true)
  | Raise _ => (s, false)
  end.

(** ** datetime *)

(** [datetime.datetime]: the wall-clock fields and an optional UTC offset.
    [tzinfo = None] is a naive datetime; [Some off] an aware one, [off]
    being [utcoffset()] in minutes (offsets with a seconds part are not
    modelled). *)
Record datetime : Type := mkDatetime {
  year : Z;
  month : Z;
  day : Z;
  hour : Z;
  minute : Z;
  second : Z;
  microsecond : Z;
  tzinfo : option Z
}.

Definition is_leap (y : Z) : bool :=
  ((y mod 4 =? 0) && (negb (y mod 100 =? 0) || (y mod 400 =? 0)))%Z.

Definition days_in_month (y m : Z) : Z :=
  (if m =? 2 then (if is_leap y then 29 else 28)
   else if (m =? 4) || (m =? 6) || (m =? 9) || (m =? 11) then 30
   else 31)%Z.

(** The ranges the datetime constructor enforces. *)
Definition valid_datetime (d : datetime) : bool :=
  ((1 <=? year d) && (year d <=? 9999) &&
   (1 <=? month d) && (month d <=? 12) &&
   (1 <=? day d) && (day d <=? days_in_month (year d) (month d)) &&
   (0 <=? hour d) && (hour d <? 24) &&
   (0 <=? minute d) && (minute d <? 60) &&
   (0 <=? second d) && (second d <? 60) &&
   (0 <=? microsecond d) && (microsecond d <? 1000000) &&
   match tzinfo d with
   | None => true
   | Some off => (-1440 <? off) && (off <? 1440)
   end)%Z.

(** *** isoformat *)

Definition digit_char (n : Z) : ascii :=
  ascii_of_N (48 + Z.to_N (n mod 10)).

(** [%0kd]: the last [k] decimal digits of [n]. *)
Fixpoint pad (k : nat) (n : Z) : string :=
  match k with
  | O => ""
  | S k' => pad k' (n / 10) ++ String (digit_char n) ""
  end.

Definition format_offset (tz : option Z) : string :=
  match tz with
  | None => ""
  | Some off =>
      (if (off <? 0)%Z then "-" else "+") ++
      pad 2 (Z.abs off / 60) ++ ":" ++ pad 2 (Z.abs off mod 60)
  end.

(** [datetime.isoformat()]: [YYYY-MM-DDTHH:MM:SS], then [.ffffff] when the
    microsecond is not zero, then [+HH:MM] for an aware datetime. *)
Definition isoformat (d : datetime) : string :=
  pad 4 (year d) ++ "-" ++ pad 2 (month d) ++ "-" ++ pad 2 (day d) ++ "T" ++
  pad 2 (hour d) ++ ":" ++ pad 2 (minute d) ++ ":" ++ pad 2 (second d) ++
  (if (microsecond d =? 0)%Z then "" else "." ++ pad 6 (microsecond d)) ++
  format_offset (tzinfo d).

(** *** fromisoformat *)

Definition digit_val (c : ascii) : option Z :=
  let n := N_of_ascii c in
  if ((48 <=? n) && (n <=? 57))%N then Some (Z.of_N n - 48)%Z else None.

(** Read exactly [k] decimal digits. *)
Fixpoint read_digits (k : nat) (acc : Z) (s : string) : option (Z * string) :=
  match k with
  | O => Some (acc, s)
  | S k' =>
      match s with
      | String c s' =>
          match digit_val c with
          | Some v => read_digits k' (10 * acc + v)%Z s'
          | None => None
          end
      | EmptyString => None
      end
  end.

Definition read_char (c : ascii) (s : string) : option string :=
  match s with
  | String c' s' => if Ascii.eqb c c' then Some s' else None
  | EmptyString => None
  end.

Definition read_fraction (s : string) : option (Z * string) :=
  match s with
  | String "." s' => read_digits 6 0 s'
  | _ => Some (0%Z, s)
  end.

Definition read_offset (s : string) : option (option Z) :=
  match s with
  | EmptyString => Some None
  | String c s' =>
      sign ← (if Ascii.eqb c "+" then Some 1%Z
              else if Ascii.eqb c "-" then Some (-1)%Z else None);
      '(hh, s1) ← read_digits 2 0 s';
      s2 ← read_char ":" s1;
      '(mm, s3) ← read_digits 2 0 s2;
      match s3 with
      | EmptyString =>
          if (mm <? 60)%Z then Some (Some (sign * (hh * 60 + mm))%Z) else None
      | _ => None
      end
  end.

Definition parse_isoformat (s : string) : option datetime :=
  '(y, s) ← read_digits 4 0 s;
  s ← read_char "-" s;
  '(mo, s) ← read_digits 2 0 s;
  s ← read_char "-" s;
  '(d, s) ← read_digits 2 0 s;
  s ← read_char "T" s;
  '(h, s) ← read_digits 2 0 s;
  s ← read_char ":" s;
  '(mi, s) ← read_digits 2 0 s;
  s ← read_char ":" s;
  '(sec, s) ← read_digits 2 0 s;
  '(us, s) ← read_fraction s;
  tz ← read_offset s;
  let dt := mkDatetime y mo d h mi sec us tz in
  if valid_datetime dt then Some dt else None.

(** [datetime.fromisoformat]: the inverse of [isoformat]; anything that
    [isoformat] does not write is a ValueError here.  (CPython's parser also
    reads other ISO 8601 spellings, which ones depends on its version;
    save_transaction writes none of them.) *)
Definition fromisoformat (s : string) : result datetime :=
  match parse_isoformat s with
  | Some d => Ok d
  | None => Raise ValueError
  end.

(** *** Comparison *)

(** [date.toordinal()], the proleptic Gregorian day number. *)
Definition days_before_year (y : Z) : Z :=
  (let p := y - 1 in p * 365 + p / 4 - p / 100 + p / 400)%Z.

Definition days_before_month (y m : Z) : Z :=
  (nth (Z.to_nat (m - 1)) [0; 31; 59; 90; 120; 151; 181; 212; 243; 273; 304; 334] 0
   + (if (2 <? m) && is_leap y then 1 else 0))%Z.

Definition toordinal (d : datetime) : Z :=
  (days_before_year (year d) + days_before_month (year d) (month d) + day d)%Z.

(** Microseconds since the epoch of the wall-clock reading shifted by
    [off] minutes: the quantity whose sign [datetime.__sub__] inspects. *)
Definition instant (d : datetime) (off : Z) : Z :=
  ((((toordinal d * 24 + hour d) * 60 + minute d - off) * 60 + second d)
     * 1000000 + microsecond d)%Z.

(** Comparison of the field tuples, as [datetime._cmp] does when both
    operands are naive or have equal offsets. *)
Definition lex (c : comparison) (rest : comparison) : comparison :=
  match c with
  | Eq => rest
  | _ => c
  end.

Definition wall_compare (a b : datetime) : comparison :=
  lex (year a ?= year b)%Z (lex (month a ?= month b)%Z (lex (day a ?= day b)%Z
  (lex (hour a ?= hour b)%Z (lex (minute a ?= minute b)%Z
  (lex (second a ?= second b)%Z (microsecond a ?= microsecond b)%Z))))).

(** [a < b] on datetimes ([datetime.__lt__]): naive against aware is a
    TypeError; aware operands with different offsets are compared as
    instants. *)
Definition datetime_cmp (a b : datetime) : result comparison :=
  match tzinfo a, tzinfo b with
  | None, None => Ok (wall_compare a b)
  | Some oa, Some ob =>
      if (oa =? ob)%Z then Ok (wall_compare a b)
      else Ok (instant a oa ?= instant b ob)%Z
  | _, _ => Raise TypeError
  end.

Definition datetime_lt (a b : datetime) : result bool :=
  c ← datetime_cmp a b;
  Ok (match c with Lt => true | _ => false end).

Local Open Scope list_scope.

(** ** Python values and JSON *)

(** The values a [raw_data] payload ([Dict[str, Any]]) is built from.
    Dictionaries are association lists in insertion order. *)
Inductive pyval : Type :=
  | PyNone
  | PyBool (b : bool)
  | PyInt (n : Z)
  | PyFloat (f : spec_float)
  | PyStr (s : string)
  | PyBytes (s : string)
  | PyList (l : list pyval)
  | PyTuple (l : list pyval)
  | PyDict (kvs : list (string * pyval)).

(** A JSON document, as its syntax tree. *)
Inductive json : Type :=
  | JNull
  | JBool (b : bool)
  | JInt (n : Z)
  | JFloat (f : spec_float)
  | JStr (s : string)
  | JArr (l : list json)
  | JObj (kvs : list (string * json)).

Definition result_mapM {A B : Type} (f : A → result B) : list A → result (list B) :=
  fix go (l : list A) : result (list B) :=
    match l with
    | [] => Ok []
    | x :: l' => y ← f x; ys ← go l'; Ok (y :: ys)
    end.

(** [json.dumps]: lists and tuples both become arrays; bytes are not
    serializable. *)
Fixpoint json_dumps (v : pyval) : result json :=
  match v with
  | PyNone => Ok JNull
  | PyBool b => Ok (JBool b)
  | PyInt n => Ok (JInt n)
  | PyFloat f => Ok (JFloat f)
  | PyStr s => Ok (JStr s)
  | PyBytes _ => Raise TypeError
  | PyList l => JArr <$> result_mapM json_dumps l
  | PyTuple l => JArr <$> result_mapM json_dumps l
  | PyDict kvs =>
      JObj <$> result_mapM (λ kv, match kv with (k, x) => j ← json_dumps x; Ok (k, j) end) kvs
  end.

(** [d[k] = v] on an insertion-ordered dict. *)
Fixpoint dict_set {V : Type} (k : string) (v : V) (d : list (string * V)) : list (string * V) :=
  match d with
  | [] => [(k, v)]
  | (k', v') :: d' =>
      if String.eqb k k' then (k', v) :: d' else (k', v') :: dict_set k v d'
  end.

Definition dict_of_pairs {V : Type} (kvs : list (string * V)) : list (string * V) :=
  fold_left (λ d kv, dict_set kv.1 kv.2 d) kvs [].

(** [json.loads] on a document: arrays become lists, objects dicts (a
    repeated key keeps its first position and its last value). *)
Fixpoint json_loads (j : json) : pyval :=
  match j with
  | JNull => PyNone
  | JBool b => PyBool b
  | JInt n => PyInt n
  | JFloat f => PyFloat f
  | JStr s => PyStr s
  | JArr l => PyList (map json_loads l)
  | JObj kvs =>
      PyDict (dict_of_pairs (map (λ kv, match kv with (k, x) => (k, json_loads x) end) kvs))
  end.

(** ** The record model ([src/models/transaction.py]) *)

Inductive TransactionType : Type :=
  | DEPOSIT | WITHDRAWAL | PURCHASE | SALE | TRANSFER | SWAP | FEE | UNKNOWN.

Inductive TransactionSource : Type :=
  | EXCHANGE | BLOCKCHAIN | DEX | MANUAL.

Definition TransactionType_value (t : TransactionType) : string :=
  match t with
  | DEPOSIT => "deposit"
  | WITHDRAWAL => "withdrawal"
  | PURCHASE => "purchase"
  | SALE => "sale"
  | TRANSFER => "transfer"
  | SWAP => "swap"
  | FEE => "fee"
  | UNKNOWN => "unknown"
  end.

Definition TransactionSource_value (t : TransactionSource) : string :=
  match t with
  | EXCHANGE => "exchange"
  | BLOCKCHAIN => "blockchain"
  | DEX => "dex"
  | MANUAL => "manual"
  end.

(** [TransactionType(s)]: lookup by value, ValueError when there is none. *)
Definition TransactionType_of_value (s : string) : result TransactionType :=
  match find (λ t, String.eqb (TransactionType_value t) s)
             [DEPOSIT; WITHDRAWAL; PURCHASE; SALE; TRANSFER; SWAP; FEE; UNKNOWN] with
  | Some t => Ok t
  | None => Raise ValueError
  end.

Definition TransactionSource_of_value (s : string) : result TransactionSource :=
  match find (λ t, String.eqb (TransactionSource_value t) s)
             [EXCHANGE; BLOCKCHAIN; DEX; MANUAL] with
  | Some t => Ok t
  | None => Raise ValueError
  end.

(** The [Transaction] dataclass.  [fee] is an option because the [fee]
    column is nullable and [from_dict] passes a NULL on as [None]; a record
    built from the declared types has [Some]. *)
Record Transaction : Type := mkTransaction {
  id : string;
  timestamp : datetime;
  transaction_type : TransactionType;
  source : TransactionSource;
  amount : spec_float;
  currency : string;
  fee : option spec_float;
  fee_currency : string;
  status : string;
  notes : string;
  raw_data : pyval;
  related_transactions : list string
}.

(** The dictionary [from_dict] receives from get_transaction: the row's
    columns, [raw_data] and [related_transactions] already through
    [json.loads]. *)
Record row_dict : Type := mkRowDict {
  d_id : string;
  d_timestamp : string;
  d_transaction_type : string;
  d_source : string;
  d_amount : spec_float;
  d_currency : string;
  d_fee : option spec_float;
  d_fee_currency : string;
  d_status : string;
  d_notes : string;
  d_raw_data : pyval;
  d_related_transactions : list string
}.

Definition to_dict (tx : Transaction) : row_dict :=
  {| d_id := id tx;
     d_timestamp := isoformat (timestamp tx);
     d_transaction_type := TransactionType_value (transaction_type tx);
     d_source := TransactionSource_value (source tx);
     d_amount := amount tx;
     d_currency := currency tx;
     d_fee := fee tx;
     d_fee_currency := fee_currency tx;
     d_status := status tx;
     d_notes := notes tx;
     d_raw_data := raw_data tx;
     d_related_transactions := related_transactions tx |}.

Definition from_dict (data : row_dict) : result Transaction :=
  ts ← fromisoformat (d_timestamp data);
  ty ← TransactionType_of_value (d_transaction_type data);
  src ← TransactionSource_of_value (d_source data);
  Ok {| id := d_id data;
        timestamp := ts;
        transaction_type := ty;
        source := src;
        amount := d_amount data;
        currency := d_currency data;
        fee := d_fee data;
        fee_currency := d_fee_currency data;
        status := d_status data;
        notes := d_notes data;
        raw_data := d_raw_data data;
        related_transactions := d_related_transactions data |}.

(** ** The persisted form ([src/utils/database.py]) *)

(** A nullable TEXT column that is read back with [json.loads]: NULL, text
    that is not a JSON document, or a JSON document (kept as its syntax
    tree, of type [A]). *)
Inductive json_cell (A : Type) : Type :=
  | CellNull
  | CellGarbled (s : string)
  | CellJson (doc : A).
Arguments CellNull {A}.
Arguments CellGarbled {A} s.
Arguments CellJson {A} doc.

(** A row of table [transactions].  [r_raw_data] holds any JSON document;
    [r_related_transactions], when it is JSON at all, a JSON array of
    strings, the only shape save_transaction writes for it. *)
Record row : Type := mkRow {
  r_id : string;
  r_timestamp : string;
  r_transaction_type : string;
  r_source : string;
  r_amount : spec_float;
  r_currency : string;
  r_fee : option spec_float;
  r_fee_currency : string;
  r_status : string;
  r_notes : string;
  r_raw_data : json_cell json;
  r_related_transactions : json_cell (list string)
}.

(** A row of table [transaction_links]. *)
Record link : Type := mkLink {
  parent_id : string;
  child_id : string;
  relationship_type : string
}.

(** The database file: both tables in rowid order, and the file's write
    lock.  [write_lock] is [true] while some connection has executed a write
    statement that it has not committed yet; SQLite allows one such
    connection per file, and a second connection's write statement then
    fails with "database is locked" (OperationalError) once sqlite3's busy
    timeout has run out.  Between two operations of the store it is
    [false]. *)
Record Database : Type := mkDatabase {
  transactions : list row;
  transaction_links : list link;
  write_lock : bool
}.

Definition is_nan (f : spec_float) : bool :=
  match f with
  | S754_nan => true
  | _ => false
  end.

(** sqlite3 binds a NaN as NULL. *)
Definition bind_real (f : option spec_float) : option spec_float :=
  match f with
  | Some x => if is_nan x then None else Some x
  | None => None
  end.

(** The VALUES tuple of save_transaction. *)
Definition row_of_transaction (tx : Transaction) : result row :=
  raw ← json_dumps (raw_data tx);
  Ok {| r_id := id tx;
        r_timestamp := isoformat (timestamp tx);
        r_transaction_type := TransactionType_value (transaction_type tx);
        r_source := TransactionSource_value (source tx);
        r_amount := amount tx;
        r_currency := currency tx;
        r_fee := bind_real (fee tx);
        r_fee_currency := fee_currency tx;
        r_status := status tx;
        r_notes := notes tx;
        r_raw_data := CellJson raw;
        r_related_transactions := CellJson (related_transactions tx) |}.

(** [INSERT OR REPLACE INTO transactions]: the row with the same primary
    key goes, the new row gets a fresh rowid.  [amount] is REAL NOT NULL. *)
Definition insert_or_replace_transaction (r : row) (db : Database) : result Database :=
  if write_lock db then Raise OperationalError
  else if is_nan (r_amount r) then Raise IntegrityError
  else Ok {| transactions :=
               filter (λ r', r_id r' ≠ r_id r) (transactions db) ++ [r];
             transaction_links := transaction_links db;
             write_lock := true |}.

(** [INSERT OR REPLACE INTO transaction_links], primary key
    [(parent_id, child_id)]. *)
Definition insert_or_replace_link (l : link) (db : Database) : result Database :=
  if write_lock db then Raise OperationalError
  else Ok {| transactions := transactions db;
             transaction_links :=
               filter (λ l', ¬ (parent_id l' = parent_id l ∧ child_id l' = child_id l))
                      (transaction_links db) ++ [l];
             write_lock := true |}.

(** [conn.commit()] of the connection that holds the write lock. *)
Definition commit (db : Database) : Database :=
  {| transactions := transactions db;
     transaction_links := transaction_links db;
     write_lock := false |}.

Definition save_transaction (db : Database) (transaction : Transaction) : Database * bool :=
  try_except db (
    r ← row_of_transaction transaction;
    db' ← insert_or_replace_transaction r db;
    Ok (commit db')).

Definition loads_cell {A B : Type} (f : A → B) (c : json_cell A) : result B :=
  match c with
  | CellNull => Raise TypeError
  | CellGarbled _ => Raise JSONDecodeError
  | CellJson doc => Ok (f doc)
  end.

(** [dict(row)], the two [json.loads] and [Transaction.from_dict]. *)
Definition load_row (r : row) : result Transaction :=
  raw ← loads_cell json_loads (r_raw_data r);
  related ← loads_cell (λ l : list string, l) (r_related_transactions r);
  from_dict {| d_id := r_id r;
               d_timestamp := r_timestamp r;
               d_transaction_type := r_transaction_type r;
               d_source := r_source r;
               d_amount := r_amount r;
               d_currency := r_currency r;
               d_fee := r_fee r;
               d_fee_currency := r_fee_currency r;
               d_status := r_status r;
               d_notes := r_notes r;
               d_raw_data := raw;
               d_related_transactions := related |}.

(** [SELECT * FROM transactions WHERE id = ?] and [fetchone]. *)
Definition select_transaction (db : Database) (transaction_id : string) : option row :=
  find (λ r, bool_decide (r_id r = transaction_id)) (transactions db).

Definition get_transaction (db : Database) (transaction_id : string)
  : result (option Transaction) :=
  match select_transaction db transaction_id with
  | None => Ok None
  | Some r => Some <$> load_row r
  end.

(** [ORDER BY timestamp DESC] on the TEXT column: rows by descending text
    (SQLite's BINARY collation), rows of equal text in table order. *)
Fixpoint insert_desc (r : row) (l : list row) : list row :=
  match l with
  | [] => [r]
  | r' :: l' =>
      if String.ltb (r_timestamp r) (r_timestamp r') then r' :: insert_desc r l'
      else r :: r' :: l'
  end.

Fixpoint order_by_timestamp_desc (rows : list row) : list row :=
  match rows with
  | [] => []
  | r :: rows' => insert_desc r (order_by_timestamp_desc rows')
  end.

Definition get_all_transactions (db : Database) : result (list Transaction) :=
  result_mapM load_row (order_by_timestamp_desc (transactions db)).

(** [parent.related_transactions.append(child_id)] *)
Definition append_related (child : string) (tx : Transaction) : Transaction :=
  {| id := id tx;
     timestamp := timestamp tx;
     transaction_type := transaction_type tx;
     source := source tx;
     amount := amount tx;
     currency := currency tx;
     fee := fee tx;
     fee_currency := fee_currency tx;
     status := status tx;
     notes := notes tx;
     raw_data := raw_data tx;
     related_transactions := related_transactions tx ++ [child] |}.

(** link_transactions.  The INSERT runs on the method's own connection:
    sqlite3 opens a transaction before it and keeps it open, with the
    file's write lock, until [conn.commit()] at the end of the method.  The
    nested get_transaction and save_transaction each open a connection of
    their own.  Reading is allowed beside the pending write (and touches
    table [transactions] only, which the pending INSERT does not change);
    the INSERT of the nested save_transaction is refused, which
    save_transaction reports by returning [False]; link_transactions drops
    that value and goes on to commit its link row. *)
Definition link_transactions (db : Database) (parent child relationship : string)
  : Database * bool :=
  try_except db (
    db1 ← insert_or_replace_link (mkLink parent child relationship) db;
    parent_tx ← get_transaction db1 parent;
    let db2 :=
      match parent_tx with
      | Some p =>
          if bool_decide (child ∉ related_transactions p)
          then (save_transaction db1 (append_related child p)).1
          else db1
      | None => db1
      end in
    Ok (commit db2)).

(** ** Chain traversal *)

(** [SELECT child_id FROM transaction_links WHERE parent_id = ?] and its
    mirror image.  SQL leaves the order of the selected rows open; the model
    returns them in table order. *)
Definition select_child_ids (db : Database) (transaction_id : string) : list string :=
  child_id <$> filter (λ l, parent_id l = transaction_id) (transaction_links db).

Definition select_parent_ids (db : Database) (transaction_id : string) : list string :=
  parent_id <$> filter (λ l, child_id l = transaction_id) (transaction_links db).

(** The two objects that get_transaction_chain shares with every
    recursive call. *)
Record traversal : Type := mkTraversal {
  chain : list Transaction;
  visited : gset string
}.

(** A [for] loop whose body may raise, over a state of type [S].  [None]
    is for a body that did not come back within the recursion depth it was
    given. *)
Fixpoint for_each {A S : Type} (l : list A) (s : S)
    (body : A → S → option (result S)) : option (result S) :=
  match l with
  | [] => Some (Ok s)
  | x :: l' =>
      match body x s with
      | Some (Ok s') => for_each l' s' body
      | other => other
      end
  end.

(** _get_related_transactions, with the depth of recursion it may use. *)
Fixpoint _get_related_transactions (depth : nat) (db : Database)
    (transaction_id : string) (st : traversal) : option (result traversal) :=
  match depth with
  | O => None
  | S depth' =>
      let child_ids := select_child_ids db transaction_id in
      let parent_ids := select_parent_ids db transaction_id in
      for_each (child_ids ++ parent_ids) st (λ related_id st,
        if decide (related_id ∈ visited st) then Some (Ok st)
        else
          let visited' := {[related_id]} ∪ visited st in
          match get_transaction db related_id with
          | Raise e => Some (Raise e)
          | Ok None => Some (Ok (mkTraversal (chain st) visited'))
          | Ok (Some related_tx) =>
              _get_related_transactions depth' db related_id
                (mkTraversal (chain st ++ [related_tx]) visited')
          end)
  end.

(** [chain.sort(key=lambda t: t.timestamp)].  list.sort is stable and
    compares keys with [<]; the list it leaves is the one straight
    insertion builds, and it raises when a comparison does. *)
Fixpoint insert_by_timestamp (x : Transaction) (l : list Transaction)
  : result (list Transaction) :=
  match l with
  | [] => Ok [x]
  | y :: l' =>
      b ← datetime_lt (timestamp y) (timestamp x);
      if b : bool then l'' ← insert_by_timestamp x l'; Ok (y :: l'')
      else Ok (x :: y :: l')
  end.

Fixpoint sort_by_timestamp (l : list Transaction) : result (list Transaction) :=
  match l with
  | [] => Ok []
  | x :: l' => sorted ← sort_by_timestamp l'; insert_by_timestamp x sorted
  end.

(** The ids that occur in table [transaction_links]. *)
Definition link_ids (db : Database) : gset string :=
  list_to_set ((parent_id <$> transaction_links db) ++ (child_id <$> transaction_links db)).

(** Every recursive call of the traversal has just added an id of a link
    row to [visited], so the recursion is never deeper than this. *)
Definition recursion_bound (db : Database) : nat :=
  S (size (link_ids db)).

(** get_transaction_chain.  The interpreter's own recursion limit is not
    modelled: the traversal gets the depth [recursion_bound], which it never
    exhausts (lemma [traversal_returns] below). *)
Definition get_transaction_chain (db : Database) (transaction_id : string)
  : result (list Transaction) :=
  transaction ← get_transaction db transaction_id;
  match transaction with
  | None => Ok []
  | Some tx =>
      match _get_related_transactions (recursion_bound db) db transaction_id
              (mkTraversal [tx] {[transaction_id]}) with
      | None => Raise RecursionError
      | Some r => st ← r; sort_by_timestamp (chain st)
      end
  end.

(** ** The tracker ([src/main.py]) *)

(** [except ValueError]: the handler also takes the subclasses of
    ValueError, and [json.JSONDecodeError] is one. *)
Definition is_ValueError (e : exn) : bool :=
  match e with
  | ValueError | JSONDecodeError => true
  | _ => false
  end.

Module CryptoTracker.

(** [for tx in transactions: self.db.save_transaction(tx)]: the saves in
    the order of the list; what each one returns is dropped. *)
Definition save_each (db : Database) (transactions : list Transaction) : Database :=
  foldl (λ db tx, (save_transaction db tx).1) db transactions.

(** track_ethereum_address.  [fetched] is the list that
    [eth_client.get_address_transactions(address)] has returned; that
    method catches what its requests raise and returns a list in every
    case. *)
Definition track_ethereum_address (db : Database) (fetched : list Transaction)
  : Database * list Transaction :=
  (save_each db fetched, fetched).

(** track_coinbase_account.  [fetched] is the outcome of
    [coinbase_client.get_all_transactions()], which raises ValueError when
    the API key or secret is missing. *)
Definition track_coinbase_account (db : Database) (fetched : result (list Transaction))
  : result (Database * list Transaction) :=
  match fetched with
  | Ok transactions => Ok (save_each db transactions, transactions)
  | Raise e => if is_ValueError e then Ok (db, []) else Raise e
  end.

Definition get_transaction_history (db : Database) : result (list Transaction) :=
  get_all_transactions db.

Definition get_transaction_chain (db : Database) (transaction_id : string)
  : result (list Transaction) :=
  get_transaction_chain db transaction_id.

(** [relationship_type] has the default ["continuation"]. *)
Definition link_transactions (db : Database) (parent_id child_id : string)
    (relationship_type : option string) : Database * bool :=
  link_transactions db parent_id child_id (default "continuation" relationship_type).

End CryptoTracker.

(** ** The command line ([src/cli/interface.py]) *)

(** What is printed is not modelled, here no more than in the store; the
    values handed to [print] are, as far as building them can raise.  The
    characters of a string are code points, of which the model has the
    first 256. *)

Module CLI.

(** [str.lower()], character by character: A to Z, and the capital
    letters of the Latin-1 block (U+00C0 to U+00DE but the multiplication
    sign U+00D7), move up by 32. *)
Definition lower_char (c : ascii) : ascii :=
  let n := N_of_ascii c in
  if ((65 <=? n) && (n <=? 90) || (192 <=? n) && (n <=? 222) && negb (n =? 215))%N
  then ascii_of_N (n + 32)
  else c.

Fixpoint lower (s : string) : string :=
  match s with
  | EmptyString => EmptyString
  | String c s' => String (lower_char c) (lower s')
  end.

(** What a cell of a table is made from.  The text of a timestamp and of
    an amount is made by the library ([strftime], the format [.8f]) and by
    [tabulate] after it. *)
Inductive cell : Type :=
  | Str (s : string)
  | Stamp (d : datetime)
  | Money (x : spec_float) (unit : string).

(** What the two formatting methods return: a fixed message, or
    [tabulate(table_data, headers, tablefmt="grid")]. *)
Inductive rendering : Type :=
  | Message (s : string)
  | Grid (headers : list string) (table_data : list (list cell)).

(** [tx_id[:8] + "..."] *)
Definition short_id (i : string) : string :=
  (substring 0 8 i ++ "...")%string.

(** [f"{tx.fee:.8f} {tx.fee_currency}" if tx.fee > 0 else "-"]; the
    comparison of [None] with [0] is a TypeError. *)
Definition fee_cell (tx : Transaction) : result cell :=
  match fee tx with
  | None => Raise TypeError
  | Some f =>
      Ok (if SFltb (S754_zero false) f then Money f (fee_currency tx) else Str "-")
  end.

Definition table_row (tx : Transaction) : result (list cell) :=
  f ← fee_cell tx;
  Ok [Str (short_id (id tx));
      Stamp (timestamp tx);
      Str (TransactionType_value (transaction_type tx));
      Str (TransactionSource_value (source tx));
      Money (amount tx) (currency tx);
      f;
      Str (status tx)].

Definition _format_transactions (transactions : list Transaction) : result rendering :=
  match transactions with
  | [] => Ok (Message "No transactions found.")
  | _ =>
      table_data ← result_mapM table_row transactions;
      Ok (Grid ["ID"; "Timestamp"; "Type"; "Source"; "Amount"; "Fee"; "Status"] table_data)
  end.

Definition _format_transaction_details (transaction : option Transaction)
  : result rendering :=
  match transaction with
  | None => Ok (Message "Transaction not found.")
  | Some tx =>
      f ← fee_cell tx;
      let details :=
        [[Str "ID"; Str (id tx)];
         [Str "Timestamp"; Stamp (timestamp tx)];
         [Str "Type"; Str (TransactionType_value (transaction_type tx))];
         [Str "Source"; Str (TransactionSource_value (source tx))];
         [Str "Amount"; Money (amount tx) (currency tx)];
         [Str "Fee"; f];
         [Str "Status"; Str (status tx)];
         [Str "Notes"; Str (notes tx)]] in
      Ok (Grid []
            match related_transactions tx with
            | [] => details
            | related =>
                details ++
                [[Str "Related Transactions";
                  Str (String.concat ", " (short_id <$> related))]]
            end)
  end.

(** The namespace [parse_args] returns, by subcommand.  An option that
    was not given is [None]. *)
Inductive command : Type :=
  | track_eth (address : string)
  | track_coinbase
  | list_transactions (limit : Z) (a_currency a_type a_source : option string)
  | show (transaction_id : string)
  | show_chain (transaction_id : string)
  | link_pair (parent child a_type : string).

(** What the two clients answer: the network, seen from [run]. *)
Record clients : Type := mkClients {
  get_address_transactions : string → list Transaction;
  coinbase_get_all_transactions : result (list Transaction)
}.

(** [if args.x: transactions = [tx for tx in transactions
    if key(tx).lower() == args.x.lower()]]; an option that is absent or the
    empty string filters nothing. *)
Definition keep (arg : option string) (key : Transaction → string)
    (transactions : list Transaction) : list Transaction :=
  match arg with
  | Some v =>
      if bool_decide (v = "") then transactions
      else filter (λ tx, lower (key tx) = lower v) transactions
  | None => transactions
  end.

(** [l[:stop]]: a negative [stop] counts from the end. *)
Definition slice_to {A : Type} (stop : Z) (l : list A) : list A :=
  if (stop <? 0)%Z then take (length l - Z.to_nat (- stop)) l
  else take (Z.to_nat stop) l.

(** The transactions that the [list] subcommand hands to
    [_format_transactions]. *)
Definition listed (limit : Z) (a_currency a_type a_source : option string)
    (history : list Transaction) : list Transaction :=
  slice_to limit
    (keep a_source (λ tx, TransactionSource_value (source tx))
       (keep a_type (λ tx, TransactionType_value (transaction_type tx))
          (keep a_currency currency history))).

Definition exit_code {A : Type} (r : result A) : Z :=
  match r with
  | Ok _ => 0
  | Raise _ => 1
  end.

(** [run]: the store it leaves and the exit code it returns.  [None] is a
    command line without subcommand.  Everything after [parse_args] runs
    under [try: ... except Exception: return 1]; what had been saved before
    an exception stays saved. *)
Definition run (net : clients) (db : Database) (args : option command) : Database * Z :=
  match args with
  | None => (db, 1%Z)
  | Some (track_eth address) =>
      let '(db', transactions) :=
        CryptoTracker.track_ethereum_address db (get_address_transactions net address) in
      (db', exit_code (_format_transactions (take 10 transactions)))
  | Some track_coinbase =>
      match CryptoTracker.track_coinbase_account db (coinbase_get_all_transactions net) with
      | Ok (db', transactions) =>
          (db', exit_code (_format_transactions (take 10 transactions)))
      | Raise _ => (db, 1%Z)
      end
  | Some (list_transactions limit a_currency a_type a_source) =>
      (db, exit_code (history ← CryptoTracker.get_transaction_history db;
                      _format_transactions (listed limit a_currency a_type a_source history)))
  | Some (show i) =>
      (db, exit_code (transaction ← get_transaction db i;
                      _format_transaction_details transaction))
  | Some (show_chain i) =>
      (db, exit_code (chain ← CryptoTracker.get_transaction_chain db i;
                      _format_transactions chain))
  | Some (link_pair parent child a_type) =>
      let '(db', success) := CryptoTracker.link_transactions db parent child (Some a_type) in
      (db', if success then 0%Z else 1%Z)
  end.

End CLI.

(** ** The Coinbase client ([src/exchange/coinbase.py]) *)

Module CoinbaseClient.

(** [s.replace("Z", "+00:00")] *)
Fixpoint replace_Z (s : string) : string :=
  match s with
  | EmptyString => EmptyString
  | String c s' =>
      if Ascii.eqb c "Z" then ("+00:00" ++ replace_Z s')%string
      else String c (replace_Z s')
  end.

(** The timestamp of a Coinbase transaction, from its [created_at]:
    [datetime.fromisoformat(created_at.replace("Z", "+00:00"))]. *)
Definition parse_created_at (created_at : string) : result datetime :=
  fromisoformat (replace_Z created_at).

(** The loop of get_all_transactions: [all_transactions.extend(...)] with
    the transactions of each account in turn. *)
Fixpoint extend_each {A : Type} (get_transactions : A → result (list Transaction))
    (accounts : list A) (all_transactions : list Transaction) : result (list Transaction) :=
  match accounts with
  | [] => Ok all_transactions
  | account_id :: accounts' =>
      transactions ← get_transactions account_id;
      extend_each get_transactions accounts' (all_transactions ++ transactions)
  end.

(** get_all_transactions.  [get_accounts] is the outcome of
    [self.get_accounts()], as the [account.get("id")] of each account, and
    [get_transactions] what [self.get_transactions] answers for such an
    id. *)
Definition get_all_transactions {A : Type} (get_accounts : result (list A))
    (get_transactions : A → result (list Transaction)) : result (list Transaction) :=
  accounts ← get_accounts;
  all_transactions ← extend_each get_transactions accounts [];
  sort_by_timestamp all_transactions.

End CoinbaseClient.

(** ** The DEX tracker ([src/blockchain/dex.py]) *)

Module DEXTracker.

(** [swap_sigs]: the function selectors the tracker knows. *)
Definition swap_sigs : list (string * string) :=
  [("0x38ed1739", "swapExactTokensForTokens");
   ("0x7ff36ab5", "swapExactETHForTokens");
   ("0x4a25d94a", "swapTokensForExactETH");
   ("0x18cbafe5", "swapExactTokensForETH");
   ("0x5c11d795", "swapExactTokensForTokensSupportingFeeOnTransferTokens")].

(** [d.get(k)] on the items of a dict (the keys of a dict are
    distinct). *)
Definition dict_get {V : Type} (k : string) (d : list (string * V)) : option V :=
  snd <$> find (λ kv, String.eqb kv.1 k) d.

(** The truth value of an object. *)
Definition truthy (v : pyval) : bool :=
  match v with
  | PyNone => false
  | PyBool b => b
  | PyInt n => negb (n =? 0)%Z
  | PyFloat (S754_zero _) => false
  | PyFloat _ => true
  | PyStr s | PyBytes s => negb (String.eqb s "")
  | PyList l | PyTuple l => negb (bool_decide (l = []))
  | PyDict kvs => negb (bool_decide (kvs = []))
  end.

(** [len(v)]; [None] where it raises (the object has no length). *)
Definition len (v : pyval) : option nat :=
  match v with
  | PyStr s | PyBytes s => Some (String.length s)
  | PyList l | PyTuple l => Some (length l)
  | PyDict kvs => Some (length kvs)
  | _ => None
  end.

(** [v[:10]]; [None] where it raises (a dict does not take a slice). *)
Definition first_ten (v : pyval) : option pyval :=
  match v with
  | PyStr s => Some (PyStr (substring 0 10 s))
  | PyBytes s => Some (PyBytes (substring 0 10 s))
  | PyList l => Some (PyList (take 10 l))
  | PyTuple l => Some (PyTuple (take 10 l))
  | _ => None
  end.

(** Whether [hash(v)] returns: lists and dicts are not hashable, a tuple
    is when its items are. *)
Fixpoint hashable (v : pyval) : bool :=
  match v with
  | PyList _ | PyDict _ => false
  | PyTuple l => forallb hashable l
  | _ => true
  end.

(** [swap_sigs[v]] under [if v in swap_sigs]: the outer [None] is the
    TypeError of an unhashable [v]; the keys are strings, so only a string
    can be found. *)
Definition find_sig (v : pyval) : option (option string) :=
  if hashable v
  then Some (match v with
             | PyStr s => dict_get s swap_sigs
             | _ => None
             end)
  else None.

Definition with_notes (notes' : string) (tx : Transaction) : Transaction :=
  {| id := id tx;
     timestamp := timestamp tx;
     transaction_type := transaction_type tx;
     source := source tx;
     amount := amount tx;
     currency := currency tx;
     fee := fee tx;
     fee_currency := fee_currency tx;
     status := status tx;
     notes := notes';
     raw_data := raw_data tx;
     related_transactions := related_transactions tx |}.

Definition with_type (type' : TransactionType) (tx : Transaction) : Transaction :=
  {| id := id tx;
     timestamp := timestamp tx;
     transaction_type := type';
     source := source tx;
     amount := amount tx;
     currency := currency tx;
     fee := fee tx;
     fee_currency := fee_currency tx;
     status := status tx;
     notes := notes tx;
     raw_data := raw_data tx;
     related_transactions := related_transactions tx |}.

(** The part of track_dex_transaction that looks at the call data.
    [None] is an exception, of whatever class: the caller has one handler
    for all of them. *)
Definition decode_swap (tx : Transaction) : option Transaction :=
  match raw_data tx with
  | PyDict kvs =>
      let input_data := default (PyStr "") (dict_get "input" kvs) in
      if truthy input_data then
        n ← len input_data;
        if bool_decide (10 < n)%nat then
          function_sig ← first_ten input_data;
          name ← find_sig function_sig;
          Some match name with
               | Some name =>
                   with_notes ("DEX Swap - " ++ name ++ " - " ++ notes tx)%string tx
               | None => tx
               end
        else Some tx
      else Some tx
  | _ => None
  end.

(** track_dex_transaction.  [fetched] is what
    [eth_client.get_transaction(tx_hash)] has returned and [is_dex] what
    [is_dex_transaction(tx_hash)] has; neither method raises.  The body
    runs under [try: ... except Exception: return None]. *)
Definition track_dex_transaction (fetched : option Transaction) (is_dex : bool)
  : option Transaction :=
  match fetched with
  | None => None
  | Some tx =>
      if is_dex
      then decode_swap (with_notes ("DEX Swap - " ++ notes tx)%string (with_type SWAP tx))
      else Some tx
  end.

End DEXTracker.

(** ** Vocabulary of the statements *)

(** [i] has a record in table [transactions]. *)
Definition stored (db : Database) (i : string) : Prop :=
  ∃ r, r ∈ transactions db ∧ r_id r = i.

(** A link row joins [a] and [b], in either direction. *)
Definition linked (db : Database) (a b : string) : Prop :=
  ∃ l, l ∈ transaction_links db ∧
       ((parent_id l = a ∧ child_id l = b) ∨ (parent_id l = b ∧ child_id l = a)).


(** A step the traversal takes: across a link, out of an id that has a
    record. *)
Definition hop (db : Database) (a b : string) : Prop :=
  stored db a ∧ linked db a b.

(** Reachability along links through ids that have a record. *)
Definition chain_reachable (db : Database) : relation string := rtc (hop db).

(** Every row of the store decodes. *)
Definition rows_load (db : Database) : Prop :=
  ∀ r, r ∈ transactions db → ∃ tx, load_row r = Ok tx.

(** get_transaction does not raise on any id of the link table. *)
Definition links_load (db : Database) : Prop :=
  ∀ y, y ∈ link_ids db → ∃ o, get_transaction db y = Ok o.

(** [tx] is the record of an id that the traversal from [s] reaches. *)
Definition in_component (db : Database) (s : string) (tx : Transaction) : Prop :=
  chain_reachable db s (id tx) ∧ get_transaction db (id tx) = Ok (Some tx).

(** [a.timestamp <= b.timestamp] as list.sort sees it: [b < a] is false. *)
Definition timestamp_le (a b : Transaction) : Prop :=
  datetime_lt (timestamp b) (timestamp a) = Ok false.

Definition aware (tx : Transaction) : bool :=
  match tzinfo (timestamp tx) with
  | Some _ => true
  | None => false
  end.

(** The instant list.sort orders a datetime by; a naive datetime is
    compared by its wall-clock reading. *)
Definition sort_key (d : datetime) : Z := instant d (default 0%Z (tzinfo d)).

(** The record with its cached [related_transactions] view blanked. *)
Definition without_related (tx : Transaction) : Transaction :=
  {| id := id tx;
     timestamp := timestamp tx;
     transaction_type := transaction_type tx;
     source := source tx;
     amount := amount tx;
     currency := currency tx;
     fee := fee tx;
     fee_currency := fee_currency tx;
     status := status tx;
     notes := notes tx;
     raw_data := raw_data tx;
     related_transactions := [] |}.

(** The payloads that survive [json.dumps] followed by [json.loads]:
    built from None, booleans, integers, floats other than NaN, strings,
    lists and dicts; no tuple, no bytes. *)
Fixpoint json_native (v : pyval) : bool :=
  match v with
  | PyNone | PyBool _ | PyInt _ | PyStr _ => true
  | PyFloat f => negb (is_nan f)
  | PyBytes _ | PyTuple _ => false
  | PyList l => forallb json_native l
  | PyDict kvs =>
      forallb (λ kv, match kv with (_, x) => json_native x end) kvs
      && bool_decide (NoDup kvs.*1)
  end.

(** The row holds its timestamp as [isoformat] writes it, decodes to a
    record, and the record's timestamp has offset [tz] ([None]: naive). *)
Definition row_written_with (tz : option Z) (r : row) : Prop :=
  ∃ tx, load_row r = Ok tx ∧ r_timestamp r = isoformat (timestamp tx) ∧
        tzinfo (timestamp tx) = tz.

(** The text of [r1] is not below the text of [r2]. *)
Definition text_ge (r1 r2 : row) : Prop :=
  String.leb (r_timestamp r2) (r_timestamp r1) = true.

(** ** Proof vocabulary for the traversal *)

(** The body of the loop of [_get_related_transactions], under a name. *)
Definition visit (depth : nat) (db : Database) (related_id : string) (st : traversal)
  : option (result traversal) :=
  if decide (related_id ∈ visited st) then Some (Ok st)
  else
    let visited' := {[related_id]} ∪ visited st in
    match get_transaction db related_id with
    | Raise e => Some (Raise e)
    | Ok None => Some (Ok (mkTraversal (chain st) visited'))
    | Ok (Some related_tx) =>
        _get_related_transactions depth db related_id
          (mkTraversal (chain st ++ [related_tx]) visited')
    end.

(** How many ids of the link table are not in [V]. *)
Definition unvisited (db : Database) (V : gset string) : nat :=
  size (link_ids db ∖ V).

(** What holds of [chain] and [visited] throughout a traversal that
    started at [s]: the chain holds each record once, the records are those
    of the visited ids that have one, every visited id is reachable, and
    get_transaction has not raised on any of them. *)
Definition traversal_invariant (db : Database) (s : string) (st : traversal) : Prop :=
  NoDup (id <$> chain st) ∧
  (∀ tx, tx ∈ chain st → id tx ∈ visited st ∧ get_transaction db (id tx) = Ok (Some tx)) ∧
  (∀ x tx, x ∈ visited st → get_transaction db x = Ok (Some tx) → tx ∈ chain st) ∧
  (∀ x, x ∈ visited st → chain_reachable db s x) ∧
  (∀ x, x ∈ visited st → ∃ o, get_transaction db x = Ok o).

(** Every id visited after [V0] that has a record has all its neighbours
    visited. *)
Definition closed_since (db : Database) (V0 : gset string) (st : traversal) : Prop :=
  ∀ x tx y, x ∈ visited st → x ∉ V0 → get_transaction db x = Ok (Some tx) →
            linked db x y → y ∈ visited st.

(** ** Vocabulary for dangling links and for the cached view *)

(** The store without the link rows that have [x] as an endpoint. *)
Definition without_links_at (x : string) (db : Database) : Database :=
  {| transactions := transactions db;
     transaction_links :=
       filter (λ l, parent_id l ≠ x ∧ child_id l ≠ x) (transaction_links db);
     write_lock := write_lock db |}.

(** Two traversal states that differ at most by [x] being visited. *)
Definition same_up_to_visit (x : string) (st1 st2 : traversal) : Prop :=
  chain st1 = chain st2 ∧ visited st2 = visited st1 ∖ {[x]}.

(** Two outcomes that agree: the same exception, or states (lists) that
    [R] relates. *)
Definition same_outcome {A B : Type} (R : A → B → Prop) (r1 : result A) (r2 : result B) : Prop :=
  match r1, r2 with
  | Ok a, Ok b => R a b
  | Raise e1, Raise e2 => e1 = e2
  | _, _ => False
  end.

(** The row with its [related_transactions] column blanked. *)
Definition blank_related (r : row) : row :=
  {| r_id := r_id r;
     r_timestamp := r_timestamp r;
     r_transaction_type := r_transaction_type r;
     r_source := r_source r;
     r_amount := r_amount r;
     r_currency := r_currency r;
     r_fee := r_fee r;
     r_fee_currency := r_fee_currency r;
     r_status := r_status r;
     r_notes := r_notes r;
     r_raw_data := r_raw_data r;
     r_related_transactions := CellNull |}.

(** The two stores have the same link table and the same rows, column
    [related_transactions] apart. *)
Definition same_but_related (db1 db2 : Database) : Prop :=
  transaction_links db1 = transaction_links db2 ∧
  blank_related <$> transactions db1 = blank_related <$> transactions db2.

(** Column [related_transactions] holds a serialized list in every row. *)
Definition related_is_json (db : Database) : Prop :=
  ∀ r, r ∈ transactions db → ∃ l, r_related_transactions r = CellJson l.

Definition same_but_cached_view (st1 st2 : traversal) : Prop :=
  without_related <$> chain st1 = without_related <$> chain st2 ∧
  visited st1 = visited st2.

(** ** Vocabulary for the invariants of the store *)

(** The primary keys of the two tables hold: one row per id, one link row
    per pair of ids. *)
Definition unique_keys (db : Database) : Prop :=
  NoDup (r_id <$> transactions db) ∧
  NoDup ((λ l, (parent_id l, child_id l)) <$> transaction_links db).


(** A record that the store gives back as it was saved: a valid
    timestamp, a JSON-native payload, no NaN in [amount] or [fee]. *)
Definition faithful (tx : Transaction) : bool :=
  valid_datetime (timestamp tx) && json_native (raw_data tx) &&
  negb (is_nan (amount tx)) &&
  match fee tx with
  | Some f => negb (is_nan f)
  | None => true
  end.

(** ** Vocabulary for the command line *)

(** The value [v] of a filter option lets the key through: the option is
    absent or empty, or equal to the key when both are put in lower
    case. *)
Definition lets_through (arg : option string) (key : string) : bool :=
  match arg with
  | Some v => bool_decide (v = "") || bool_decide (CLI.lower key = CLI.lower v)
  | None => true
  end.



(** ** Decidable stand-ins for hypotheses on a concrete store *)

Definition is_ok {A : Type} (r : result A) : bool :=
  match r with
  | Ok _ => true
  | Raise _ => false
  end.

Definition rows_load_naive (db : Database) : bool :=
  forallb (λ r, match load_row r with
                | Ok tx => negb (aware tx)
                | Raise _ => false
                end) (transactions db).

(** ** Example records and stores *)

Definition finite (m e : Z) : spec_float := S754_finite false (Z.to_pos m) e.

Definition plain_row (i ts : string) : row :=
  {| r_id := i; r_timestamp := ts; r_transaction_type := "transfer";
     r_source := "manual"; r_amount := finite 1 0; r_currency := "ETH";
     r_fee := Some (S754_zero false); r_fee_currency := "ETH";
     r_status := "completed"; r_notes := "";
     r_raw_data := CellJson (JObj []); r_related_transactions := CellJson [] |}.

Definition empty_db : Database := mkDatabase [] [] false.

Definition sample_tx (i : string) (ts : datetime) (raw : pyval) : Transaction :=
  {| id := i; timestamp := ts; transaction_type := TRANSFER; source := MANUAL;
     amount := finite 1 0; currency := "ETH"; fee := Some (S754_zero false);
     fee_currency := "ETH"; status := "completed"; notes := "";
     raw_data := raw; related_transactions := [] |}.

(** The record that [plain_row i (isoformat d)] decodes to. *)
Definition plain_tx (i : string) (d : datetime) : Transaction :=
  sample_tx i d (PyDict []).

Definition noon : datetime := mkDatetime 2024 1 1 12 0 0 0 None.

Definition noon_utc : datetime := mkDatetime 2024 1 1 12 0 0 0 (Some 0%Z).

Definition at_second (sec : Z) : datetime := mkDatetime 2024 1 1 0 0 sec 0 None.

Definition ten_plus_five : datetime := mkDatetime 2024 1 1 10 0 0 0 (Some 300%Z).

Definition eight_utc : datetime := mkDatetime 2024 1 1 8 0 0 0 (Some 0%Z).

(** A payload that holds a tuple. *)
Definition tx_with_tuple : Transaction :=
  sample_tx "A" noon (PyDict [("pair", PyTuple [PyInt 1; PyInt 2])]).

(** A payload as the Etherscan and Coinbase replies give it. *)
Definition tx_plain : Transaction :=
  sample_tx "A" noon (PyDict [("hash", PyStr "0xabc"); ("logs", PyList [PyInt 1; PyNone])]).

(** A second version of [tx_plain], same id, other values. *)
Definition tx_plain_later : Transaction :=
  {| id := "A"; timestamp := noon_utc; transaction_type := SWAP; source := DEX;
     amount := finite 2 0; currency := "DAI"; fee := Some (finite 1 (-3));
     fee_currency := "ETH"; status := "confirmed"; notes := "second save";
     raw_data := PyDict [("hash", PyStr "0xdef")]; related_transactions := ["B"] |}.

(** The example of the specification: A (second 1), B (second 3),
    C (second 2), links A→B and A→C. *)
Definition db_abc : Database :=
  {| transactions := [plain_row "A" "2024-01-01T00:00:01";
                      plain_row "B" "2024-01-01T00:00:03";
                      plain_row "C" "2024-01-01T00:00:02"];
     transaction_links := [mkLink "A" "B" "continuation"; mkLink "A" "C" "continuation"];
     write_lock := false |}.

(** A path A→B, B→C between three records. *)
Definition db_path : Database :=
  {| transactions := [plain_row "A" "2024-01-01T00:00:01";
                      plain_row "B" "2024-01-01T00:00:02";
                      plain_row "C" "2024-01-01T00:00:03"];
     transaction_links := [mkLink "A" "B" "continuation"; mkLink "B" "C" "continuation"];
     write_lock := false |}.

(** A and B have records, X has none; the links are A→X and X→B. *)
Definition db_dangling : Database :=
  {| transactions := [plain_row "A" "2024-01-01T00:00:01";
                      plain_row "B" "2024-01-01T00:00:02"];
     transaction_links := [mkLink "A" "X" "continuation"; mkLink "X" "B" "continuation"];
     write_lock := false |}.




(** Two aware records: X at 10:00 in UTC+05:00 (05:00 UTC) and Y at 08:00
    UTC. *)
Definition db_offsets : Database :=
  {| transactions := [plain_row "X" "2024-01-01T10:00:00+05:00";
                      plain_row "Y" "2024-01-01T08:00:00+00:00"];
     transaction_links := [];
     write_lock := false |}.


(** One record A; the second store differs from the first in the
    [related_transactions] cell of A, which does not hold JSON. *)
Definition db_view_ok : Database :=
  {| transactions := [plain_row "A" "2024-01-01T12:00:00"];
     transaction_links := [];
     write_lock := false |}.

Definition db_view_garbled : Database :=
  {| transactions :=
       [{| r_id := "A"; r_timestamp := "2024-01-01T12:00:00";
           r_transaction_type := "transfer"; r_source := "manual";
           r_amount := finite 1 0; r_currency := "ETH";
           r_fee := Some (S754_zero false); r_fee_currency := "ETH";
           r_status := "completed"; r_notes := "";
           r_raw_data := CellJson (JObj []);
           r_related_transactions := CellGarbled "[" |}];
     transaction_links := [];
     write_lock := false |}.

(** The same record A with two different cached views, and a link A→B. *)
Definition db_view_empty : Database :=
  {| transactions := [plain_row "A" "2024-01-01T00:00:01"; plain_row "B" "2024-01-01T00:00:02"];
     transaction_links := [mkLink "A" "B" "continuation"];
     write_lock := false |}.

Definition db_view_filled : Database :=
  {| transactions :=
       [{| r_id := "A"; r_timestamp := "2024-01-01T00:00:01";
           r_transaction_type := "transfer"; r_source := "manual";
           r_amount := finite 1 0; r_currency := "ETH";
           r_fee := Some (S754_zero false); r_fee_currency := "ETH";
           r_status := "completed"; r_notes := "";
           r_raw_data := CellJson (JObj []);
           r_related_transactions := CellJson ["B"; "Z"] |};
        plain_row "B" "2024-01-01T00:00:02"];
     transaction_links := [mkLink "A" "B" "continuation"];
     write_lock := false |}.

(** [db_abc] with each link turned round and given another type, the
    link rows in the other order. *)
Definition db_abc_reversed : Database :=
  {| transactions := transactions db_abc;
     transaction_links := [mkLink "C" "A" "swap"; mkLink "B" "A" "fee"];
     write_lock := false |}.

(** A naive record A and an aware record B, not linked. *)
Definition db_mixed_unlinked : Database :=
  {| transactions := [plain_row "A" "2024-01-01T12:00:00";
                      plain_row "B" "2024-01-01T12:00:00+00:00"];
     transaction_links := [];
     write_lock := false |}.

(** A record whose fee is NaN. *)
Definition tx_nan_fee : Transaction :=
  {| id := "N"; timestamp := noon; transaction_type := TRANSFER; source := MANUAL;
     amount := finite 1 0; currency := "ETH"; fee := Some S754_nan;
     fee_currency := "ETH"; status := "completed"; notes := "";
     raw_data := PyDict []; related_transactions := [] |}.

(** Clients that have nothing to report. *)
Definition no_clients : CLI.clients :=
  CLI.mkClients (λ _, []) (Ok []).

(** Two Coinbase accounts and what the client fetches for each. *)
Definition two_accounts (account_id : string) : result (list Transaction) :=
  if String.eqb account_id "wallet-1"
  then Ok [plain_tx "B" (at_second 3); plain_tx "A" (at_second 2)]
  else Ok [plain_tx "A" (at_second 1)].

(** A swap through a router: the call data as a string, and as bytes. *)
Definition tx_swap_str : Transaction :=
  sample_tx "0xfeed" noon (PyDict [("input", PyStr "0x7ff36ab5000000000000")]).

Definition tx_swap_bytes : Transaction :=
  sample_tx "0xfeed" noon (PyDict [("input", PyBytes "0x7ff36ab5000000000000")]).

(** * Lemmas and theorems *)

(** Case analysis on the membership of a row (or link) in a listed table. *)
Ltac each_row H :=
  repeat (apply elem_of_cons in H as [->|H]); [..|by apply elem_of_nil in H].

(** ** Point lookup *)

Lemma select_transaction_None (db : Database) (i : string) :
  select_transaction db i = None ↔ ∀ r, r ∈ transactions db → r_id r ≠ i.
Proof.
  unfold select_transaction. split.
  - intros Hnone r Hr%list_elem_of_In Heq.
    pose proof (find_none _ _ Hnone r Hr) as Hf. simpl in Hf.
    by rewrite bool_decide_eq_false in Hf.
  - intros Hall. induction (transactions db) as [|r l IH]; [done|]. simpl.
    rewrite bool_decide_eq_false_2 by (apply Hall; left).
    apply IH. intros r' Hr'. apply Hall. by right.
Qed.

Lemma select_transaction_Some (db : Database) (i : string) (r : row) :
  select_transaction db i = Some r → r ∈ transactions db ∧ r_id r = i.
Proof.
  unfold select_transaction. intros [Hin Hid]%find_some. split.
  - by apply list_elem_of_In.
  - by apply bool_decide_eq_true in Hid.
Qed.

Lemma stored_select (db : Database) (i : string) :
  stored db i ↔ ∃ r, select_transaction db i = Some r.
Proof.
  split.
  - intros (r & Hr & Hid).
    destruct (select_transaction db i) as [r'|] eqn:Hsel; [by eexists|].
    rewrite select_transaction_None in Hsel. by destruct (Hsel r Hr).
  - intros [r (Hr & Hid)%select_transaction_Some]. by exists r.
Qed.

Lemma get_transaction_absent (db : Database) (i : string) :
  (∀ r, r ∈ transactions db → r_id r ≠ i) → get_transaction db i = Ok None.
Proof.
  intros Habs%select_transaction_None. unfold get_transaction. by rewrite Habs.
Qed.

Lemma get_transaction_Some (db : Database) (i : string) (tx : Transaction) :
  get_transaction db i = Ok (Some tx) →
  ∃ r, select_transaction db i = Some r ∧ load_row r = Ok tx.
Proof.
  unfold get_transaction. destruct (select_transaction db i) as [r|]; [|done].
  destruct (load_row r) as [tx'|e] eqn:Hload; simpl; [|done].
  intros [= ->]. by exists r.
Qed.

Lemma load_row_id (r : row) (tx : Transaction) : load_row r = Ok tx → id tx = r_id r.
Proof.
  unfold load_row, from_dict.
  destruct (r_raw_data r), (r_related_transactions r); simpl; try done.
  destruct (fromisoformat _); simpl; [|done].
  destruct (TransactionType_of_value _); simpl; [|done].
  destruct (TransactionSource_of_value _); simpl; [|done].
  by intros [= <-].
Qed.

Lemma get_transaction_id (db : Database) (i : string) (tx : Transaction) :
  get_transaction db i = Ok (Some tx) → id tx = i ∧ stored db i.
Proof.
  intros (r & Hsel & Hload)%get_transaction_Some.
  apply load_row_id in Hload. pose proof Hsel as [Hin Hid]%select_transaction_Some.
  split; [congruence|]. by exists r.
Qed.

(** C7. An id without a record is a normal outcome: get_transaction
    returns [None] and get_transaction_chain the empty list; neither
    raises. *)
Theorem not_found_is_not_an_error (db : Database) (i : string) :
  (∀ r, r ∈ transactions db → r_id r ≠ i) →
  get_transaction db i = Ok None ∧ get_transaction_chain db i = Ok [].
Proof.
  intros Habs. pose proof (get_transaction_absent _ _ Habs) as Hget.
  split; [done|]. unfold get_transaction_chain. by rewrite Hget.
Qed.

(** ** save_transaction *)

Lemma row_of_transaction_fields (tx : Transaction) (r : row) :
  row_of_transaction tx = Ok r →
  r_id r = id tx ∧ r_amount r = amount tx ∧
  r_timestamp r = isoformat (timestamp tx) ∧
  r_related_transactions r = CellJson (related_transactions tx).
Proof.
  unfold row_of_transaction. destruct (json_dumps _); simpl; [|done].
  by intros [= <-].
Qed.

Lemma save_transaction_success (db : Database) (tx : Transaction) (r : row) :
  write_lock db = false →
  row_of_transaction tx = Ok r →
  is_nan (amount tx) = false →
  save_transaction db tx =
    ({| transactions := filter (λ r', r_id r' ≠ id tx) (transactions db) ++ [r];
        transaction_links := transaction_links db;
        write_lock := false |}, true).
Proof.
  intros Hlock Hrow Hnan.
  destruct (row_of_transaction_fields _ _ Hrow) as (Hid & Hamount & _).
  unfold save_transaction, insert_or_replace_transaction. rewrite Hrow. simpl.
  by rewrite Hlock, Hamount, Hnan, Hid.
Qed.

Lemma save_transaction_locked (db : Database) (tx : Transaction) :
  write_lock db = true → save_transaction db tx = (db, false).
Proof.
  intros Hlock. unfold save_transaction, insert_or_replace_transaction.
  destruct (row_of_transaction tx); simpl; [|done]. by rewrite Hlock.
Qed.

Lemma save_transaction_failure (db : Database) (tx : Transaction) :
  (save_transaction db tx).2 = false → (save_transaction db tx).1 = db.
Proof.
  unfold save_transaction, try_except.
  by destruct (_ ≫= _) as [db'|e].
Qed.

Lemma filter_id_replace (i : string) (r : row) (rows : list row) :
  r_id r = i →
  filter (λ r', r_id r' = i) (filter (λ r', r_id r' ≠ i) rows ++ [r]) = [r].
Proof.
  intros Hid. rewrite filter_app, list_filter_filter.
  rewrite filter_singleton_True by done.
  replace (filter _ rows) with (@nil row); [done|].
  symmetry. induction rows as [|r' rows IH]; [done|].
  rewrite filter_cons_False; [done|]. by intros [? ?].
Qed.

Lemma select_after_replace (rows : list row) (i : string) (r : row) (links : list link) (b : bool) :
  r_id r = i →
  select_transaction
    (mkDatabase (filter (λ r', r_id r' ≠ i) rows ++ [r]) links b) i = Some r.
Proof.
  intros Hid. unfold select_transaction. simpl.
  induction rows as [|r' rows IH]; simpl.
  - by rewrite bool_decide_eq_true_2.
  - rewrite filter_cons. case_decide as Hne; [|done]. simpl.
    by rewrite bool_decide_eq_false_2.
Qed.

Lemma select_other_after_replace (rows : list row) (i j : string) (r : row) (links links' : list link) (b b' : bool) :
  r_id r = i → j ≠ i →
  select_transaction
    (mkDatabase (filter (λ r', r_id r' ≠ i) rows ++ [r]) links b) j
  = select_transaction (mkDatabase rows links' b') j.
Proof.
  intros Hid Hne. unfold select_transaction. simpl.
  induction rows as [|r' rows IH]; simpl.
  - rewrite bool_decide_eq_false_2; [done|congruence].
  - rewrite filter_cons. case_decide as Hr'; simpl.
    + by rewrite IH.
    + rewrite IH. rewrite bool_decide_eq_false_2; [done|congruence].
Qed.

(** C3. save_transaction is an upsert keyed by [id].  Whatever the table
    holds under the id, a save whose row can be written (no other
    connection in a write, serializable [raw_data], an [amount] that is not
    NaN) succeeds and leaves exactly one row under the id, the one just
    written; rows under other ids stay.  After two saves of one id the
    row is that of the second. *)
Theorem save_transaction_upsert (db : Database) (tx1 tx2 : Transaction) (r1 r2 : row) :
  write_lock db = false →
  row_of_transaction tx1 = Ok r1 → is_nan (amount tx1) = false →
  row_of_transaction tx2 = Ok r2 → is_nan (amount tx2) = false →
  id tx1 = id tx2 →
  let db1 := (save_transaction db tx1).1 in
  let db2 := (save_transaction db1 tx2).1 in
  (save_transaction db tx1).2 = true ∧
  filter (λ r, r_id r = id tx1) (transactions db1) = [r1] ∧
  (save_transaction db1 tx2).2 = true ∧
  filter (λ r, r_id r = id tx2) (transactions db2) = [r2] ∧
  get_transaction db2 (id tx2) = Some <$> load_row r2 ∧
  (∀ r, r_id r ≠ id tx2 → r ∈ transactions db2 ↔ r ∈ transactions db) ∧
  transaction_links db2 = transaction_links db.
Proof.
  intros Hlock Hrow1 Hnan1 Hrow2 Hnan2 Hid db1 db2.
  destruct (row_of_transaction_fields _ _ Hrow1) as (Hid1 & _).
  destruct (row_of_transaction_fields _ _ Hrow2) as (Hid2 & _).
  subst db2 db1.
  rewrite (save_transaction_success db tx1 r1) by done. simpl.
  rewrite (save_transaction_success _ tx2 r2) by done. simpl.
  split_and!; try done.
  - by apply filter_id_replace.
  - by apply filter_id_replace.
  - unfold get_transaction.
    by rewrite select_after_replace.
  - intros r Hne. rewrite !elem_of_app, !list_elem_of_filter, !elem_of_app,
      !list_elem_of_filter, !list_elem_of_singleton.
    split; [|naive_solver congruence].
    intros [(_ & [(_ & ?)| ->])| ->]; [done|congruence|congruence].
Qed.

(** ** link_transactions *)

Lemma get_transaction_rows (db db' : Database) (i : string) :
  transactions db' = transactions db → get_transaction db' i = get_transaction db i.
Proof. intros Heq. unfold get_transaction, select_transaction. by rewrite Heq. Qed.

(** What link_transactions comes to once the lock is followed through: the
    nested save_transaction finds the file locked by the caller's own
    connection, so only the link row is written. *)
Lemma link_transactions_unfold (db : Database) (p c t : string) :
  write_lock db = false →
  link_transactions db p c t =
    match get_transaction db p with
    | Raise _ => (db, false)
    | Ok _ =>
        ({| transactions := transactions db;
            transaction_links :=
              filter (λ l, ¬ (parent_id l = p ∧ child_id l = c)) (transaction_links db)
              ++ [mkLink p c t];
            write_lock := false |}, true)
    end.
Proof.
  intros Hlock. unfold link_transactions, insert_or_replace_link. rewrite Hlock. simpl.
  set (db1 := mkDatabase _ _ true).
  rewrite (get_transaction_rows db db1) by done.
  destruct (get_transaction db p) as [[tx|]|e]; simpl; [|done..].
  case_bool_decide; [|done].
  by rewrite (save_transaction_locked db1).
Qed.

Lemma link_transactions_locked (db : Database) (p c t : string) :
  write_lock db = true → link_transactions db p c t = (db, false).
Proof.
  intros Hlock. unfold link_transactions, insert_or_replace_link. by rewrite Hlock.
Qed.


(** The table [transactions] is the same before and after any call of
    link_transactions: the parent's row is not rewritten. *)
Lemma link_transactions_keeps_rows (db : Database) (p c t : string) :
  transactions (link_transactions db p c t).1 = transactions db.
Proof.
  destruct (write_lock db) eqn:Hlock.
  - by rewrite link_transactions_locked.
  - rewrite link_transactions_unfold by done.
    by destruct (get_transaction db p).
Qed.



(** ** isoformat and fromisoformat *)

Lemma string_app_cons (c : ascii) (s t : string) :
  (String c s ++ t)%string = String c (s ++ t)%string.
Proof. reflexivity. Qed.

Lemma string_app_assoc (s t u : string) :
  ((s ++ t) ++ u)%string = (s ++ (t ++ u))%string.
Proof.
  induction s as [|c s IH]; [done|].
  rewrite !string_app_cons. by rewrite IH.
Qed.

Lemma string_app_nil_r (s : string) : (s ++ "")%string = s.
Proof. induction s as [|c s IH]; [done|]. by rewrite string_app_cons, IH. Qed.

Lemma digit_val_char (n : Z) : digit_val (digit_char n) = Some (n mod 10)%Z.
Proof.
  unfold digit_val, digit_char.
  assert (0 ≤ n mod 10 < 10)%Z as Hn by (apply Z.mod_pos_bound; lia).
  rewrite N_ascii_embedding by lia.
  rewrite (proj2 (N.leb_le 48 _)), (proj2 (N.leb_le _ 57)) by lia.
  simpl. f_equal. lia.
Qed.

Lemma read_digits_snoc (k : nat) (acc : Z) (s : string) :
  read_digits (S k) acc s =
    read_digits k acc s ≫= λ '(a, s'), read_digits 1 a s'.
Proof.
  revert acc s. induction k as [|k IH]; intros acc s.
  - simpl. by destruct s.
  - change (read_digits (S (S k)) acc s) with
      (match s with
       | String c s' =>
           match digit_val c with
           | Some v => read_digits (S k) (10 * acc + v)%Z s'
           | None => None
           end
       | EmptyString => None
       end).
    destruct s as [|c s]; [done|]. simpl (read_digits (S k) acc _).
    destruct (digit_val c) as [v|]; [|done]. apply IH.
Qed.

Lemma read_digits_pad (k : nat) (acc n : Z) (rest : string) :
  read_digits k acc (pad k n ++ rest)%string =
    Some (acc * 10 ^ Z.of_nat k + n mod 10 ^ Z.of_nat k, rest)%Z.
Proof.
  revert acc n rest. induction k as [|k IH]; intros acc n rest.
  - simpl. rewrite Z.mod_1_r. do 2 f_equal. lia.
  - rewrite read_digits_snoc. cbn [pad]. rewrite string_app_assoc, IH.
    cbn [mbind option_bind]. rewrite string_app_cons. cbn [read_digits].
    rewrite digit_val_char. change ("" ++ rest)%string with rest.
    do 2 f_equal. rewrite Nat2Z.inj_succ, Z.pow_succ_r by lia.
    rewrite (Z.rem_mul_r n 10 (10 ^ Z.of_nat k)) by lia. lia.
Qed.

Lemma read_digits_pad_small (k : nat) (n : Z) (rest : string) :
  (0 ≤ n < 10 ^ Z.of_nat k)%Z →
  read_digits k 0 (pad k n ++ rest)%string = Some (n, rest).
Proof.
  intros Hn. rewrite read_digits_pad. by rewrite Z.mod_small.
Qed.

Lemma read_offset_format (tz : option Z) :
  match tz with Some off => (-1440 < off < 1440)%Z | None => True end →
  read_offset (format_offset tz) = Some tz.
Proof.
  destruct tz as [off|]; [|done]. intros Hoff.
  assert (0 ≤ Z.abs off / 60 < 24)%Z by (split; [apply Z.div_pos|apply Z.div_lt_upper_bound]; lia).
  assert (0 ≤ Z.abs off mod 60 < 60)%Z by (apply Z.mod_pos_bound; lia).
  assert (Z.abs off = 60 * (Z.abs off / 60) + Z.abs off mod 60)%Z by (apply Z.div_mod; lia).
  unfold format_offset, read_offset.
  destruct (off <? 0)%Z eqn:Hneg; rewrite string_app_cons; cbn [Ascii.eqb Bool.eqb];
    cbn [mbind option_bind]; change ("" ++ ?s)%string with s;
    rewrite (read_digits_pad_small 2) by (simpl; lia);
    cbn [mbind option_bind]; rewrite string_app_cons;
    change ("" ++ ?s)%string with s;
    cbn [read_char Ascii.eqb Bool.eqb mbind option_bind];
    rewrite <- (string_app_nil_r (pad 2 (Z.abs off mod 60)));
    rewrite (read_digits_pad_small 2) by (simpl; lia);
    cbn [mbind option_bind];
    rewrite (proj2 (Z.ltb_lt _ 60)) by lia;
    do 2 f_equal; lia.
Qed.

Lemma valid_datetime_bounds (d : datetime) :
  valid_datetime d = true →
  (1 ≤ year d ≤ 9999 ∧ 1 ≤ month d ≤ 12 ∧
   1 ≤ day d ≤ days_in_month (year d) (month d) ∧
   0 ≤ hour d < 24 ∧ 0 ≤ minute d < 60 ∧ 0 ≤ second d < 60 ∧
   0 ≤ microsecond d < 1000000)%Z ∧
  match tzinfo d with Some off => (-1440 < off < 1440)%Z | None => True end.
Proof.
  unfold valid_datetime. intros H.
  repeat (apply andb_true_iff in H as [H ?]).
  split; [lia|]. destruct (tzinfo d); [|done].
  repeat match goal with
         | Hb : (_ && _) = true |- _ => apply andb_true_iff in Hb as [? ?]
         end.
  lia.
Qed.

Lemma days_in_month_le (y m : Z) : (28 ≤ days_in_month y m ≤ 31)%Z.
Proof.
  unfold days_in_month.
  destruct (m =? 2)%Z; [destruct (is_leap y); lia|].
  destruct (_ || _); lia.
Qed.

Lemma read_fraction_offset (tz : option Z) :
  read_fraction (format_offset tz) = Some (0%Z, format_offset tz).
Proof.
  destruct tz as [off|]; [|done]. unfold format_offset.
  by destruct (off <? 0)%Z.
Qed.

Lemma parse_isoformat_isoformat (d : datetime) :
  valid_datetime d = true → parse_isoformat (isoformat d) = Some d.
Proof.
  intros Hvalid. destruct (valid_datetime_bounds d Hvalid) as [Hb Htz].
  pose proof (days_in_month_le (year d) (month d)).
  unfold parse_isoformat, isoformat.
  rewrite (read_digits_pad_small 4) by (simpl; lia). cbn [mbind option_bind].
  rewrite string_app_cons. change ("" ++ ?s)%string with s.
  cbn [read_char Ascii.eqb Bool.eqb mbind option_bind].
  rewrite (read_digits_pad_small 2) by (simpl; lia). cbn [mbind option_bind].
  rewrite string_app_cons. change ("" ++ ?s)%string with s.
  cbn [read_char Ascii.eqb Bool.eqb mbind option_bind].
  rewrite (read_digits_pad_small 2) by (simpl; lia). cbn [mbind option_bind].
  rewrite string_app_cons. change ("" ++ ?s)%string with s.
  cbn [read_char Ascii.eqb Bool.eqb mbind option_bind].
  rewrite (read_digits_pad_small 2) by (simpl; lia). cbn [mbind option_bind].
  rewrite string_app_cons. change ("" ++ ?s)%string with s.
  cbn [read_char Ascii.eqb Bool.eqb mbind option_bind].
  rewrite (read_digits_pad_small 2) by (simpl; lia). cbn [mbind option_bind].
  rewrite string_app_cons. change ("" ++ ?s)%string with s.
  cbn [read_char Ascii.eqb Bool.eqb mbind option_bind].
  rewrite (read_digits_pad_small 2) by (simpl; lia). cbn [mbind option_bind].
  assert (∀ us, us = microsecond d →
    (read_fraction ((if (us =? 0)%Z then "" else "." ++ pad 6 us) ++ format_offset (tzinfo d))%string)
    = Some (us, format_offset (tzinfo d))) as Hfrac.
  { intros us ->. destruct (microsecond d =? 0)%Z eqn:Hus.
    - apply Z.eqb_eq in Hus as ->. change ("" ++ ?s)%string with s.
      apply read_fraction_offset.
    - rewrite string_app_assoc, string_app_cons. change ("" ++ ?s)%string with s.
      cbn [read_fraction]. by rewrite (read_digits_pad_small 6) by (simpl; lia). }
  rewrite Hfrac by done. cbn [mbind option_bind].
  rewrite read_offset_format by done. cbn [mbind option_bind].
  destruct d. simpl in *. by rewrite Hvalid.
Qed.

Lemma fromisoformat_isoformat (d : datetime) :
  valid_datetime d = true → fromisoformat (isoformat d) = Ok d.
Proof.
  intros Hvalid. unfold fromisoformat. by rewrite parse_isoformat_isoformat.
Qed.

Lemma parse_isoformat_valid (s : string) (d : datetime) :
  parse_isoformat s = Some d → valid_datetime d = true.
Proof.
  unfold parse_isoformat. intros Hparse.
  repeat (apply bind_Some in Hparse as ([? ?] & _ & Hparse)
          || apply bind_Some in Hparse as (? & _ & Hparse)).
  by case_match; simplify_eq.
Qed.

Lemma fromisoformat_valid (s : string) (d : datetime) :
  fromisoformat s = Ok d → valid_datetime d = true.
Proof.
  unfold fromisoformat. destruct (parse_isoformat s) eqn:Hparse; [|done].
  intros [= <-]. by eapply parse_isoformat_valid.
Qed.

(** ** json.dumps and json.loads *)

Lemma pyval_nested_ind (P : pyval → Prop) :
  P PyNone → (∀ b, P (PyBool b)) → (∀ n, P (PyInt n)) → (∀ f, P (PyFloat f)) →
  (∀ s, P (PyStr s)) → (∀ s, P (PyBytes s)) →
  (∀ l, Forall P l → P (PyList l)) →
  (∀ l, Forall P l → P (PyTuple l)) →
  (∀ kvs, Forall (λ kv, P kv.2) kvs → P (PyDict kvs)) →
  ∀ v, P v.
Proof.
  intros HNone HBool HInt HFloat HStr HBytes HList HTuple HDict.
  fix IH 1.
  intros [ |b|n|f|s|s|l|l|kvs];
    [apply HNone|apply HBool|apply HInt|apply HFloat|apply HStr|apply HBytes|..].
  - apply HList. induction l as [|x l IHl]; constructor; [apply IH|apply IHl].
  - apply HTuple. induction l as [|x l IHl]; constructor; [apply IH|apply IHl].
  - apply HDict. induction kvs as [|[k x] kvs IHl]; constructor; [apply IH|apply IHl].
Qed.

Lemma result_mapM_inverse {A B : Type} (f : A → result B) (g : B → A) (l : list A) :
  Forall (λ x, ∃ y, f x = Ok y ∧ g y = x) l →
  ∃ ys, result_mapM f l = Ok ys ∧ map g ys = l.
Proof.
  induction 1 as [|x l (y & Hy & Hg) _ (ys & Hys & Hmap)]; simpl.
  - by exists [].
  - exists (y :: ys). rewrite Hy. simpl. rewrite Hys. simpl. by rewrite Hg, Hmap.
Qed.

Lemma dict_set_fresh {V : Type} (k : string) (v : V) (d : list (string * V)) :
  k ∉ d.*1 → dict_set k v d = d ++ [(k, v)].
Proof.
  induction d as [|[k' v'] d IH]; simpl; [done|].
  rewrite not_elem_of_cons. intros [Hne Hd].
  destruct (String.eqb_spec k k'); [done|]. by rewrite IH.
Qed.

Lemma dict_of_pairs_nodup {V : Type} (kvs : list (string * V)) :
  NoDup kvs.*1 → dict_of_pairs kvs = kvs.
Proof.
  unfold dict_of_pairs.
  enough (∀ acc, NoDup (acc ++ kvs).*1 →
                 fold_left (λ d kv, dict_set kv.1 kv.2 d) kvs acc = acc ++ kvs) as H
    by (intros; by apply (H [])).
  induction kvs as [|[k v] kvs IH]; intros acc Hnd; simpl.
  - by rewrite app_nil_r.
  - rewrite dict_set_fresh.
    + rewrite IH; rewrite <- app_assoc; done.
    + rewrite fmap_app in Hnd. apply NoDup_app in Hnd as (_ & Hdisj & _).
      intros Hin. apply (Hdisj k Hin). simpl. left.
Qed.

Lemma json_roundtrip (v : pyval) :
  json_native v = true → ∃ j, json_dumps v = Ok j ∧ json_loads j = v.
Proof.
  induction v as [ |b|n|f|s|s|l IH|l IH|kvs IH] using pyval_nested_ind;
    simpl; intros Hnative; try done; try (eexists; split; [done|done]).
  - destruct (result_mapM_inverse json_dumps json_loads l) as (js & Hjs & Hmap).
    { rewrite Forall_forall in IH. apply Forall_forall. intros x Hx.
      apply IH; [done|].
      rewrite forallb_forall in Hnative. by apply Hnative, list_elem_of_In. }
    exists (JArr js). rewrite Hjs. simpl. by rewrite Hmap.
  - apply andb_true_iff in Hnative as [Hnative Hnd%bool_decide_eq_true].
    destruct (result_mapM_inverse
                (λ kv, match kv with (k, x) => j ← json_dumps x; Ok (k, j) end)
                (λ kv : string * json, match kv with (k, x) => (k, json_loads x) end) kvs)
      as (js & Hjs & Hmap).
    { rewrite Forall_forall in IH. apply Forall_forall. intros [k x] Hx.
      destruct (IH (k, x) Hx) as (j & Hj & Hload).
      { rewrite forallb_forall in Hnative.
        by apply (Hnative (k, x)), list_elem_of_In. }
      exists (k, j). simpl in *. rewrite Hj. simpl. by rewrite Hload. }
    exists (JObj js). rewrite Hjs. simpl. rewrite Hmap. by rewrite dict_of_pairs_nodup.
Qed.

(** ** Round trip through the store *)

Lemma TransactionType_roundtrip (t : TransactionType) :
  TransactionType_of_value (TransactionType_value t) = Ok t.
Proof. by destruct t. Qed.

Lemma TransactionSource_roundtrip (t : TransactionSource) :
  TransactionSource_of_value (TransactionSource_value t) = Ok t.
Proof. by destruct t. Qed.

(** [from_dict] undoes [to_dict]. *)
Lemma from_dict_to_dict (tx : Transaction) :
  valid_datetime (timestamp tx) = true → from_dict (to_dict tx) = Ok tx.
Proof.
  intros Hvalid. unfold from_dict, to_dict. simpl.
  rewrite fromisoformat_isoformat by done. simpl.
  rewrite TransactionType_roundtrip, TransactionSource_roundtrip. simpl.
  by destruct tx.
Qed.

Lemma save_transaction_true (db : Database) (tx : Transaction) :
  (save_transaction db tx).2 = true →
  write_lock db = false ∧ is_nan (amount tx) = false ∧
  ∃ r, row_of_transaction tx = Ok r.
Proof.
  unfold save_transaction, insert_or_replace_transaction.
  destruct (row_of_transaction tx) as [r|e] eqn:Hrow; simpl; [|done].
  destruct (row_of_transaction_fields _ _ Hrow) as (_ & -> & _).
  destruct (write_lock db); simpl; [done|].
  destruct (is_nan (amount tx)); simpl; [done|]. eauto.
Qed.

(** C2, as amended.  A record whose timestamp is a valid datetime, whose
    [raw_data] is JSON-native and whose [fee] is a float other than NaN
    comes back from get_transaction, after a successful save_transaction,
    equal in every field. *)
Theorem save_get_roundtrip (db : Database) (tx : Transaction) (f : spec_float) :
  valid_datetime (timestamp tx) = true →
  json_native (raw_data tx) = true →
  fee tx = Some f → is_nan f = false →
  (save_transaction db tx).2 = true →
  get_transaction (save_transaction db tx).1 (id tx) = Ok (Some tx).
Proof.
  intros Hts Hraw Hfee Hnan (Hlock & Hamount & r & Hrow)%save_transaction_true.
  rewrite (save_transaction_success db tx r) by done. simpl.
  destruct (row_of_transaction_fields _ _ Hrow) as (Hid & _).
  unfold get_transaction. rewrite select_after_replace by done.
  destruct (json_roundtrip _ Hraw) as (j & Hj & Hloads).
  unfold row_of_transaction in Hrow. rewrite Hj in Hrow. simpl in Hrow.
  injection Hrow as <-. unfold load_row, from_dict. simpl.
  rewrite fromisoformat_isoformat by done. simpl.
  rewrite TransactionType_roundtrip, TransactionSource_roundtrip. simpl.
  rewrite Hloads, Hfee. simpl. rewrite Hnan.
  destruct tx; simpl in *. by subst.
Qed.

Lemma save_get_roundtrip_witness :
  (save_transaction empty_db tx_plain).2 = true ∧
  get_transaction (save_transaction empty_db tx_plain).1 (id tx_plain) = Ok (Some tx_plain).
Proof.
  split; [reflexivity|].
  apply (save_get_roundtrip empty_db tx_plain (S754_zero false)); reflexivity.
Defined.

(** C2 fails as stated: a tuple inside [raw_data] is saved with success
    and read back as a list. *)
Lemma roundtrip_turns_tuple_into_list :
  (save_transaction empty_db tx_with_tuple).2 = true ∧
  get_transaction (save_transaction empty_db tx_with_tuple).1 (id tx_with_tuple)
    = Ok (Some (sample_tx "A" noon (PyDict [("pair", PyList [PyInt 1; PyInt 2])]))) ∧
  get_transaction (save_transaction empty_db tx_with_tuple).1 (id tx_with_tuple)
    ≠ Ok (Some tx_with_tuple).
Proof.
  split; [reflexivity|]. split; [reflexivity|].
  vm_compute. discriminate.
Qed.

(** ** The traversal *)

Lemma elem_of_select_child_ids (db : Database) (u y : string) :
  y ∈ select_child_ids db u ↔
  ∃ l, l ∈ transaction_links db ∧ parent_id l = u ∧ child_id l = y.
Proof.
  unfold select_child_ids. rewrite list_elem_of_fmap.
  setoid_rewrite list_elem_of_filter. naive_solver.
Qed.

Lemma elem_of_select_parent_ids (db : Database) (u y : string) :
  y ∈ select_parent_ids db u ↔
  ∃ l, l ∈ transaction_links db ∧ parent_id l = y ∧ child_id l = u.
Proof.
  unfold select_parent_ids. rewrite list_elem_of_fmap.
  setoid_rewrite list_elem_of_filter. naive_solver.
Qed.

Lemma elem_of_neighbours (db : Database) (u y : string) :
  y ∈ select_child_ids db u ++ select_parent_ids db u ↔ linked db u y.
Proof.
  rewrite elem_of_app, elem_of_select_child_ids, elem_of_select_parent_ids.
  unfold linked. naive_solver.
Qed.

Lemma linked_link_ids (db : Database) (u y : string) :
  linked db u y → y ∈ link_ids db.
Proof.
  intros (l & Hl & Hends). unfold link_ids.
  rewrite elem_of_list_to_set, elem_of_app, !list_elem_of_fmap.
  destruct Hends as [[_ <-]|[<- _]]; [right|left]; by exists l.
Qed.

Lemma rows_load_get (db : Database) (i : string) :
  rows_load db → ∃ o, get_transaction db i = Ok o.
Proof.
  intros Hload. unfold get_transaction.
  destruct (select_transaction db i) as [r|] eqn:Hsel; [|by eexists].
  apply select_transaction_Some in Hsel as [Hr _].
  destruct (Hload r Hr) as [tx ->]. by eexists.
Qed.


Section traversal.
Variable db : Database.

Abbreviation unvisited := (unvisited db).

Lemma unvisited_mono (V V' : gset string) : V ⊆ V' → (unvisited V' ≤ unvisited V)%nat.
Proof. intros HV. unfold unvisited. apply subseteq_size. set_solver. Qed.

Lemma unvisited_add (V : gset string) (y : string) :
  y ∈ link_ids db → y ∉ V → unvisited ({[y]} ∪ V) < unvisited V.
Proof.
  intros Hy HV. unfold unvisited. apply subset_size. apply strict_spec_alt. split; [set_solver|].
  intros Heq. assert (y ∈ link_ids db ∖ ({[y]} ∪ V)) as Hin by (rewrite Heq; set_solver).
  set_solver.
Qed.

Lemma unvisited_bound (V : gset string) : unvisited V < recursion_bound db.
Proof.
  unfold recursion_bound, unvisited. apply Nat.lt_succ_r, subseteq_size. set_solver.
Qed.

Lemma _get_related_transactions_unfold (depth : nat) (u : string) (st : traversal) :
  _get_related_transactions (S depth) db u st =
    for_each (select_child_ids db u ++ select_parent_ids db u) st (visit depth db).
Proof. reflexivity. Qed.

Lemma for_each_cons_Ok {A S : Type} (x : A) (l : list A) (s s' : S)
    (body : A → S → option (result S)) :
  for_each (x :: l) s body = Some (Ok s') →
  ∃ s1, body x s = Some (Ok s1) ∧ for_each l s1 body = Some (Ok s').
Proof.
  cbn [for_each]. destruct (body x s) as [[s1|e]|] eqn:Hbody; [|done..].
  intros Hrest. by exists s1.
Qed.

(** The traversal comes back whenever its depth exceeds the number of
    link ids not visited yet; [visited] only grows; and it raises only if
    get_transaction does on an id of the link table. *)
Lemma traversal_returns_aux (depth : nat) :
  ∀ u st, unvisited (visited st) < depth →
    ∃ r, _get_related_transactions depth db u st = Some r ∧
         (∀ st', r = Ok st' → visited st ⊆ visited st') ∧
         (links_load db → ∃ st', r = Ok st').
Proof.
  induction depth as [|depth IH]; intros u st Hdepth; [lia|].
  rewrite _get_related_transactions_unfold.
  pose proof (λ y, proj1 (elem_of_neighbours db u y)) as HL.
  revert HL. generalize (select_child_ids db u ++ select_parent_ids db u).
  intros L HL. revert st Hdepth.
  induction L as [|y L IHL]; intros st Hdepth; cbn [for_each].
  { exists (Ok st). split_and!; [done|by intros ? [= <-]|by eexists]. }
  assert (∀ st1, visited st ⊆ visited st1 →
            ∃ r, for_each L st1 (visit depth db) = Some r ∧
                 (∀ st', r = Ok st' → visited st ⊆ visited st') ∧
                 (links_load db → ∃ st', r = Ok st')) as Hrest.
  { intros st1 Hsub.
    destruct (IHL (λ y' Hy', HL y' (list_elem_of_further _ _ _ Hy')) st1)
      as (r & Hr & Hmono & Hok).
    { pose proof (unvisited_mono _ _ Hsub). lia. }
    exists r. split_and!; [done| |done].
    intros st' ->. specialize (Hmono st' eq_refl). set_solver. }
  unfold visit at 1.
  destruct (decide (y ∈ visited st)) as [Hvis|Hvis]; [by apply Hrest|].
  assert (y ∈ link_ids db) as Hy by (eapply linked_link_ids, HL; left).
  destruct (get_transaction db y) as [[tx|]|e] eqn:Hget.
  - destruct (IH y (mkTraversal (chain st ++ [tx]) ({[y]} ∪ visited st)))
      as (r & Hr & Hmono & Hok).
    { simpl. pose proof (unvisited_add _ _ Hy Hvis). lia. }
    rewrite Hr. destruct r as [st1|e].
    + apply Hrest. specialize (Hmono st1 eq_refl). simpl in Hmono. set_solver.
    + exists (Raise e). split_and!; [done|done|]. intros Hload.
      by destruct (Hok Hload).
  - apply Hrest. simpl. set_solver.
  - exists (Raise e). split_and!; [done|done|]. intros Hload.
    destruct (Hload y Hy) as [o Ho]. congruence.
Qed.

Variable s : string.
Abbreviation inv := (traversal_invariant db s).

Lemma traversal_invariant_skip (st : traversal) (u y : string) :
  inv st → u ∈ visited st → stored db u → linked db u y →
  get_transaction db y = Ok None →
  inv (mkTraversal (chain st) ({[y]} ∪ visited st)).
Proof.
  intros (Hnd & Hchain & Hrec & Hreach & Hok) Hu Hstored Hlink Hget.
  split_and!; simpl.
  - done.
  - intros tx Htx. destruct (Hchain tx Htx). split; [set_solver|done].
  - intros x tx [->%elem_of_singleton|Hx]%elem_of_union Hx'; [congruence|eauto].
  - intros x [->%elem_of_singleton|Hx]%elem_of_union; [|eauto].
    eapply rtc_r; [by apply Hreach|done].
  - intros x [->%elem_of_singleton|Hx]%elem_of_union; eauto.
Qed.

Lemma traversal_invariant_append (st : traversal) (u y : string) (tx : Transaction) :
  inv st → u ∈ visited st → stored db u → linked db u y → y ∉ visited st →
  get_transaction db y = Ok (Some tx) →
  inv (mkTraversal (chain st ++ [tx]) ({[y]} ∪ visited st)).
Proof.
  intros (Hnd & Hchain & Hrec & Hreach & Hok) Hu Hstored Hlink Hfresh Hget.
  destruct (get_transaction_id _ _ _ Hget) as [Hid _].
  split_and!; simpl.
  - rewrite fmap_app. apply NoDup_app. split_and!; [done| |apply NoDup_singleton].
    intros x (tx' & -> & Htx')%list_elem_of_fmap Hx.
    apply list_elem_of_singleton in Hx.
    destruct (Hchain tx' Htx') as [Hvis _]. congruence.
  - intros tx' [Htx'| ->%list_elem_of_singleton]%elem_of_app.
    + destruct (Hchain tx' Htx'). split; [set_solver|done].
    + rewrite Hid. split; [set_solver|done].
  - intros x tx' [->%elem_of_singleton|Hx]%elem_of_union Hx'.
    + rewrite Hget in Hx'. injection Hx' as <-. set_solver.
    + apply elem_of_app. left. eauto.
  - intros x [->%elem_of_singleton|Hx]%elem_of_union; [|eauto].
    eapply rtc_r; [by apply Hreach|done].
  - intros x [->%elem_of_singleton|Hx]%elem_of_union; eauto.
Qed.

(** A traversal that comes back has kept the invariant, has visited
    every neighbour of the id it was called on, and has closed every id
    it added. *)
Lemma traversal_correct_aux (depth : nat) :
  ∀ u st st',
    _get_related_transactions depth db u st = Some (Ok st') →
    inv st → u ∈ visited st → stored db u →
    inv st' ∧ visited st ⊆ visited st' ∧
    (∀ y, linked db u y → y ∈ visited st') ∧
    closed_since db (visited st) st'.
Proof.
  induction depth as [|depth IH]; intros u st st' Hrun Hinv Hu Hstored; [done|].
  rewrite _get_related_transactions_unfold in Hrun.
  setoid_rewrite <- elem_of_neighbours.
  pose proof (λ y, proj1 (elem_of_neighbours db u y)) as HL.
  revert HL Hrun. generalize (select_child_ids db u ++ select_parent_ids db u).
  intros L. revert st Hinv Hu.
  induction L as [|y L IHL]; intros st Hinv Hu HL Hrun.
  { injection Hrun as <-. split_and!; [done|done|by intros ? ?%elem_of_nil|].
    by intros x tx y ? ?. }
  apply for_each_cons_Ok in Hrun as (st1 & Hvisit & Hrest).
  assert (linked db u y) as Hlink by (apply HL; left).
  pose proof (λ y' Hy', HL y' (list_elem_of_further _ _ _ Hy')) as HL'.
  unfold visit in Hvisit.
  destruct (decide (y ∈ visited st)) as [Hvis|Hfresh].
  { injection Hvisit as <-.
    destruct (IHL st Hinv Hu HL' Hrest) as (Hinv' & Hsub & Hnb & Hclosed).
    split_and!; [done|done| |done].
    intros y' [->|Hy']%elem_of_cons; [set_solver|by apply Hnb]. }
  destruct (get_transaction db y) as [[tx|]|e] eqn:Hget; [| |done].
  - destruct (get_transaction_id _ _ _ Hget) as [_ Hystored].
    destruct (IH y _ st1 Hvisit) as (Hinv1 & Hsub1 & Hnb1 & Hclosed1).
    { by eapply traversal_invariant_append. }
    { simpl. set_solver. }
    { done. }
    simpl in Hsub1, Hclosed1.
    destruct (IHL st1 Hinv1) as (Hinv' & Hsub & Hnb & Hclosed); [set_solver|done|done|].
    split_and!; [done|set_solver| |].
    + intros y' [->|Hy']%elem_of_cons; [set_solver|by apply Hnb].
    + intros x tx' z Hx Hx0 Hgetx Hxz.
      destruct (decide (x ∈ visited st1)) as [Hx1|Hx1]; [|by eapply Hclosed].
      apply Hsub. destruct (decide (x = y)) as [->|Hne]; [by apply Hnb1|].
      eapply Hclosed1; [done|set_solver|done|done].
  - injection Hvisit as <-.
    destruct (IHL (mkTraversal (chain st) ({[y]} ∪ visited st)))
      as (Hinv' & Hsub & Hnb & Hclosed); [|simpl; set_solver|done|done|].
    { by eapply traversal_invariant_skip. }
    simpl in Hsub, Hclosed.
    split_and!; [done|set_solver| |].
    + intros y' [->|Hy']%elem_of_cons; [set_solver|by apply Hnb].
    + intros x tx' z Hx Hx0 Hgetx Hxz.
      destruct (decide (x = y)) as [->|Hne]; [congruence|].
      eapply Hclosed; [done|set_solver|done|done].
Qed.
End traversal.

(** ** Ordering of datetimes *)

Lemma days_before_year_step (y y' : Z) :
  (y < y')%Z →
  (days_before_year y + (if is_leap y then 366 else 365) ≤ days_before_year y')%Z.
Proof.
  intros Hlt. unfold days_before_year, is_leap.
  destruct (y mod 4 =? 0)%Z eqn:H4; destruct (y mod 100 =? 0)%Z eqn:H100;
    destruct (y mod 400 =? 0)%Z eqn:H400; simpl;
    rewrite ?Z.eqb_eq, ?Z.eqb_neq in *;
    Z.div_mod_to_equations; lia.
Qed.

Lemma month_cases (m : Z) :
  (1 ≤ m ≤ 12)%Z →
  m = 1%Z ∨ m = 2%Z ∨ m = 3%Z ∨ m = 4%Z ∨ m = 5%Z ∨ m = 6%Z ∨
  m = 7%Z ∨ m = 8%Z ∨ m = 9%Z ∨ m = 10%Z ∨ m = 11%Z ∨ m = 12%Z.
Proof. lia. Qed.

Lemma day_of_year_bound (y m d : Z) :
  (1 ≤ m ≤ 12)%Z → (1 ≤ d ≤ days_in_month y m)%Z →
  (1 ≤ days_before_month y m + d ≤ (if is_leap y then 366 else 365))%Z.
Proof.
  intros Hm Hd. unfold days_before_month, days_in_month in *.
  destruct (month_cases m Hm) as [->|[->|[->|[->|[->|[->|[->|[->|[->|[->|[->| ->]]]]]]]]]]];
    simpl in *; destruct (is_leap y); simpl in *; lia.
Qed.

Lemma day_of_year_month (y m m' d d' : Z) :
  (1 ≤ m)%Z → (m < m')%Z → (m' ≤ 12)%Z →
  (1 ≤ d ≤ days_in_month y m)%Z → (1 ≤ d')%Z →
  (days_before_month y m + d < days_before_month y m' + d')%Z.
Proof.
  intros Hm Hlt Hm' Hd Hd'. unfold days_before_month, days_in_month in *.
  assert (1 ≤ m ≤ 12)%Z as Hcm by lia. assert (1 ≤ m' ≤ 12)%Z as Hcm' by lia.
  destruct (month_cases m Hcm) as [->|[->|[->|[->|[->|[->|[->|[->|[->|[->|[->| ->]]]]]]]]]]];
    destruct (month_cases m' Hcm') as [->|[->|[->|[->|[->|[->|[->|[->|[->|[->|[->| ->]]]]]]]]]]];
    try lia; simpl in *; destruct (is_leap y); simpl in *; lia.
Qed.

(** On valid datetimes the comparison of the field tuples is the
    comparison of the instants, whatever common offset is applied. *)
Lemma wall_compare_instant (a b : datetime) (off : Z) :
  valid_datetime a = true → valid_datetime b = true →
  wall_compare a b = (instant a off ?= instant b off)%Z.
Proof.
  intros [Ha _]%valid_datetime_bounds [Hb _]%valid_datetime_bounds.
  pose proof (day_of_year_bound (year a) (month a) (day a)) as Hda.
  pose proof (day_of_year_bound (year b) (month b) (day b)) as Hdb.
  unfold wall_compare, instant, toordinal, lex.
  symmetry.
  destruct (Z.compare_spec (year a) (year b)) as [Hy|Hy|Hy].
  - rewrite Hy in *.
    destruct (Z.compare_spec (month a) (month b)) as [Hm|Hm|Hm].
    + rewrite Hm in *.
      destruct (Z.compare_spec (day a) (day b)) as [Hd|Hd|Hd];
        [rewrite Hd| apply Z.compare_lt_iff; lia | apply Z.compare_gt_iff; lia].
      destruct (Z.compare_spec (hour a) (hour b)) as [Hh|Hh|Hh];
        [rewrite Hh| apply Z.compare_lt_iff; lia | apply Z.compare_gt_iff; lia].
      destruct (Z.compare_spec (minute a) (minute b)) as [Hmi|Hmi|Hmi];
        [rewrite Hmi| apply Z.compare_lt_iff; lia | apply Z.compare_gt_iff; lia].
      destruct (Z.compare_spec (second a) (second b)) as [Hs|Hs|Hs];
        [rewrite Hs| apply Z.compare_lt_iff; lia | apply Z.compare_gt_iff; lia].
      destruct (Z.compare_spec (microsecond a) (microsecond b)) as [Hu|Hu|Hu];
        [rewrite Hu; apply Z.compare_refl
        | apply Z.compare_lt_iff; lia | apply Z.compare_gt_iff; lia].
    + pose proof (day_of_year_month (year b) (month a) (month b) (day a) (day b)).
      apply Z.compare_lt_iff; lia.
    + pose proof (day_of_year_month (year b) (month b) (month a) (day b) (day a)).
      apply Z.compare_gt_iff; lia.
  - pose proof (days_before_year_step _ _ Hy). apply Z.compare_lt_iff.
    destruct (is_leap (year a)); lia.
  - pose proof (days_before_year_step _ _ Hy). apply Z.compare_gt_iff.
    destruct (is_leap (year b)); lia.
Qed.

Lemma wall_compare_refl (a : datetime) : wall_compare a a = Eq.
Proof. unfold wall_compare. by rewrite !Z.compare_refl. Qed.

Lemma datetime_cmp_key (a b : datetime) :
  valid_datetime a = true → valid_datetime b = true →
  is_Some (tzinfo a) ↔ is_Some (tzinfo b) →
  datetime_cmp a b = Ok (sort_key a ?= sort_key b)%Z.
Proof.
  intros Ha Hb Haware. unfold datetime_cmp, sort_key.
  destruct (tzinfo a) as [oa|], (tzinfo b) as [ob|]; simpl.
  - destruct (Z.eqb_spec oa ob) as [->|Hne]; [|done].
    by rewrite (wall_compare_instant a b ob).
  - destruct Haware as [Haware _]. by destruct Haware.
  - destruct Haware as [_ Haware]. by destruct Haware.
  - by rewrite (wall_compare_instant a b 0).
Qed.

Lemma aware_is_Some (x y : Transaction) :
  aware x = aware y → is_Some (tzinfo (timestamp x)) ↔ is_Some (tzinfo (timestamp y)).
Proof.
  unfold aware. destruct (tzinfo (timestamp x)), (tzinfo (timestamp y));
    intros; try done; split; intros [? ?]; done.
Qed.

Lemma datetime_lt_key (x y : Transaction) :
  valid_datetime (timestamp x) = true → valid_datetime (timestamp y) = true →
  aware x = aware y →
  datetime_lt (timestamp x) (timestamp y)
  = Ok (bool_decide (sort_key (timestamp x) < sort_key (timestamp y))%Z).
Proof.
  intros Hx Hy Haware%aware_is_Some. unfold datetime_lt.
  rewrite datetime_cmp_key by done. simpl. f_equal.
  destruct (Z.compare_spec (sort_key (timestamp x)) (sort_key (timestamp y)));
    symmetry; [apply bool_decide_eq_false|apply bool_decide_eq_true|apply bool_decide_eq_false]; lia.
Qed.

Lemma timestamp_le_key (x y : Transaction) :
  valid_datetime (timestamp x) = true → valid_datetime (timestamp y) = true →
  aware x = aware y →
  timestamp_le x y ↔ (sort_key (timestamp x) ≤ sort_key (timestamp y))%Z.
Proof.
  intros Hx Hy Haware. unfold timestamp_le.
  rewrite datetime_lt_key by done. split.
  - intros [= Hlt]. apply bool_decide_eq_false in Hlt. lia.
  - intros Hle. f_equal. apply bool_decide_eq_false. lia.
Qed.

(** ** chain.sort *)

Section sorting.
Variable l0 : list Transaction.
Hypothesis Hvalid : ∀ x, x ∈ l0 → valid_datetime (timestamp x) = true.
Hypothesis Huniform : ∀ x y, x ∈ l0 → y ∈ l0 → aware x = aware y.

Abbreviation key_le := (λ a b : Transaction, (sort_key (timestamp a) ≤ sort_key (timestamp b))%Z).

Lemma insert_by_timestamp_sorted (x : Transaction) (l : list Transaction) :
  x ∈ l0 → l ⊆ l0 →
  ∃ l', insert_by_timestamp x l = Ok l' ∧ l' ≡ₚ x :: l ∧
        (StronglySorted key_le l → StronglySorted key_le l').
Proof.
  intros Hx. induction l as [|y l IH]; intros Hl; simpl.
  { exists [x]. split_and!; [done|done|]. intros _. repeat constructor. }
  assert (y ∈ l0) as Hy by (apply Hl; left).
  rewrite datetime_lt_key by auto. simpl.
  case_bool_decide as Hlt.
  - destruct IH as (l' & -> & Hperm & Hsorted); [set_solver|]. simpl.
    exists (y :: l'). split_and!; [done|by rewrite Hperm, Permutation_swap|].
    intros [Hs Hall]%StronglySorted_inv. constructor; [auto|].
    rewrite Hperm. constructor; [lia|done].
  - exists (x :: y :: l). split_and!; [done|done|].
    intros Hs. constructor; [done|].
    pose proof Hs as [_ Hall]%StronglySorted_inv.
    constructor; [lia|]. eapply Forall_impl; [done|]. simpl. intros z ?. lia.
Qed.

Lemma sort_by_timestamp_sorted (l : list Transaction) :
  l ⊆ l0 →
  ∃ l', sort_by_timestamp l = Ok l' ∧ l' ≡ₚ l ∧ StronglySorted key_le l'.
Proof.
  induction l as [|x l IH]; intros Hl; simpl.
  { exists []. split_and!; [done|done|constructor]. }
  destruct IH as (l' & -> & Hperm & Hsorted); [set_solver|]. simpl.
  destruct (insert_by_timestamp_sorted x l') as (l'' & Hins & Hperm' & Hsorted').
  { apply Hl. left. }
  { intros z Hz. apply Hl. right. by rewrite <- Hperm. }
  exists l''. split_and!; [done|by rewrite Hperm', Hperm|auto].
Qed.
End sorting.

Lemma StronglySorted_impl_elem {A : Type} (R R' : relation A) (l : list A) :
  (∀ x y, x ∈ l → y ∈ l → R x y → R' x y) →
  StronglySorted R l → StronglySorted R' l.
Proof.
  induction l as [|x l IH]; intros Himpl Hs; [constructor|].
  apply StronglySorted_inv in Hs as [Hs Hall]. constructor.
  - apply IH; [|done]. intros y z Hy Hz. apply Himpl; by right.
  - rewrite Forall_forall in *. intros y Hy.
    apply Himpl; [left|by right|by apply Hall].
Qed.

(** list.sort on records whose timestamps are valid and all naive or all
    aware: it returns, with a rearrangement of the list in ascending
    order. *)
Lemma sort_by_timestamp_spec (l : list Transaction) :
  (∀ x, x ∈ l → valid_datetime (timestamp x) = true) →
  (∀ x y, x ∈ l → y ∈ l → aware x = aware y) →
  ∃ l', sort_by_timestamp l = Ok l' ∧ l' ≡ₚ l ∧ StronglySorted timestamp_le l'.
Proof.
  intros Hvalid Huniform.
  destruct (sort_by_timestamp_sorted l Hvalid Huniform l) as (l' & Hsort & Hperm & Hsorted);
    [done|].
  exists l'. split_and!; [done|done|].
  eapply StronglySorted_impl_elem; [|done]. simpl.
  intros x y Hx Hy Hle. rewrite Hperm in Hx, Hy.
  apply timestamp_le_key; auto.
Qed.

Lemma insert_by_timestamp_perm (x : Transaction) (l l' : list Transaction) :
  insert_by_timestamp x l = Ok l' → l' ≡ₚ x :: l.
Proof.
  revert l'. induction l as [|y l IH]; intros l'; simpl.
  { by intros [= <-]. }
  destruct (datetime_lt _ _) as [[|]|e]; simpl; [|by intros [= <-]|done].
  destruct (insert_by_timestamp x l) as [l''|e]; simpl; [|done].
  intros [= <-]. by rewrite (IH l''), Permutation_swap.
Qed.

Lemma sort_by_timestamp_perm (l l' : list Transaction) :
  sort_by_timestamp l = Ok l' → l' ≡ₚ l.
Proof.
  revert l'. induction l as [|x l IH]; intros l'; simpl.
  { by intros [= <-]. }
  destruct (sort_by_timestamp l) as [l''|e]; simpl; [|done].
  intros ->%insert_by_timestamp_perm. by rewrite (IH l'').
Qed.

Lemma datetime_lt_aware (x y : Transaction) (b : bool) :
  datetime_lt (timestamp x) (timestamp y) = Ok b → aware x = aware y.
Proof.
  unfold datetime_lt, datetime_cmp, aware.
  by destruct (tzinfo (timestamp x)), (tzinfo (timestamp y)).
Qed.

(** list.sort returns only if the timestamps are all naive or all aware. *)
Lemma sort_by_timestamp_uniform (l l' : list Transaction) :
  sort_by_timestamp l = Ok l' → ∀ x y, x ∈ l → y ∈ l → aware x = aware y.
Proof.
  revert l'. induction l as [|z l IH]; intros l' Hsort; [by intros ? ? ?%elem_of_nil|].
  simpl in Hsort. destruct (sort_by_timestamp l) as [l1|e] eqn:Hl; simpl in Hsort; [|done].
  assert (∀ x, x ∈ l → aware x = aware z) as Hz.
  { intros x Hx. destruct l1 as [|y l1].
    - apply sort_by_timestamp_perm, Permutation_nil_l in Hl. subst. by apply elem_of_nil in Hx.
    - simpl in Hsort. destruct (datetime_lt _ _) as [b|e] eqn:Hlt; simpl in Hsort; [|done].
      apply datetime_lt_aware in Hlt. rewrite <- Hlt.
      apply (IH _ eq_refl); [done|].
      rewrite <- (sort_by_timestamp_perm _ _ Hl). left. }
  intros x y [->|Hx]%elem_of_cons [->|Hy]%elem_of_cons; [done| | |].
  - symmetry. by apply Hz.
  - by apply Hz.
  - by apply (IH _ eq_refl).
Qed.

(** ** get_transaction_chain *)

Lemma load_row_valid (r : row) (tx : Transaction) :
  load_row r = Ok tx → valid_datetime (timestamp tx) = true.
Proof.
  unfold load_row, from_dict.
  destruct (r_raw_data r), (r_related_transactions r); simpl; try done.
  destruct (fromisoformat _) eqn:Hts; simpl; [|done].
  destruct (TransactionType_of_value _); simpl; [|done].
  destruct (TransactionSource_of_value _); simpl; [|done].
  intros [= <-]. simpl. by eapply fromisoformat_valid.
Qed.

Lemma get_transaction_valid (db : Database) (i : string) (tx : Transaction) :
  get_transaction db i = Ok (Some tx) → valid_datetime (timestamp tx) = true.
Proof. intros (r & _ & Hload)%get_transaction_Some. by eapply load_row_valid. Qed.

Lemma get_transaction_stored (db : Database) (i : string) :
  stored db i → get_transaction db i ≠ Ok None.
Proof.
  intros [r Hsel]%stored_select. unfold get_transaction. rewrite Hsel.
  by destruct (load_row r).
Qed.

Lemma get_transaction_None (db : Database) (i : string) :
  get_transaction db i = Ok None → ¬ stored db i.
Proof. intros Hget Hstored. by apply (get_transaction_stored db i). Qed.

Lemma traversal_start_invariant (db : Database) (s : string) (tx0 : Transaction) :
  get_transaction db s = Ok (Some tx0) →
  traversal_invariant db s (mkTraversal [tx0] {[s]}).
Proof.
  intros Hget. destruct (get_transaction_id _ _ _ Hget) as [Hid _].
  split_and!; simpl.
  - apply NoDup_singleton.
  - intros tx ->%list_elem_of_singleton. rewrite Hid. split; [set_solver|done].
  - intros x tx ->%elem_of_singleton Hx. rewrite Hget in Hx. injection Hx as <-. set_solver.
  - intros x ->%elem_of_singleton. apply rtc_refl.
  - intros x ->%elem_of_singleton. eauto.
Qed.

(** What the traversal has collected when it comes back to
    get_transaction_chain: each record of the component of [s], once. *)
Lemma traversal_collects (db : Database) (s : string) (tx0 : Transaction) (st' : traversal) :
  get_transaction db s = Ok (Some tx0) →
  _get_related_transactions (recursion_bound db) db s (mkTraversal [tx0] {[s]}) = Some (Ok st') →
  NoDup (id <$> chain st') ∧ ∀ tx, tx ∈ chain st' ↔ in_component db s tx.
Proof.
  intros Hget Hrun.
  destruct (get_transaction_id _ _ _ Hget) as [_ Hstored].
  destruct (traversal_correct_aux db s _ _ _ _ Hrun)
    as ((Hnd & Hchain & Hrec & Hreach & Hok) & Hsub & Hnb & Hclosed);
    [by apply traversal_start_invariant|set_solver|done|].
  simpl in Hsub, Hclosed.
  assert (∀ x, chain_reachable db s x → x ∈ visited st') as Hcomplete.
  { intros x Hx. revert x Hx.
    apply (rtc_ind_r (λ x, x ∈ visited st') s); [set_solver|].
    intros y z Hsy [Hy Hyz] IH.
    destruct (decide (y = s)) as [->|Hne]; [by apply Hnb|].
    destruct (Hok y IH) as [[ty|] Hgety]; [|by apply get_transaction_stored in Hgety].
    eapply Hclosed; [done|set_solver|done|done]. }
  split; [done|]. intros tx. unfold in_component. split.
  - intros Htx. destruct (Hchain tx Htx). split; [by apply Hreach|done].
  - intros [Hr Hg]. eapply Hrec; [by apply Hcomplete|done].
Qed.

Lemma get_transaction_chain_Ok (db : Database) (s : string) (l : list Transaction) :
  get_transaction_chain db s = Ok l →
  (get_transaction db s = Ok None ∧ l = []) ∨
  ∃ tx0 st', get_transaction db s = Ok (Some tx0) ∧
    _get_related_transactions (recursion_bound db) db s (mkTraversal [tx0] {[s]}) = Some (Ok st') ∧
    sort_by_timestamp (chain st') = Ok l.
Proof.
  unfold get_transaction_chain.
  destruct (get_transaction db s) as [[tx0|]|e] eqn:Hget;
    cbn [mbind result_bind rbind]; [| |done].
  - destruct (_get_related_transactions (recursion_bound db) db s _) as [[st'|e]|] eqn:Hrun;
      cbn [mbind result_bind rbind]; [|done..].
    intros Hsort. right. by exists tx0, st'.
  - intros [= <-]. by left.
Qed.

(** Whenever get_transaction_chain returns a list, the list holds the
    records of the component of the start id, each once, in ascending order
    of timestamp. *)
Lemma get_transaction_chain_sound (db : Database) (s : string) (l : list Transaction) :
  get_transaction_chain db s = Ok l →
  NoDup (id <$> l) ∧ (∀ tx, tx ∈ l ↔ in_component db s tx) ∧
  StronglySorted timestamp_le l.
Proof.
  intros [[Hget ->]|(tx0 & st' & Hget & Hrun & Hsort)]%get_transaction_chain_Ok.
  - split_and!; [constructor| |constructor].
    intros tx. split; [by intros ?%elem_of_nil|]. intros [Hreach Hgettx].
    apply get_transaction_None in Hget.
    apply rtc_inv in Hreach as [Heq|(y & [Hstored _] & _)]; [|done].
    rewrite <- Heq in Hgettx. by apply get_transaction_id in Hgettx as [_ ?].
  - destruct (traversal_collects _ _ _ _ Hget Hrun) as [Hnd Hmem].
    pose proof (sort_by_timestamp_perm _ _ Hsort) as Hperm.
    destruct (sort_by_timestamp_spec (chain st')) as (l' & Hsort' & _ & Hsorted).
    { intros x [_ Hx]%Hmem. by eapply get_transaction_valid. }
    { by eapply sort_by_timestamp_uniform. }
    rewrite Hsort in Hsort'. injection Hsort' as <-.
    split_and!; [by rewrite Hperm| |done].
    intros tx. by rewrite Hperm.
Qed.

(** get_transaction_chain returns a list whenever get_transaction raises
    neither on the start id nor on an id of the link table and the records
    of the component are all naive or all aware. *)
Lemma get_transaction_chain_returns (db : Database) (s : string) :
  (∃ o, get_transaction db s = Ok o) → links_load db →
  (∀ t1 t2, in_component db s t1 → in_component db s t2 → aware t1 = aware t2) →
  ∃ l, get_transaction_chain db s = Ok l.
Proof.
  intros [o Hget] Hlinks Huniform. unfold get_transaction_chain. rewrite Hget.
  cbn [mbind result_bind rbind].
  destruct o as [tx0|]; [|by eexists].
  destruct (traversal_returns_aux db (recursion_bound db) s (mkTraversal [tx0] {[s]}))
    as (r & Hrun & _ & Hok); [apply unvisited_bound|].
  destruct (Hok Hlinks) as [st' ->]. rewrite Hrun. cbn [mbind result_bind rbind].
  destruct (traversal_collects _ _ _ _ Hget Hrun) as [_ Hmem].
  destruct (sort_by_timestamp_spec (chain st')) as (l & Hsort & _).
  - intros x [_ Hx]%Hmem. by eapply get_transaction_valid.
  - intros x y Hx%Hmem Hy%Hmem. by apply Huniform.
  - by exists l.
Qed.

Lemma rows_load_get_links (db : Database) : rows_load db → links_load db.
Proof. intros Hload y _. by apply rows_load_get. Qed.

Lemma rows_load_naive_spec (db : Database) :
  rows_load_naive db = true →
  rows_load db ∧
  ∀ s t1 t2, in_component db s t1 → in_component db s t2 → aware t1 = aware t2.
Proof.
  unfold rows_load_naive. rewrite forallb_forall. intros Hall.
  assert (∀ i tx, get_transaction db i = Ok (Some tx) → aware tx = false) as Hnaive.
  { intros i tx (r & [Hr _]%select_transaction_Some & Hload)%get_transaction_Some.
    apply list_elem_of_In, Hall in Hr. rewrite Hload in Hr. by apply negb_true_iff. }
  split.
  - intros r Hr%list_elem_of_In%Hall. destruct (load_row r); [by eexists|done].
  - intros s t1 t2 [_ H1] [_ H2]. by rewrite (Hnaive _ _ H1), (Hnaive _ _ H2).
Qed.





(** The example of the specification: the chain of A is [A; C; B]. *)
Lemma chain_example_abc :
  get_transaction_chain db_abc "A"
  = Ok [plain_tx "A" (at_second 1); plain_tx "C" (at_second 2); plain_tx "B" (at_second 3)].
Proof. reflexivity. Qed.

(** Links A→B and B→C: the chain is the same from each of the three ids. *)
Lemma chain_example_any_start :
  let abc := Ok [plain_tx "A" (at_second 1); plain_tx "B" (at_second 2);
                 plain_tx "C" (at_second 3)] in
  get_transaction_chain db_path "A" = abc ∧
  get_transaction_chain db_path "B" = abc ∧
  get_transaction_chain db_path "C" = abc.
Proof. split_and!; reflexivity. Qed.

(** ** Cycles *)

(** The traversal always comes back within the depth that
    get_transaction_chain gives it. *)
Lemma traversal_returns (db : Database) (u : string) (st : traversal) :
  ∃ r, _get_related_transactions (recursion_bound db) db u st = Some r.
Proof.
  destruct (traversal_returns_aux db (recursion_bound db) u st) as (r & Hr & _);
    [apply unvisited_bound|by exists r].
Qed.




Lemma sort_by_timestamp_exn (l : list Transaction) (e : exn) :
  sort_by_timestamp l = Raise e → e = TypeError.
Proof.
  assert (∀ x l, insert_by_timestamp x l = Raise e → e = TypeError) as Hins.
  { intros x l'. induction l' as [|y l' IH]; simpl; [done|].
    destruct (datetime_lt (timestamp y) (timestamp x)) as [[|]|e'] eqn:Hlt; simpl; [|done|].
    - destruct (insert_by_timestamp x l'); [done|]. simpl. intros [= <-]. by apply IH.
    - intros [= <-]. unfold datetime_lt, datetime_cmp in Hlt.
      destruct (tzinfo (timestamp y)), (tzinfo (timestamp x)); simpl in Hlt;
        try case_match; simplify_eq; done. }
  induction l as [|x l IH]; simpl; [done|].
  destruct (sort_by_timestamp l) as [l'|e']; simpl; [by apply Hins|].
  intros [= <-]. by apply IH.
Qed.



(** The defect of the final sort, in general: when every row decodes and
    the component of the start id holds a naive and an aware record,
    get_transaction_chain raises TypeError. *)
Lemma chain_raises_on_mixed_component (db : Database) (s : string) (t1 t2 : Transaction) :
  rows_load db → in_component db s t1 → in_component db s t2 → aware t1 ≠ aware t2 →
  get_transaction_chain db s = Raise TypeError.
Proof.
  intros Hload H1 H2 Hmixed.
  destruct (get_transaction_chain db s) as [l|e] eqn:Hchain.
  - destruct (get_transaction_chain_sound db s l Hchain) as (_ & Hmem & _).
    apply get_transaction_chain_Ok in Hchain as [[_ ->]|(tx0 & st' & _ & _ & Hsort)].
    + apply Hmem in H1. by apply elem_of_nil in H1.
    + destruct Hmixed. eapply sort_by_timestamp_uniform; [done|..];
        rewrite <- (sort_by_timestamp_perm _ _ Hsort); by apply Hmem.
  - f_equal. revert Hchain. unfold get_transaction_chain.
    destruct (rows_load_get db s Hload) as [o ->]. cbn [mbind result_bind rbind].
    destruct o as [tx0|]; [|done].
    destruct (traversal_returns_aux db (recursion_bound db) s (mkTraversal [tx0] {[s]}))
      as (r & -> & _ & Hok); [apply unvisited_bound|].
    destruct (Hok (rows_load_get_links db Hload)) as [st' ->]. cbn [mbind result_bind rbind].
    apply sort_by_timestamp_exn.
Qed.




(** ** Dangling links *)

Lemma without_links_at_child_ids (x u : string) (db : Database) :
  u ≠ x →
  select_child_ids (without_links_at x db) u = filter (λ y, y ≠ x) (select_child_ids db u).
Proof.
  intros Hne. unfold select_child_ids, without_links_at. simpl.
  induction (transaction_links db) as [|l links IH]; [done|].
  rewrite !filter_cons. destruct (decide (parent_id l = u)) as [Hp|Hp].
  - rewrite fmap_cons, filter_cons.
    destruct (decide (child_id l ≠ x)) as [Hc|Hc].
    + rewrite decide_True by (split; congruence).
      rewrite filter_cons, decide_True by done. rewrite fmap_cons. by rewrite IH.
    + rewrite decide_False by naive_solver. done.
  - destruct (decide (parent_id l ≠ x ∧ child_id l ≠ x)); [|done].
    rewrite filter_cons, decide_False by done. done.
Qed.

Lemma without_links_at_parent_ids (x u : string) (db : Database) :
  u ≠ x →
  select_parent_ids (without_links_at x db) u = filter (λ y, y ≠ x) (select_parent_ids db u).
Proof.
  intros Hne. unfold select_parent_ids, without_links_at. simpl.
  induction (transaction_links db) as [|l links IH]; [done|].
  rewrite !filter_cons. destruct (decide (child_id l = u)) as [Hp|Hp].
  - rewrite fmap_cons, filter_cons.
    destruct (decide (parent_id l ≠ x)) as [Hc|Hc].
    + rewrite decide_True by (split; congruence).
      rewrite filter_cons, decide_True by done. rewrite fmap_cons. by rewrite IH.
    + rewrite decide_False by naive_solver. done.
  - destruct (decide (parent_id l ≠ x ∧ child_id l ≠ x)); [|done].
    rewrite filter_cons, decide_False by done. done.
Qed.

Lemma for_each_cons_Some {A S : Type} (x : A) (l : list A) (s : S) (r : result S)
    (body : A → S → option (result S)) :
  for_each (x :: l) s body = Some r →
  (∃ s1, body x s = Some (Ok s1) ∧ for_each l s1 body = Some r) ∨
  (∃ e, body x s = Some (Raise e) ∧ r = Raise e).
Proof.
  cbn [for_each]. destruct (body x s) as [[s1|e]|] eqn:Hbody; [| |done].
  - intros Hrest. left. by exists s1.
  - intros [= <-]. right. by exists e.
Qed.

Section dangling.
Variable db : Database.
Variable x : string.
Hypothesis Hmissing : get_transaction db x = Ok None.

Abbreviation db' := (without_links_at x db).

(** The traversal of the store and the traversal of the store without
    the links at [x] go the same way, the visit of [x] apart. *)
Lemma traversal_skips_dangling (d1 : nat) :
  ∀ d2 u st1 st2 r1 r2,
    u ≠ x → same_up_to_visit x st1 st2 →
    _get_related_transactions d1 db u st1 = Some r1 →
    _get_related_transactions d2 db' u st2 = Some r2 →
    same_outcome (same_up_to_visit x) r1 r2.
Proof.
  induction d1 as [|d1 IH]; intros d2 u st1 st2 r1 r2 Hu Hsim Hrun1 Hrun2; [done|].
  destruct d2 as [|d2]; [done|].
  assert (∀ y st1 st2 o1 o2,
            y ≠ x → same_up_to_visit x st1 st2 →
            visit d1 db y st1 = Some o1 → visit d2 db' y st2 = Some o2 →
            same_outcome (same_up_to_visit x) o1 o2) as Hstep.
  { intros y s1 s2 o1 o2 Hy [Hchain Hvis]. unfold visit.
    rewrite (get_transaction_rows db db' y) by done.
    destruct (decide (y ∈ visited s1)) as [Hin|Hin].
    - rewrite decide_True by set_solver. intros [= <-] [= <-]. by split.
    - rewrite decide_False by set_solver.
      destruct (get_transaction db y) as [[tx|]|e].
      + apply IH; [done|]. split; simpl; [congruence|set_solver].
      + intros [= <-] [= <-]. split; simpl; [done|set_solver].
      + by intros [= <-] [= <-]. }
  rewrite _get_related_transactions_unfold in Hrun1, Hrun2.
  rewrite without_links_at_child_ids, without_links_at_parent_ids, <- filter_app in Hrun2 by done.
  revert Hrun1 Hrun2. generalize (select_child_ids db u ++ select_parent_ids db u).
  intros L. revert st1 st2 Hsim.
  induction L as [|y L IHL]; intros st1 st2 Hsim Hrun1 Hrun2.
  { simpl in Hrun1, Hrun2. by simplify_eq. }
  rewrite filter_cons in Hrun2. destruct (decide (y ≠ x)) as [Hy|Hy].
  - apply for_each_cons_Some in Hrun1 as [(s1 & Hv1 & Hrest1)|(e1 & Hv1 & ->)];
      apply for_each_cons_Some in Hrun2 as [(s2 & Hv2 & Hrest2)|(e2 & Hv2 & ->)];
      pose proof (Hstep _ _ _ _ _ Hy Hsim Hv1 Hv2) as Hout; simpl in Hout;
      [by eapply IHL|done..].
  - apply dec_stable in Hy as ->. destruct Hsim as [Hchain Hvis].
    apply for_each_cons_Some in Hrun1 as [(s1 & Hv1 & Hrest1)|(e1 & Hv1 & ->)];
      unfold visit in Hv1; rewrite Hmissing in Hv1; case_decide; simplify_eq.
    + eapply IHL; [|done..]. by split.
    + eapply IHL; [|done..]. split; simpl; [done|set_solver].
Qed.

Lemma get_transaction_chain_without_links_at (s : string) :
  get_transaction_chain db s = get_transaction_chain db' s.
Proof.
  unfold get_transaction_chain. rewrite (get_transaction_rows db db' s) by done.
  destruct (get_transaction db s) as [[tx0|]|e] eqn:Hget; [|done..].
  cbn [mbind result_bind rbind].
  assert (s ≠ x) as Hs by congruence.
  destruct (traversal_returns db s (mkTraversal [tx0] {[s]})) as [r1 Hr1].
  destruct (traversal_returns db' s (mkTraversal [tx0] {[s]})) as [r2 Hr2].
  rewrite Hr1, Hr2.
  assert (same_up_to_visit x (mkTraversal [tx0] {[s]}) (mkTraversal [tx0] {[s]})) as Hstart
    by (split; simpl; [done|set_solver]).
  pose proof (traversal_skips_dangling _ _ s _ _ r1 r2 Hs Hstart Hr1 Hr2) as Hsim.
  destruct r1 as [st1|e1], r2 as [st2|e2]; simpl in Hsim; try done.
  - destruct Hsim as [Hchain _]. cbn [mbind result_bind rbind]. by rewrite Hchain.
  - by subst.
Qed.
End dangling.

(** C6. An id without a record that occurs in a link row is skipped by
    get_transaction_chain: the lookup of the id is a plain [None]; the
    outcome of the call is the outcome on the store without the link rows at
    that id, so no error comes from them; no record of a returned chain
    carries the id; and the call returns a list whenever the rows of the
    store decode and the records of the chain are all naive or all aware,
    dangling links or not. *)
Theorem dangling_links_are_skipped (db : Database) (s x : string) :
  (∀ r, r ∈ transactions db → r_id r ≠ x) →
  get_transaction db x = Ok None ∧
  get_transaction_chain db s = get_transaction_chain (without_links_at x db) s ∧
  (∀ l, get_transaction_chain db s = Ok l → x ∉ id <$> l) ∧
  (rows_load db →
   (∀ t1 t2, in_component db s t1 → in_component db s t2 → aware t1 = aware t2) →
   ∃ l, get_transaction_chain db s = Ok l).
Proof.
  intros Habs. pose proof (get_transaction_absent db x Habs) as Hget.
  split_and!; [done|by apply get_transaction_chain_without_links_at| |].
  - intros l (_ & Hmem & _)%get_transaction_chain_sound (tx & -> & Htx)%list_elem_of_fmap.
    apply Hmem in Htx as [_ Hgettx]. congruence.
  - intros Hload Huniform. apply get_transaction_chain_returns;
      [by apply rows_load_get|by apply rows_load_get_links|done].
Qed.

Lemma dangling_links_are_skipped_witness :
  get_transaction db_dangling "X" = Ok None ∧
  get_transaction_chain db_dangling "A"
    = get_transaction_chain (without_links_at "X" db_dangling) "A" ∧
  (∀ l, get_transaction_chain db_dangling "A" = Ok l → "X" ∉ id <$> l) ∧
  ∃ l, get_transaction_chain db_dangling "A" = Ok l.
Proof.
  assert (rows_load_naive db_dangling = true) as [Hload Huniform]%rows_load_naive_spec
    by reflexivity.
  destruct (dangling_links_are_skipped db_dangling "A" "X")
    as (Hget & Hsame & Hnot & Hreturns).
  { intros r Hr. each_row Hr; done. }
  split_and!; [exact Hget|exact Hsame|exact Hnot|].
  apply (Hreturns Hload), Huniform.
Defined.

(** ** The cached view and the traversal *)

Lemma load_row_blank_related (r1 r2 : row) (l1 l2 : list string) :
  blank_related r1 = blank_related r2 →
  r_related_transactions r1 = CellJson l1 →
  r_related_transactions r2 = CellJson l2 →
  same_outcome (λ t1 t2, without_related t1 = without_related t2) (load_row r1) (load_row r2).
Proof.
  intros Hblank Hrel1 Hrel2. unfold blank_related in Hblank.
  injection Hblank as Hid Hts Hty Hsrc Hamount Hcur Hfee Hfc Hstatus Hnotes Hraw.
  unfold load_row. rewrite Hrel1, Hrel2, Hraw. simpl.
  destruct (loads_cell json_loads (r_raw_data r2)) as [raw|e]; simpl; [|done].
  unfold from_dict. simpl. rewrite Hts, Hty, Hsrc.
  destruct (fromisoformat (r_timestamp r2)); simpl; [|done].
  destruct (TransactionType_of_value (r_transaction_type r2)); simpl; [|done].
  destruct (TransactionSource_of_value (r_source r2)); simpl; [|done].
  unfold without_related. simpl. congruence.
Qed.

Section cached_view.
Variables db1 db2 : Database.
Hypothesis Hsame : same_but_related db1 db2.
Hypothesis Hjson1 : related_is_json db1.
Hypothesis Hjson2 : related_is_json db2.

Abbreviation same_record := (λ t1 t2 : Transaction, without_related t1 = without_related t2).

Lemma get_transaction_same_view (i : string) :
  same_outcome (option_Forall2 same_record) (get_transaction db1 i) (get_transaction db2 i).
Proof.
  destruct Hsame as [_ Hrows]. unfold get_transaction, select_transaction.
  unfold related_is_json in Hjson1, Hjson2. revert Hrows Hjson1 Hjson2.
  generalize (transactions db2). induction (transactions db1) as [|r1 l1 IH];
    intros [|r2 l2] Hrows H1 H2; try discriminate Hrows; simpl; [constructor|].
  rewrite !fmap_cons in Hrows.
  assert (blank_related r1 = blank_related r2 ∧
          blank_related <$> l1 = blank_related <$> l2) as [Hr Hl] by (split; congruence).
  clear Hrows.
  assert (r_id r1 = r_id r2) as Hid by (by apply (f_equal r_id) in Hr).
  rewrite Hid. case_bool_decide.
  - destruct (H1 r1) as [k1 Hk1]; [left|]. destruct (H2 r2) as [k2 Hk2]; [left|].
    pose proof (load_row_blank_related r1 r2 k1 k2 Hr Hk1 Hk2) as Hload.
    destruct (load_row r1), (load_row r2); simpl in *; try done. by constructor.
  - apply IH; [done|..]; intros r Hin; [apply H1|apply H2]; by right.
Qed.

Lemma links_same_view (u : string) :
  select_child_ids db1 u ++ select_parent_ids db1 u
  = select_child_ids db2 u ++ select_parent_ids db2 u.
Proof.
  destruct Hsame as [Hlinks _]. unfold select_child_ids, select_parent_ids.
  by rewrite Hlinks.
Qed.

(** The two traversals go the same way. *)
Lemma traversal_same_view (depth : nat) :
  ∀ u st1 st2, same_but_cached_view st1 st2 →
    option_Forall2 (same_outcome same_but_cached_view)
      (_get_related_transactions depth db1 u st1)
      (_get_related_transactions depth db2 u st2).
Proof.
  induction depth as [|depth IH]; intros u st1 st2 Hst; [constructor|].
  rewrite !_get_related_transactions_unfold, links_same_view.
  generalize (select_child_ids db2 u ++ select_parent_ids db2 u). intros L.
  revert st1 st2 Hst. induction L as [|y L IHL]; intros st1 st2 Hst.
  { by constructor. }
  cbn [for_each].
  assert (option_Forall2 (same_outcome same_but_cached_view)
            (visit depth db1 y st1) (visit depth db2 y st2)) as Hstep.
  { destruct Hst as [Hchain Hvis]. unfold visit. rewrite Hvis.
    case_decide; [by constructor|].
    pose proof (get_transaction_same_view y) as Hget.
    destruct (get_transaction db1 y) as [o1|e1], (get_transaction db2 y) as [o2|e2];
      simpl in Hget; try done; [|by constructor].
    destruct Hget as [t1 t2 Ht| ].
    - apply IH. split; simpl; [|done]. rewrite !fmap_app, Hchain. simpl. by rewrite Ht.
    - by constructor. }
  destruct Hstep as [o1 o2 Hout| ]; [|constructor].
  destruct o1 as [s1|e1], o2 as [s2|e2]; simpl in Hout; try done.
  - by apply IHL.
  - by constructor.
Qed.

Lemma insert_by_timestamp_same_view (x1 x2 : Transaction) (l1 l2 : list Transaction) :
  same_record x1 x2 →
  without_related <$> l1 = without_related <$> l2 →
  same_outcome (λ a b, without_related <$> a = without_related <$> b)
    (insert_by_timestamp x1 l1) (insert_by_timestamp x2 l2).
Proof.
  intros Hx. revert l2. induction l1 as [|y1 l1 IH]; intros [|y2 l2] Hl;
    try discriminate Hl; simpl.
  { by rewrite Hx. }
  rewrite !fmap_cons in Hl.
  assert (without_related y1 = without_related y2 ∧
          without_related <$> l1 = without_related <$> l2) as [Hy Hl'] by (split; congruence).
  clear Hl. rename Hl' into Hl.
  assert (timestamp x1 = timestamp x2) as -> by (by apply (f_equal timestamp) in Hx).
  assert (timestamp y1 = timestamp y2) as -> by (by apply (f_equal timestamp) in Hy).
  destruct (datetime_lt (timestamp y2) (timestamp x2)) as [[|]|e]; simpl; [| |done].
  - specialize (IH l2 Hl).
    destruct (insert_by_timestamp x1 l1), (insert_by_timestamp x2 l2); simpl in *; try done.
    f_equal; [exact Hy|exact IH].
  - cbn. f_equal; [exact Hx|]. f_equal; [exact Hy|exact Hl].
Qed.

Lemma sort_by_timestamp_same_view (l1 l2 : list Transaction) :
  without_related <$> l1 = without_related <$> l2 →
  same_outcome (λ a b, without_related <$> a = without_related <$> b)
    (sort_by_timestamp l1) (sort_by_timestamp l2).
Proof.
  revert l2. induction l1 as [|x1 l1 IH]; intros [|x2 l2] Hl;
    try discriminate Hl; simpl; [done|].
  rewrite !fmap_cons in Hl.
  assert (without_related x1 = without_related x2 ∧
          without_related <$> l1 = without_related <$> l2) as [Hx Hl'] by (split; congruence).
  specialize (IH l2 Hl').
  destruct (sort_by_timestamp l1), (sort_by_timestamp l2); simpl in *; try done.
  by apply insert_by_timestamp_same_view.
Qed.

Lemma get_transaction_chain_same_view (s : string) :
  same_outcome (λ a b, without_related <$> a = without_related <$> b)
    (get_transaction_chain db1 s) (get_transaction_chain db2 s).
Proof.
  unfold get_transaction_chain.
  assert (recursion_bound db1 = recursion_bound db2) as ->.
  { destruct Hsame as [Hlinks _]. unfold recursion_bound, link_ids. by rewrite Hlinks. }
  pose proof (get_transaction_same_view s) as Hget.
  destruct (get_transaction db1 s) as [o1|e1], (get_transaction db2 s) as [o2|e2];
    simpl in Hget; try done; cbn [mbind result_bind rbind].
  destruct Hget as [t1 t2 Ht| ]; [|done].
  assert (same_but_cached_view (mkTraversal [t1] {[s]}) (mkTraversal [t2] {[s]})) as Hst
    by (split; simpl; [by rewrite Ht|done]).
  pose proof (traversal_same_view (recursion_bound db2) s _ _ Hst) as Hrun.
  destruct Hrun as [r1 r2 Hout| ]; [|done].
  destruct r1 as [s1|e1], r2 as [s2|e2]; simpl in Hout; try done;
    cbn [mbind result_bind rbind].
  apply sort_by_timestamp_same_view. by destruct Hout.
Qed.
End cached_view.

Lemma same_outcome_rmap {A B C : Type} (f : A → C) (g : B → C) (r1 : result A) (r2 : result B) :
  same_outcome (λ a b, f a = g b) r1 r2 → rmap f r1 = rmap g r2.
Proof. destruct r1, r2; simpl; intros H; by rewrite ?H. Qed.

(** C10, as amended.  Two stores with the same link table and the same
    rows, column [related_transactions] apart, that column holding a
    serialized list in every row of both: for every start id the two calls
    of get_transaction_chain end the same way, and the lists they return
    are equal once the [related_transactions] fields are blanked. *)
Theorem chain_ignores_cached_view (db1 db2 : Database) (s : string) :
  same_but_related db1 db2 →
  related_is_json db1 → related_is_json db2 →
  rmap (fmap without_related) (get_transaction_chain db1 s)
  = rmap (fmap without_related) (get_transaction_chain db2 s).
Proof.
  intros Hsame H1 H2. apply same_outcome_rmap.
  by apply get_transaction_chain_same_view.
Qed.

Lemma chain_ignores_cached_view_witness :
  rmap (fmap without_related) (get_transaction_chain db_view_empty "A")
  = rmap (fmap without_related) (get_transaction_chain db_view_filled "A").
Proof.
  apply (chain_ignores_cached_view db_view_empty db_view_filled "A").
  - split; reflexivity.
  - intros r Hr. each_row Hr; by eexists.
  - intros r Hr. each_row Hr; by eexists.
Defined.

(** C10 fails as stated: the two stores differ in the
    [related_transactions] cell of A alone, and get_transaction_chain
    returns the record on one and raises on the other, whose cell does not
    hold JSON. *)
Lemma chain_outcome_depends_on_cached_view :
  same_but_related db_view_ok db_view_garbled ∧
  get_transaction_chain db_view_ok "A" = Ok [plain_tx "A" noon] ∧
  get_transaction_chain db_view_garbled "A" = Raise JSONDecodeError.
Proof. split_and!; [split|..]; reflexivity. Qed.

(** ** ORDER BY on the timestamp text *)

Lemma string_compare_refl (s : string) : String.compare s s = Eq.
Proof.
  induction s as [|c s IH]; [done|]. simpl.
  unfold Ascii.compare. by rewrite N.compare_refl.
Qed.

Lemma string_compare_app (a b x y : string) :
  String.length a = String.length b →
  String.compare (a ++ x) (b ++ y) = lex (String.compare a b) (String.compare x y).
Proof.
  revert b. induction a as [|c a IH]; intros [|c' b] Hlen; try done.
  rewrite !string_app_cons. simpl.
  destruct (Ascii.compare c c'); [|done..]. apply IH. by injection Hlen.
Qed.

Lemma string_compare_cons (c : ascii) (x y : string) :
  String.compare (String c x) (String c y) = String.compare x y.
Proof. simpl. unfold Ascii.compare. by rewrite N.compare_refl. Qed.

Lemma pad_length (k : nat) (n : Z) : String.length (pad k n) = k.
Proof.
  revert n. induction k as [|k IH]; intros n; [done|]. cbn [pad].
  assert (∀ s t, String.length (s ++ t) = (String.length s + String.length t)%nat) as Happ.
  { intros s t. induction s as [|c s IHs]; [done|]. rewrite string_app_cons. simpl. by rewrite IHs. }
  rewrite Happ, IH. simpl. lia.
Qed.

Lemma digit_char_compare (n m : Z) :
  Ascii.compare (digit_char n) (digit_char m) = (n mod 10 ?= m mod 10)%Z.
Proof.
  unfold Ascii.compare, digit_char.
  assert (0 ≤ n mod 10 < 10)%Z by (apply Z.mod_pos_bound; lia).
  assert (0 ≤ m mod 10 < 10)%Z by (apply Z.mod_pos_bound; lia).
  rewrite !N_ascii_embedding by lia.
  destruct (Z.compare_spec (n mod 10) (m mod 10));
    [apply N.compare_eq_iff|apply N.compare_lt_iff|apply N.compare_gt_iff]; lia.
Qed.

Lemma pad_compare (k : nat) (n m : Z) :
  (0 ≤ n < 10 ^ Z.of_nat k)%Z → (0 ≤ m < 10 ^ Z.of_nat k)%Z →
  String.compare (pad k n) (pad k m) = (n ?= m)%Z.
Proof.
  revert n m. induction k as [|k IH]; intros n m Hn Hm.
  { simpl in *. assert (n = 0 ∧ m = 0)%Z as [-> ->] by lia. done. }
  cbn [pad]. rewrite string_compare_app by (by rewrite !pad_length).
  rewrite Nat2Z.inj_succ, Z.pow_succ_r in Hn, Hm by lia.
  rewrite IH by (split; [apply Z.div_pos|apply Z.div_lt_upper_bound]; lia).
  simpl. rewrite digit_char_compare.
  pose proof (Z.div_mod n 10) as Hdn. pose proof (Z.div_mod m 10) as Hdm.
  pose proof (Z.mod_pos_bound n 10). pose proof (Z.mod_pos_bound m 10).
  unfold lex.
  destruct (Z.compare_spec (n / 10) (m / 10)) as [Hq|Hq|Hq].
  - destruct (Z.compare_spec (n mod 10) (m mod 10)); symmetry;
      [apply Z.compare_eq_iff|apply Z.compare_lt_iff|apply Z.compare_gt_iff]; lia.
  - symmetry. apply Z.compare_lt_iff. lia.
  - symmetry. apply Z.compare_gt_iff. lia.
Qed.

Lemma lex_Eq_r (c : comparison) : lex c Eq = c.
Proof. by destruct c. Qed.

Lemma fraction_compare (us1 us2 : Z) (tz : option Z) :
  (0 ≤ us1 < 1000000)%Z → (0 ≤ us2 < 1000000)%Z →
  String.compare
    ((if (us1 =? 0)%Z then "" else "." ++ pad 6 us1) ++ format_offset tz)
    ((if (us2 =? 0)%Z then "" else "." ++ pad 6 us2) ++ format_offset tz)
  = (us1 ?= us2)%Z.
Proof.
  intros H1 H2.
  destruct (Z.eqb_spec us1 0) as [->|Hne1], (Z.eqb_spec us2 0) as [->|Hne2].
  - apply string_compare_refl.
  - change ("" ++ ?s)%string with s. rewrite string_app_assoc, string_app_cons.
    transitivity Lt; [|symmetry; apply Z.compare_lt_iff; lia].
    destruct tz as [off|]; [|done]. unfold format_offset.
    by destruct (off <? 0)%Z.
  - change ("" ++ ?s)%string with s. rewrite string_app_assoc, string_app_cons.
    transitivity Gt; [|symmetry; apply Z.compare_gt_iff; lia].
    destruct tz as [off|]; [|done]. unfold format_offset.
    by destruct (off <? 0)%Z.
  - rewrite !string_app_assoc, !string_app_cons, string_compare_cons.
    change ("" ++ ?s)%string with s.
    rewrite string_compare_app by (by rewrite !pad_length).
    rewrite string_compare_refl, lex_Eq_r. by apply (pad_compare 6).
Qed.

(** For valid datetimes with the same offset (or both naive) the order of
    the isoformat texts is the order of the datetimes. *)
Lemma isoformat_compare (a b : datetime) :
  valid_datetime a = true → valid_datetime b = true → tzinfo a = tzinfo b →
  String.compare (isoformat a) (isoformat b) = wall_compare a b.
Proof.
  intros Ha Hb Htz.
  destruct (valid_datetime_bounds a Ha) as [Hba _].
  destruct (valid_datetime_bounds b Hb) as [Hbb _].
  pose proof (days_in_month_le (year a) (month a)).
  pose proof (days_in_month_le (year b) (month b)).
  unfold isoformat, wall_compare. rewrite Htz.
  pose proof (fraction_compare (microsecond a) (microsecond b) (tzinfo b)) as Hfrac.
  revert Hfrac.
  generalize ((if (microsecond a =? 0)%Z then "" else "." ++ pad 6 (microsecond a))
              ++ format_offset (tzinfo b))%string.
  generalize ((if (microsecond b =? 0)%Z then "" else "." ++ pad 6 (microsecond b))
              ++ format_offset (tzinfo b))%string.
  intros fb fa Hfrac.
  rewrite !string_app_cons. repeat change ("" ++ ?s)%string with s.
  rewrite string_compare_app by (by rewrite !pad_length).
  rewrite (pad_compare 4) by (simpl; lia). f_equal.
  rewrite string_compare_cons, string_compare_app by (by rewrite !pad_length).
  rewrite (pad_compare 2) by (simpl; lia). f_equal.
  rewrite string_compare_cons, string_compare_app by (by rewrite !pad_length).
  rewrite (pad_compare 2) by (simpl; lia). f_equal.
  rewrite string_compare_cons, string_compare_app by (by rewrite !pad_length).
  rewrite (pad_compare 2) by (simpl; lia). f_equal.
  rewrite string_compare_cons, string_compare_app by (by rewrite !pad_length).
  rewrite (pad_compare 2) by (simpl; lia). f_equal.
  rewrite string_compare_cons, string_compare_app by (by rewrite !pad_length).
  rewrite (pad_compare 2) by (simpl; lia). f_equal.
  apply Hfrac; lia.
Qed.

Lemma insert_desc_perm (r : row) (l : list row) : insert_desc r l ≡ₚ r :: l.
Proof.
  induction l as [|r' l IH]; simpl; [done|].
  destruct (String.ltb _ _); [|done]. by rewrite IH, Permutation_swap.
Qed.

Lemma order_by_timestamp_desc_perm (rows : list row) :
  order_by_timestamp_desc rows ≡ₚ rows.
Proof.
  induction rows as [|r rows IH]; simpl; [done|]. by rewrite insert_desc_perm, IH.
Qed.

Lemma text_ge_trans (a b c : row) : text_ge a b → text_ge b c → text_ge a c.
Proof.
  unfold text_ge. intros Hab%Is_true_true Hbc%Is_true_true. apply Is_true_true.
  exact (PreOrder_Transitive (R:=String.le) _ _ _ Hbc Hab).
Qed.

Lemma ltb_text_ge (a b : row) :
  String.ltb (r_timestamp a) (r_timestamp b) = true → text_ge b a.
Proof.
  unfold text_ge, String.ltb, String.leb.
  destruct (String.compare (r_timestamp a) (r_timestamp b)); intros; congruence.
Qed.

Lemma not_ltb_text_ge (a b : row) :
  String.ltb (r_timestamp a) (r_timestamp b) = false → text_ge a b.
Proof.
  unfold text_ge, String.ltb, String.leb. rewrite (String.compare_antisym (r_timestamp a)).
  destruct (String.compare (r_timestamp b) (r_timestamp a)); simpl; intros; congruence.
Qed.

Lemma insert_desc_sorted (r : row) (l : list row) :
  StronglySorted text_ge l → StronglySorted text_ge (insert_desc r l).
Proof.
  induction l as [|r' l IH]; simpl; intros Hs.
  { repeat constructor. }
  apply StronglySorted_inv in Hs as [Hs Hall].
  destruct (String.ltb (r_timestamp r) (r_timestamp r')) eqn:Hlt.
  - constructor; [auto|]. rewrite insert_desc_perm.
    constructor; [by apply ltb_text_ge|done].
  - apply not_ltb_text_ge in Hlt. constructor; [by constructor|].
    constructor; [done|]. eapply Forall_impl; [done|].
    intros z Hz. by eapply text_ge_trans.
Qed.

Lemma order_by_timestamp_desc_sorted (rows : list row) :
  StronglySorted text_ge (order_by_timestamp_desc rows).
Proof.
  induction rows as [|r rows IH]; simpl; [constructor|]. by apply insert_desc_sorted.
Qed.

Lemma result_mapM_Forall2 {A B : Type} (f : A → result B) (P : A → B → Prop) (l : list A) :
  Forall (λ x, ∃ y, f x = Ok y ∧ P x y) l →
  ∃ ys, result_mapM f l = Ok ys ∧ Forall2 P l ys.
Proof.
  induction 1 as [|x l (y & Hy & HP) _ (ys & Hys & Hall)]; simpl.
  - exists []. by split.
  - exists (y :: ys). rewrite Hy. simpl. rewrite Hys. simpl. split; [done|by constructor].
Qed.

Lemma StronglySorted_Forall2 {A B : Type} (P : A → B → Prop)
    (R1 : relation A) (R2 : relation B) (l1 : list A) (l2 : list B) :
  (∀ x1 y1 x2 y2, P x1 x2 → P y1 y2 → R1 x1 y1 → R2 x2 y2) →
  Forall2 P l1 l2 → StronglySorted R1 l1 → StronglySorted R2 l2.
Proof.
  intros Himpl Hall. induction Hall as [|x1 x2 l1 l2 Hx Hall IH]; intros Hs; [constructor|].
  apply StronglySorted_inv in Hs as [Hs Hfa]. constructor; [auto|].
  clear IH Hs. induction Hall as [|y1 y2 l1 l2 Hy Hall IH]; [constructor|].
  apply Forall_cons in Hfa as [Hxy Hfa]. constructor; [by eapply Himpl|auto].
Qed.

Lemma written_rows_order (tz : option Z) (r1 r2 : row) (t1 t2 : Transaction) :
  load_row r1 = Ok t1 → r_timestamp r1 = isoformat (timestamp t1) → tzinfo (timestamp t1) = tz →
  load_row r2 = Ok t2 → r_timestamp r2 = isoformat (timestamp t2) → tzinfo (timestamp t2) = tz →
  text_ge r1 r2 → timestamp_le t2 t1.
Proof.
  intros Hl1 Hts1 Htz1 Hl2 Hts2 Htz2. unfold text_ge, timestamp_le, String.leb.
  rewrite Hts1, Hts2.
  pose proof (load_row_valid _ _ Hl1) as Hv1. pose proof (load_row_valid _ _ Hl2) as Hv2.
  rewrite (String.compare_antisym (isoformat (timestamp t2))).
  rewrite isoformat_compare by congruence.
  unfold datetime_lt, datetime_cmp. rewrite Htz1, Htz2.
  destruct tz as [off|]; [rewrite Z.eqb_refl|]; simpl;
    by destruct (wall_compare (timestamp t1) (timestamp t2)).
Qed.

(** C8, as amended.  When every row decodes, get_all_transactions
    returns the records of all the rows, in descending order of the stored
    timestamp text; that is most recent first when every row holds its
    timestamp as isoformat writes it and the timestamps are all naive or all
    of one UTC offset. *)
Theorem get_all_transactions_order (db : Database) :
  rows_load db →
  ∃ rows l,
    rows ≡ₚ transactions db ∧
    StronglySorted text_ge rows ∧
    get_all_transactions db = Ok l ∧
    Forall2 (λ r tx, load_row r = Ok tx) rows l ∧
    ∀ tz, (∀ r, r ∈ transactions db → row_written_with tz r) →
          StronglySorted (λ t1 t2, timestamp_le t2 t1) l.
Proof.
  intros Hload. unfold get_all_transactions.
  pose proof (order_by_timestamp_desc_perm (transactions db)) as Hperm.
  pose proof (order_by_timestamp_desc_sorted (transactions db)) as Hsorted.
  destruct (result_mapM_Forall2 load_row (λ r tx, load_row r = Ok tx)
              (order_by_timestamp_desc (transactions db))) as (l & Hl & Hall).
  { apply Forall_forall. intros r Hr. rewrite Hperm in Hr.
    destruct (Hload r Hr) as [tx Htx]. by exists tx. }
  exists (order_by_timestamp_desc (transactions db)), l. split_and!; [done..|].
  intros tz Hrows.
  assert (Forall2 (λ r tx, r_timestamp r = isoformat (timestamp tx) ∧
                           tzinfo (timestamp tx) = tz ∧ load_row r = Ok tx)
            (order_by_timestamp_desc (transactions db)) l) as Hall'.
  { apply Forall2_same_length_lookup. split; [by eapply Forall2_length|].
    intros k r tx Hr Htx. pose proof (Forall2_lookup_lr _ _ _ _ _ _ Hall Hr Htx) as Hrtx.
    assert (r ∈ transactions db) as Hin by (rewrite <- Hperm; by eapply list_elem_of_lookup_2).
    destruct (Hrows r Hin) as (tx' & Htx' & ? & ?).
    rewrite Hrtx in Htx'. injection Htx' as <-. done. }
  eapply StronglySorted_Forall2; [|exact Hall'|done]. simpl.
  intros r1 r2 t1 t2 (? & ? & ?) (? & ? & ?). by eapply written_rows_order.
Qed.

Lemma get_all_transactions_order_witness :
  ∃ l, get_all_transactions db_abc = Ok l ∧
       StronglySorted (λ t1 t2, timestamp_le t2 t1) l.
Proof.
  assert (rows_load_naive db_abc = true) as [Hload _]%rows_load_naive_spec by reflexivity.
  destruct (get_all_transactions_order db_abc Hload) as (rows & l & _ & _ & Hl & _ & Hdesc).
  exists l. split; [exact Hl|]. apply (Hdesc None).
  intros r Hr. each_row Hr; eexists; split_and!; reflexivity.
Defined.

(** C8 fails as stated: X (10:00 at UTC+05:00, that is 05:00 UTC) is
    listed before Y (08:00 UTC), because the text of X is the greater; it
    is the earlier of the two. *)
Lemma get_all_transactions_orders_text_not_instants :
  get_all_transactions db_offsets
    = Ok [plain_tx "X" ten_plus_five; plain_tx "Y" eight_utc] ∧
  datetime_lt (timestamp (plain_tx "X" ten_plus_five)) (timestamp (plain_tx "Y" eight_utc))
    = Ok true.
Proof. split; reflexivity. Qed.

(** ** Failures *)


Lemma get_all_transactions_returns (db : Database) :
  rows_load db → ∃ l, get_all_transactions db = Ok l.
Proof.
  intros Hload. unfold get_all_transactions.
  destruct (result_mapM_Forall2 load_row (λ _ _, True)
              (order_by_timestamp_desc (transactions db))) as (l & Hl & _); [|by exists l].
  apply Forall_forall. intros r Hr. rewrite order_by_timestamp_desc_perm in Hr.
  destruct (Hload r Hr) as [tx Htx]. by exists tx.
Qed.




(** ** Witnesses and examples for the store operations *)

Lemma not_found_is_not_an_error_witness :
  get_transaction db_abc "Z" = Ok None ∧ get_transaction_chain db_abc "Z" = Ok [].
Proof.
  apply (not_found_is_not_an_error db_abc "Z").
  intros r Hr. each_row Hr; done.
Defined.

Lemma save_transaction_upsert_witness :
  ∃ r2, row_of_transaction tx_plain_later = Ok r2 ∧
    filter (λ r, r_id r = "A")
      (transactions (save_transaction (save_transaction empty_db tx_plain).1 tx_plain_later).1)
    = [r2] ∧
    get_transaction (save_transaction (save_transaction empty_db tx_plain).1 tx_plain_later).1 "A"
    = Ok (Some tx_plain_later).
Proof.
  eexists. split; [reflexivity|].
  edestruct (save_transaction_upsert empty_db tx_plain tx_plain_later)
    as (_ & _ & _ & Hone & Hget & _); [reflexivity..|].
  split; [exact Hone|exact Hget].
Defined.



(** What link_transactions does to a parent that has a record: the link
    row is written, and the parent's [related_transactions] stays as it
    was, the nested save_transaction having found the database locked. *)
Lemma link_leaves_cached_view :
  (link_transactions db_abc "A" "B" "continuation").2 = true ∧
  get_transaction (link_transactions db_abc "A" "B" "continuation").1 "A"
    = Ok (Some (plain_tx "A" (at_second 1))) ∧
  related_transactions (plain_tx "A" (at_second 1)) = [].
Proof. split_and!; reflexivity. Qed.

(** * Further properties of the store *)

(** ** Saving twice, and the primary keys *)

Lemma filter_id_again (i : string) (r : row) (rows : list row) :
  r_id r = i →
  filter (λ r', r_id r' ≠ i) (filter (λ r', r_id r' ≠ i) rows ++ [r])
  = filter (λ r', r_id r' ≠ i) rows.
Proof.
  intros Hid. rewrite filter_app, list_filter_filter.
  rewrite filter_cons_False by naive_solver. rewrite filter_nil, app_nil_r.
  apply list_filter_iff. naive_solver.
Qed.

(** X1. Saving a record a second time changes nothing: the store after
    save_transaction(tx); save_transaction(tx) is the store after the first
    call, and the second call returns what the first returned. *)
Theorem save_transaction_idempotent (db : Database) (tx : Transaction) :
  save_transaction (save_transaction db tx).1 tx = save_transaction db tx.
Proof.
  destruct (save_transaction db tx) as [db' b] eqn:Hsave.
  destruct b.
  - assert ((save_transaction db tx).2 = true) as (Hlock & Hnan & r & Hrow)%save_transaction_true
      by by rewrite Hsave.
    rewrite (save_transaction_success db tx r) in Hsave by done.
    injection Hsave as <-. simpl.
    rewrite (save_transaction_success _ tx r) by done. simpl.
    destruct (row_of_transaction_fields _ _ Hrow) as (Hid & _).
    by rewrite filter_id_again.
  - assert ((save_transaction db tx).1 = db) as Hsame
      by (apply save_transaction_failure; by rewrite Hsave).
    rewrite Hsave in Hsame. simpl in *. by subst.
Qed.

Lemma NoDup_fmap_filter {A B : Type} (f : A → B) (P : A → Prop) `{!∀ x, Decision (P x)}
    (l : list A) :
  NoDup (f <$> l) → NoDup (f <$> filter P l).
Proof.
  intros Hnd. eapply sublist_NoDup; [exact Hnd|].
  apply fmap_sublist, sublist_filter.
Qed.

Lemma NoDup_fmap_replace {A B : Type} `{!EqDecision B} (f : A → B) (x : A) (l : list A) :
  NoDup (f <$> l) → NoDup (f <$> (filter (λ y, f y ≠ f x) l ++ [x])).
Proof.
  intros Hnd. rewrite fmap_app. apply NoDup_app. split_and!.
  - by apply NoDup_fmap_filter.
  - intros b (y & Hb & [Hne _]%list_elem_of_filter)%list_elem_of_fmap.
    simpl. intros Hx%list_elem_of_singleton. congruence.
  - apply NoDup_singleton.
Qed.

(** X2. The primary keys hold in every store the two write operations
    leave: from a store with one row per id and one link row per pair of
    ids, save_transaction and link_transactions lead to such a store again,
    whether they succeed or fail. *)
Theorem unique_keys_preserved (db : Database) (tx : Transaction) (p c t : string) :
  unique_keys db →
  unique_keys (save_transaction db tx).1 ∧ unique_keys (link_transactions db p c t).1.
Proof.
  intros [Hrows Hlinks]. split.
  - destruct (save_transaction db tx).2 eqn:Hok.
    + apply save_transaction_true in Hok as (Hlock & Hnan & r & Hrow).
      rewrite (save_transaction_success db tx r) by done.
      destruct (row_of_transaction_fields _ _ Hrow) as (Hid & _).
      split; [|done]. simpl. rewrite <- Hid.
      by apply (NoDup_fmap_replace r_id).
    + by rewrite save_transaction_failure.
  - destruct (write_lock db) eqn:Hlock; [by rewrite link_transactions_locked|].
    rewrite link_transactions_unfold by done.
    destruct (get_transaction db p); [|done].
    split; [done|]. simpl.
    pose proof (NoDup_fmap_replace (λ l, (parent_id l, child_id l)) (mkLink p c t)
                  (transaction_links db) Hlinks) as Hnd.
    simpl in Hnd.
    erewrite list_filter_iff; [exact Hnd|].
    intros l. simpl. split; [naive_solver|]. intros Hne [? ?]. apply Hne. congruence.
Qed.

Lemma unique_keys_preserved_witness :
  unique_keys (save_transaction db_abc tx_plain_later).1 ∧
  unique_keys (link_transactions db_abc "B" "C" "swap").1.
Proof.
  apply (unique_keys_preserved db_abc tx_plain_later "B" "C" "swap").
  split; apply (bool_decide_unpack _); vm_compute; reflexivity.
Defined.

(** ** get_all_transactions beside get_transaction *)

Lemma result_mapM_Ok {A B : Type} (f : A → result B) (l : list A) (ys : list B) :
  result_mapM f l = Ok ys → Forall2 (λ x y, f x = Ok y) l ys.
Proof.
  revert ys. induction l as [|x l IH]; intros ys; simpl.
  { intros [= <-]. constructor. }
  destruct (f x) as [y|e] eqn:Hx; simpl; [|done].
  destruct (result_mapM f l) as [ys'|e] eqn:Hl; simpl; [|done].
  intros [= <-]. constructor; [done|by apply IH].
Qed.

Lemma result_mapM_Raise {A B : Type} (f : A → result B) (l : list A) (e : exn) :
  result_mapM f l = Raise e → ∃ x, x ∈ l ∧ f x = Raise e.
Proof.
  induction l as [|x l IH]; simpl; [done|].
  destruct (f x) as [y|e'] eqn:Hx; simpl.
  - destruct (result_mapM f l) as [ys|e']; simpl; [done|].
    intros [= <-]. destruct IH as (x' & Hin & Hx'); [done|]. exists x'. split; [by right|done].
  - intros [= <-]. exists x. split; [left|done].
Qed.

Lemma unique_row (db : Database) (r r' : row) :
  NoDup (r_id <$> transactions db) →
  r ∈ transactions db → r' ∈ transactions db → r_id r = r_id r' → r = r'.
Proof.
  intros Hnd [i Hi]%list_elem_of_lookup [j Hj]%list_elem_of_lookup Hid.
  assert (i = j) as ->.
  { eapply NoDup_lookup; [exact Hnd| |].
    - by rewrite list_lookup_fmap, Hi.
    - by rewrite list_lookup_fmap, Hj, Hid. }
  congruence.
Qed.

Lemma get_transaction_row (db : Database) (r : row) :
  NoDup (r_id <$> transactions db) → r ∈ transactions db →
  get_transaction db (r_id r) = Some <$> load_row r.
Proof.
  intros Hnd Hr. unfold get_transaction.
  destruct (select_transaction db (r_id r)) as [r'|] eqn:Hsel.
  - apply select_transaction_Some in Hsel as [Hr' Hid].
    by rewrite (unique_row db r r').
  - rewrite select_transaction_None in Hsel. by destruct (Hsel r Hr).
Qed.

Lemma loaded_ids (rows : list row) (l : list Transaction) :
  Forall2 (λ r tx, load_row r = Ok tx) rows l → id <$> l = r_id <$> rows.
Proof.
  induction 1 as [|r tx rows l Hload _ IH]; [done|].
  rewrite !fmap_cons. by rewrite IH, (load_row_id r tx).
Qed.

(** X3. get_all_transactions and get_transaction agree.  In a store with
    one row per id, the list get_all_transactions returns has one record
    per row, no id twice, and holds exactly the records that
    get_transaction returns for their ids. *)
Theorem get_all_transactions_agrees_with_get (db : Database) (l : list Transaction) :
  NoDup (r_id <$> transactions db) →
  get_all_transactions db = Ok l →
  length l = length (transactions db) ∧
  NoDup (id <$> l) ∧
  ∀ tx, tx ∈ l ↔ get_transaction db (id tx) = Ok (Some tx).
Proof.
  intros Hnd Hall%result_mapM_Ok.
  pose proof (order_by_timestamp_desc_perm (transactions db)) as Hperm.
  pose proof (loaded_ids _ _ Hall) as Hids.
  split_and!.
  - by rewrite <- (Forall2_length _ _ _ Hall), Hperm.
  - by rewrite Hids, Hperm.
  - intros tx. split.
    + intros [i Hi]%list_elem_of_lookup.
      destruct (Forall2_lookup_r _ _ _ _ _ Hall Hi) as (r & Hr & Hload).
      apply list_elem_of_lookup_2 in Hr. rewrite Hperm in Hr.
      rewrite (load_row_id r tx Hload), (get_transaction_row db r) by done.
      by rewrite Hload.
    + intros (r & [Hr _]%select_transaction_Some & Hload)%get_transaction_Some.
      rewrite <- Hperm in Hr. apply list_elem_of_lookup in Hr as [i Hi].
      destruct (Forall2_lookup_l _ _ _ _ _ Hall Hi) as (tx' & Htx' & Hload').
      rewrite Hload in Hload'. injection Hload' as <-.
      by eapply list_elem_of_lookup_2.
Qed.

Lemma get_all_transactions_agrees_with_get_witness :
  length [plain_tx "B" (at_second 3); plain_tx "C" (at_second 2); plain_tx "A" (at_second 1)]
    = length (transactions db_abc) ∧
  NoDup (id <$> [plain_tx "B" (at_second 3); plain_tx "C" (at_second 2);
                 plain_tx "A" (at_second 1)]) ∧
  (plain_tx "C" (at_second 2)
     ∈ [plain_tx "B" (at_second 3); plain_tx "C" (at_second 2); plain_tx "A" (at_second 1)]
   ↔ get_transaction db_abc "C" = Ok (Some (plain_tx "C" (at_second 2)))).
Proof.
  destruct (get_all_transactions_agrees_with_get db_abc
              [plain_tx "B" (at_second 3); plain_tx "C" (at_second 2);
               plain_tx "A" (at_second 1)]) as (Hlen & Hnd & Hmem).
  - apply (bool_decide_unpack _). vm_compute. reflexivity.
  - reflexivity.
  - split_and!; [exact Hlen|exact Hnd|exact (Hmem (plain_tx "C" (at_second 2)))].
Defined.

(** ** link_transactions: when it succeeds, and what it leaves alone *)

(** X4. link_transactions succeeds exactly when no other connection is in
    a write and the parent's row, if there is one, decodes.  Neither id
    needs a record: the foreign keys of the link table are declared and not
    enforced. *)
Theorem link_transactions_succeeds_iff (db : Database) (p c t : string) :
  (link_transactions db p c t).2 = true ↔
  write_lock db = false ∧ ∃ o, get_transaction db p = Ok o.
Proof.
  destruct (write_lock db) eqn:Hlock.
  - rewrite link_transactions_locked by done. simpl. naive_solver.
  - rewrite link_transactions_unfold by done.
    destruct (get_transaction db p) as [o|e]; simpl.
    + split; [|done]. intros _. split; [done|by exists o].
    + split; [done|]. by intros [_ [o ?]].
Qed.

(** X5. link_transactions never rewrites a transaction row.  Every read
    of the records gives after the call what it gave before; in particular
    the [related_transactions] list of the parent record is not extended
    (the nested save_transaction is refused while the link row is
    uncommitted, and its result is dropped). *)
Theorem link_transactions_leaves_records (db : Database) (p c t i : string) :
  let db' := (link_transactions db p c t).1 in
  get_transaction db' i = get_transaction db i ∧
  get_all_transactions db' = get_all_transactions db.
Proof.
  intros db'. subst db'.
  pose proof (link_transactions_keeps_rows db p c t) as Hrows. split.
  - by apply get_transaction_rows.
  - unfold get_all_transactions. by rewrite Hrows.
Qed.

Lemma link_transactions_succeeds_aux (db : Database) (p c t : string) :
  (link_transactions db p c t).2 = true →
  write_lock db = false ∧ ∃ o, get_transaction db p = Ok o.
Proof.
  destruct (write_lock db) eqn:Hlock.
  - by rewrite link_transactions_locked.
  - rewrite link_transactions_unfold by done.
    destruct (get_transaction db p) as [o|e]; simpl; [|done].
    intros _. split; [done|by exists o].
Qed.

(** ** Chains as the classes of an equivalence *)

Lemma linked_sym (db : Database) (a b : string) : linked db a b → linked db b a.
Proof. intros (l & Hl & Hab). exists l. split; [done|]. by destruct Hab; [right|left]. Qed.

Lemma chain_reachable_stored (db : Database) (a b : string) :
  chain_reachable db a b → stored db b → stored db a.
Proof. intros [->|(y & [Ha _] & _)]%rtc_inv; done. Qed.

(** Reachability through stored ids can be walked back from a stored
    id. *)
Lemma chain_reachable_sym (db : Database) (a b : string) :
  chain_reachable db a b → stored db b → chain_reachable db b a.
Proof.
  intros Hab Hb. revert a Hab.
  apply (rtc_ind_l (λ a, chain_reachable db b a) b); [apply rtc_refl|].
  intros a y [Ha Hay] Hyb IH.
  eapply rtc_r; [exact IH|]. split; [|by apply linked_sym].
  by eapply chain_reachable_stored.
Qed.

Lemma in_component_stored (db : Database) (s : string) (tx : Transaction) :
  in_component db s tx → stored db (id tx).
Proof. intros [_ Hget]. by apply get_transaction_id in Hget as [_ ?]. Qed.

Lemma in_component_shift (db : Database) (a b : string) (tx : Transaction) :
  chain_reachable db b a → in_component db a tx → in_component db b tx.
Proof. intros Hba [Hreach Hget]. split; [by eapply rtc_trans|done]. Qed.

Lemma chain_start_stored (db : Database) (s : string) (l : list Transaction) (tx : Transaction) :
  get_transaction_chain db s = Ok l → tx ∈ l → stored db s.
Proof.
  intros Hl Htx. destruct (get_transaction_chain_sound db s l Hl) as (_ & Hmem & _).
  apply Hmem in Htx. eapply chain_reachable_stored; [apply Htx|].
  by eapply in_component_stored.
Qed.

Lemma chain_same_records (db1 db2 : Database) (a b : string) (la lb : list Transaction) :
  get_transaction_chain db1 a = Ok la → get_transaction_chain db2 b = Ok lb →
  (∀ tx, in_component db1 a tx ↔ in_component db2 b tx) → la ≡ₚ lb.
Proof.
  intros Ha Hb Hiff.
  destruct (get_transaction_chain_sound db1 a la Ha) as (Hnda & Hmema & _).
  destruct (get_transaction_chain_sound db2 b lb Hb) as (Hndb & Hmemb & _).
  apply NoDup_Permutation; [by eapply NoDup_fmap_1..|].
  intros tx. by rewrite Hmema, Hmemb.
Qed.

(** X6. An empty chain means an unknown id, nothing else:
    get_transaction_chain returns the empty list exactly when the start id
    has no record; for a start id that has one, the list holds at least that
    record. *)
Theorem chain_empty_iff_unknown (db : Database) (s : string) :
  get_transaction_chain db s = Ok [] ↔ get_transaction db s = Ok None.
Proof.
  split.
  - intros [[Hget _]|(tx0 & st' & Hget & Hrun & Hsort)]%get_transaction_chain_Ok; [done|].
    destruct (traversal_collects _ _ _ _ Hget Hrun) as [_ Hmem].
    assert (tx0 ∈ chain st') as Hin.
    { apply Hmem. destruct (get_transaction_id _ _ _ Hget) as [Hid _].
      split; rewrite Hid; [apply rtc_refl|done]. }
    apply sort_by_timestamp_perm in Hsort. rewrite <- Hsort in Hin.
    by apply elem_of_nil in Hin.
  - intros Hget. unfold get_transaction_chain. by rewrite Hget.
Qed.

(** X7. Chains partition the records.  Two chains that have one record
    in common hold the same records: the chain of an id is the chain of
    every id whose record it holds (up to the order of records that carry
    the same timestamp). *)
Theorem chains_partition (db : Database) (a b : string) (la lb : list Transaction)
    (tx : Transaction) :
  get_transaction_chain db a = Ok la → get_transaction_chain db b = Ok lb →
  tx ∈ la → tx ∈ lb → la ≡ₚ lb.
Proof.
  intros Ha Hb Hina Hinb.
  pose proof (chain_start_stored _ _ _ _ Ha Hina) as Hsa.
  pose proof (chain_start_stored _ _ _ _ Hb Hinb) as Hsb.
  destruct (get_transaction_chain_sound db a la Ha) as (_ & Hmema & _).
  destruct (get_transaction_chain_sound db b lb Hb) as (_ & Hmemb & _).
  apply Hmema in Hina. apply Hmemb in Hinb.
  pose proof (in_component_stored _ _ _ Hina) as Hstx.
  destruct Hina as [Hatx _]. destruct Hinb as [Hbtx _].
  assert (chain_reachable db a b) as Hab
    by (eapply rtc_trans; [exact Hatx|by apply chain_reachable_sym]).
  assert (chain_reachable db b a) as Hba
    by (eapply rtc_trans; [exact Hbtx|by apply chain_reachable_sym]).
  apply (chain_same_records db db a b); [done..|].
  intros tx'. split; by apply in_component_shift.
Qed.

Lemma chains_partition_witness :
  [plain_tx "A" (at_second 1); plain_tx "C" (at_second 2); plain_tx "B" (at_second 3)]
  ≡ₚ [plain_tx "A" (at_second 1); plain_tx "C" (at_second 2); plain_tx "B" (at_second 3)].
Proof.
  apply (chains_partition db_abc "A" "B" _ _ (plain_tx "C" (at_second 2)));
    [reflexivity|reflexivity|right; left|right; left].
Defined.

(** ** The chain and the shape of the link table *)

Lemma in_component_links (db1 db2 : Database) (s : string) (tx : Transaction) :
  transactions db1 = transactions db2 →
  (∀ x y, linked db1 x y → linked db2 x y) →
  in_component db1 s tx → in_component db2 s tx.
Proof.
  intros Hrows Hlinked [Hreach Hget]. split.
  - eapply rtc_subrel; [|exact Hreach].
    intros x y [Hx Hxy]. split; [|by apply Hlinked].
    unfold stored in *. by rewrite <- Hrows.
  - by rewrite (get_transaction_rows db1 db2).
Qed.

(** X8. The chain depends on the link table only through which pairs of
    ids it joins.  Two stores with the same transaction rows whose link
    tables join the same pairs (whatever the direction of each link, its
    relationship type, the order of the link rows) give chains with the same
    records. *)
Theorem chain_ignores_link_direction (db1 db2 : Database) (s : string)
    (l1 l2 : list Transaction) :
  transactions db1 = transactions db2 →
  (∀ x y, linked db1 x y ↔ linked db2 x y) →
  get_transaction_chain db1 s = Ok l1 → get_transaction_chain db2 s = Ok l2 →
  l1 ≡ₚ l2.
Proof.
  intros Hrows Hlinked H1 H2. apply (chain_same_records db1 db2 s s); [done..|].
  intros tx. split; apply in_component_links; try done; intros x y; by apply Hlinked.
Qed.

Lemma chain_ignores_link_direction_witness :
  [plain_tx "A" (at_second 1); plain_tx "C" (at_second 2); plain_tx "B" (at_second 3)]
  ≡ₚ [plain_tx "A" (at_second 1); plain_tx "C" (at_second 2); plain_tx "B" (at_second 3)].
Proof.
  apply (chain_ignores_link_direction db_abc db_abc_reversed "A");
    [reflexivity| |reflexivity|reflexivity].
  intros x y. split; intros (l & Hl & Hxy); each_row Hl; simpl in Hxy.
  - exists (mkLink "B" "A" "fee"). split; [right; left|]. simpl. tauto.
  - exists (mkLink "C" "A" "swap"). split; [left|]. simpl. tauto.
  - exists (mkLink "A" "C" "continuation"). split; [right; left|]. simpl. tauto.
  - exists (mkLink "A" "B" "continuation"). split; [left|]. simpl. tauto.
Defined.

(** ** Linking, then asking for the chain *)



Lemma link_transactions_rows_load (db : Database) (p c t : string) :
  rows_load db → rows_load (link_transactions db p c t).1.
Proof. unfold rows_load. by rewrite link_transactions_keeps_rows. Qed.


Lemma link_transactions_linked (db : Database) (p c t : string) :
  (link_transactions db p c t).2 = true →
  linked (link_transactions db p c t).1 p c.
Proof.
  intros [Hlock [o Hget]]%link_transactions_succeeds_aux.
  rewrite link_transactions_unfold by done. rewrite Hget.
  exists (mkLink p c t). split; [|by left].
  simpl. apply elem_of_app. right. left.
Qed.







(** ** Saving what was read *)

Lemma json_nested_ind (P : json → Prop) :
  P JNull → (∀ b, P (JBool b)) → (∀ n, P (JInt n)) → (∀ f, P (JFloat f)) →
  (∀ s, P (JStr s)) →
  (∀ l, Forall P l → P (JArr l)) →
  (∀ kvs, Forall (λ kv, P kv.2) kvs → P (JObj kvs)) →
  ∀ j, P j.
Proof.
  intros HNull HBool HInt HFloat HStr HArr HObj.
  fix IH 1.
  intros [ |b|n|f|s|l|kvs]; [apply HNull|apply HBool|apply HInt|apply HFloat|apply HStr|..].
  - apply HArr. induction l as [|x l IHl]; constructor; [apply IH|apply IHl].
  - apply HObj. induction kvs as [|[k x] kvs IHl]; constructor; [apply IH|apply IHl].
Qed.

Lemma dict_set_keys {V : Type} (k : string) (v : V) (d : list (string * V)) :
  (dict_set k v d).*1 = if decide (k ∈ d.*1) then d.*1 else d.*1 ++ [k].
Proof.
  induction d as [|[k' v'] d IH]; [done|].
  change (dict_set k v ((k', v') :: d))
    with (if String.eqb k k' then (k', v) :: d else (k', v') :: dict_set k v d).
  destruct (String.eqb_spec k k') as [->|Hne]; rewrite !fmap_cons; simpl.
  - rewrite decide_True; [done|left].
  - rewrite IH. destruct (decide (k ∈ d.*1)) as [Hin|Hout].
    + rewrite decide_True; [done|by right].
    + rewrite decide_False; [done|]. by intros [?|?]%elem_of_cons.
Qed.

Lemma dict_set_NoDup {V : Type} (k : string) (v : V) (d : list (string * V)) :
  NoDup d.*1 → NoDup (dict_set k v d).*1.
Proof.
  intros Hnd. rewrite dict_set_keys. case_decide; [done|].
  apply NoDup_app. split_and!; [done| |apply NoDup_singleton].
  intros x Hx ->%list_elem_of_singleton. done.
Qed.

Lemma dict_set_Forall {V : Type} (Q : V → Prop) (k : string) (v : V) (d : list (string * V)) :
  Q v → Forall (λ kv, Q kv.2) d → Forall (λ kv, Q kv.2) (dict_set k v d).
Proof.
  intros Hv. induction 1 as [|[k' v'] d Hkv Hd IH]; simpl.
  - by repeat constructor.
  - destruct (String.eqb k k'); constructor; done.
Qed.

Lemma dict_of_pairs_spec {V : Type} (Q : V → Prop) (kvs : list (string * V)) :
  Forall (λ kv, Q kv.2) kvs →
  NoDup (dict_of_pairs kvs).*1 ∧ Forall (λ kv, Q kv.2) (dict_of_pairs kvs).
Proof.
  unfold dict_of_pairs.
  enough (∀ acc, NoDup acc.*1 → Forall (λ kv : string * V, Q kv.2) acc →
                 Forall (λ kv, Q kv.2) kvs →
                 NoDup (fold_left (λ d kv, dict_set kv.1 kv.2 d) kvs acc).*1 ∧
                 Forall (λ kv, Q kv.2) (fold_left (λ d kv, dict_set kv.1 kv.2 d) kvs acc)) as H.
  { intros Hall. apply H; [constructor|constructor|done]. }
  induction kvs as [|[k v] kvs IH]; intros acc Hnd Hacc Hall; simpl; [done|].
  apply Forall_cons in Hall as [Hv Hall].
  apply IH; [by apply dict_set_NoDup|by apply dict_set_Forall|done].
Qed.

(** What [json.loads] returns, [json.dumps] serializes, to a document
    that reads back as the same value. *)
Lemma json_reload (j : json) :
  ∃ j', json_dumps (json_loads j) = Ok j' ∧ json_loads j' = json_loads j.
Proof.
  induction j as [ |b|n|f|s|l IH|kvs IH] using json_nested_ind;
    simpl; try (eexists; split; [done|done]).
  - destruct (result_mapM_inverse json_dumps json_loads (map json_loads l)) as (js & Hjs & Hmap).
    { apply Forall_fmap. eapply Forall_impl; [exact IH|]. simpl. intros x [j' Hj']. by exists j'. }
    exists (JArr js). rewrite Hjs. simpl. by rewrite Hmap.
  - set (d := dict_of_pairs (map (λ kv : string * json, match kv with (k, x) => (k, json_loads x) end) kvs)).
    destruct (dict_of_pairs_spec
                (λ v, ∃ y, json_dumps v = Ok y ∧ json_loads y = v)
                (map (λ kv : string * json, match kv with (k, x) => (k, json_loads x) end) kvs))
      as [Hnd Hall].
    { apply Forall_fmap. eapply Forall_impl; [exact IH|]. simpl.
      intros [k x] [j' Hj']. by exists j'. }
    fold d in Hnd, Hall.
    destruct (result_mapM_inverse
                (λ kv, match kv with (k, x) => j ← json_dumps x; Ok (k, j) end)
                (λ kv : string * json, match kv with (k, x) => (k, json_loads x) end) d)
      as (js & Hjs & Hmap).
    { eapply Forall_impl; [exact Hall|]. simpl. intros [k v] (y & Hy & Hload).
      exists (k, y). simpl in *. rewrite Hy. simpl. by rewrite Hload. }
    exists (JObj js). rewrite Hjs. simpl. rewrite Hmap. by rewrite dict_of_pairs_nodup.
Qed.

Lemma load_row_inv (r : row) (tx : Transaction) :
  load_row r = Ok tx →
  ∃ j, r_raw_data r = CellJson j ∧ raw_data tx = json_loads j ∧
       r_related_transactions r = CellJson (related_transactions tx) ∧
       fromisoformat (r_timestamp r) = Ok (timestamp tx) ∧
       TransactionType_of_value (r_transaction_type r) = Ok (transaction_type tx) ∧
       TransactionSource_of_value (r_source r) = Ok (source tx) ∧
       id tx = r_id r ∧ amount tx = r_amount r ∧ currency tx = r_currency r ∧
       fee tx = r_fee r ∧ fee_currency tx = r_fee_currency r ∧
       status tx = r_status r ∧ notes tx = r_notes r.
Proof.
  unfold load_row, from_dict.
  destruct (r_raw_data r) as [| |j], (r_related_transactions r) as [| |l]; simpl; try done.
  destruct (fromisoformat _) as [ts|]; simpl; [|done].
  destruct (TransactionType_of_value _) as [ty|]; simpl; [|done].
  destruct (TransactionSource_of_value _) as [src|]; simpl; [|done].
  intros [= <-]. by exists j.
Qed.

(** X11. What get_transaction returns can be saved back as it is.  For
    a record read from the store (no NaN in [amount] or [fee], which SQLite
    does not hold), save_transaction succeeds whenever no other connection
    is in a write, and get_transaction then returns that same record. *)
Theorem load_then_save_roundtrip (db : Database) (i : string) (tx : Transaction) :
  get_transaction db i = Ok (Some tx) →
  write_lock db = false → is_nan (amount tx) = false → bind_real (fee tx) = fee tx →
  (save_transaction db tx).2 = true ∧
  get_transaction (save_transaction db tx).1 i = Ok (Some tx).
Proof.
  intros Hget Hlock Hnan Hfee.
  destruct (get_transaction_id _ _ _ Hget) as [Hid _].
  pose proof (get_transaction_valid _ _ _ Hget) as Hvalid.
  apply get_transaction_Some in Hget as (r & _ & Hload).
  apply load_row_inv in Hload as (j & _ & Hraw & _).
  destruct (json_reload j) as (j' & Hdumps & Hloads).
  assert (∃ r', row_of_transaction tx = Ok r' ∧ load_row r' = Ok tx) as (r' & Hrow & Hload').
  { unfold row_of_transaction. rewrite Hraw, Hdumps. simpl. eexists. split; [done|].
    unfold load_row, from_dict. simpl.
    rewrite fromisoformat_isoformat by done. simpl.
    rewrite TransactionType_roundtrip, TransactionSource_roundtrip. simpl.
    rewrite Hloads, <- Hraw, Hfee. by destruct tx. }
  rewrite (save_transaction_success db tx r') by done. simpl. split; [done|].
  destruct (row_of_transaction_fields _ _ Hrow) as (Hid' & _).
  unfold get_transaction. rewrite <- Hid.
  rewrite select_after_replace by done. by rewrite Hload'.
Qed.

Lemma load_then_save_roundtrip_witness :
  (save_transaction db_abc (plain_tx "B" (at_second 3))).2 = true ∧
  get_transaction (save_transaction db_abc (plain_tx "B" (at_second 3))).1 "B"
    = Ok (Some (plain_tx "B" (at_second 3))).
Proof.
  apply (load_then_save_roundtrip db_abc "B" (plain_tx "B" (at_second 3))); reflexivity.
Defined.

(** ** Naive and aware records in one chain *)

(** X12. Linking a naive record to an aware one breaks their chains.
    When every row decodes and link_transactions(a, b, t) succeeds between
    two records of which one has a naive timestamp (as the Ethereum client
    makes them) and the other an aware one (as the Coinbase client makes
    them), get_transaction_chain raises TypeError from [a] and from [b]: the
    final sort compares the two timestamps. *)
Theorem linking_naive_to_aware_breaks_chain (db : Database) (a b t : string)
    (ta tb : Transaction) :
  rows_load db →
  get_transaction db a = Ok (Some ta) → get_transaction db b = Ok (Some tb) →
  aware ta ≠ aware tb →
  (link_transactions db a b t).2 = true →
  get_transaction_chain (link_transactions db a b t).1 a = Raise TypeError ∧
  get_transaction_chain (link_transactions db a b t).1 b = Raise TypeError.
Proof.
  intros Hload Hta Htb Hmixed Hok.
  pose proof (link_transactions_rows_load db a b t Hload) as Hload'.
  pose proof (link_transactions_linked db a b t Hok) as Hab.
  pose proof (link_transactions_keeps_rows db a b t) as Hrows.
  set (db' := (link_transactions db a b t).1) in *.
  destruct (get_transaction_id _ _ _ Hta) as [Hida Hsa].
  destruct (get_transaction_id _ _ _ Htb) as [Hidb Hsb].
  assert (stored db' a) as Ha' by (unfold stored; by rewrite Hrows).
  assert (stored db' b) as Hb' by (unfold stored; by rewrite Hrows).
  rewrite <- (get_transaction_rows db db') in Hta, Htb by done.
  split.
  - apply (chain_raises_on_mixed_component db' a ta tb); [done| | |done].
    + split; rewrite Hida; [apply rtc_refl|done].
    + split; rewrite Hidb; [by apply rtc_once|done].
  - apply (chain_raises_on_mixed_component db' b ta tb); [done| | |done].
    + split; rewrite Hida; [apply rtc_once; split; [done|by apply linked_sym]|done].
    + split; rewrite Hidb; [apply rtc_refl|done].
Qed.

Lemma linking_naive_to_aware_breaks_chain_witness :
  get_transaction_chain (link_transactions db_mixed_unlinked "A" "B" "swap").1 "A"
    = Raise TypeError ∧
  get_transaction_chain (link_transactions db_mixed_unlinked "A" "B" "swap").1 "B"
    = Raise TypeError.
Proof.
  eapply (linking_naive_to_aware_breaks_chain db_mixed_unlinked "A" "B" "swap").
  - intros r Hr. each_row Hr; eexists; reflexivity.
  - reflexivity.
  - reflexivity.
  - discriminate.
  - reflexivity.
Defined.

(** ** The history as a whole *)

(** X13. One row that does not decode takes the whole history with it:
    get_all_transactions returns exactly when every row of the table
    decodes; when it raises, it raises what decoding one of the rows
    raises. *)
Theorem get_all_transactions_returns_iff (db : Database) :
  ((∃ l, get_all_transactions db = Ok l) ↔ rows_load db) ∧
  (∀ e, get_all_transactions db = Raise e →
        ∃ r, r ∈ transactions db ∧ load_row r = Raise e).
Proof.
  split; [split|].
  - intros [l Hall%result_mapM_Ok] r Hr.
    rewrite <- order_by_timestamp_desc_perm in Hr.
    apply list_elem_of_lookup in Hr as [i Hi].
    destruct (Forall2_lookup_l _ _ _ _ _ Hall Hi) as (tx & _ & Hload). by exists tx.
  - apply get_all_transactions_returns.
  - intros e (r & Hr & Hload)%result_mapM_Raise. exists r. split; [|done].
    by rewrite order_by_timestamp_desc_perm in Hr.
Qed.

(** X14. A chain holds nothing that the history does not: every record
    that get_transaction_chain returns is in the list that
    get_all_transactions returns, and the chain is no longer than the
    history. *)
Theorem chain_within_history (db : Database) (s : string) (l history : list Transaction) :
  get_transaction_chain db s = Ok l → get_all_transactions db = Ok history →
  l ⊆ history ∧ (length l ≤ length history)%nat.
Proof.
  intros Hl Hall.
  destruct (get_transaction_chain_sound db s l Hl) as (Hnd & Hmem & _).
  assert (l ⊆ history) as Hsub.
  { intros tx [_ (r & [Hr _]%select_transaction_Some & Hload)%get_transaction_Some]%Hmem.
    apply result_mapM_Ok in Hall.
    rewrite <- order_by_timestamp_desc_perm in Hr.
    apply list_elem_of_lookup in Hr as [i Hi].
    destruct (Forall2_lookup_l _ _ _ _ _ Hall Hi) as (tx' & Htx' & Hload').
    rewrite Hload in Hload'. injection Hload' as <-.
    by eapply list_elem_of_lookup_2. }
  split; [done|].
  apply submseteq_length, NoDup_submseteq; [by eapply NoDup_fmap_1|done].
Qed.

Lemma chain_within_history_witness :
  [plain_tx "A" (at_second 1)]
    ⊆ [plain_tx "B" (at_second 2); plain_tx "A" (at_second 1)] ∧
  (length [plain_tx "A" (at_second 1)]
     ≤ length [plain_tx "B" (at_second 2); plain_tx "A" (at_second 1)])%nat.
Proof.
  apply (chain_within_history db_dangling "A"); reflexivity.
Defined.

(** ** to_dict and from_dict *)

Lemma TransactionType_of_value_inv (s : string) (t : TransactionType) :
  TransactionType_of_value s = Ok t → TransactionType_value t = s.
Proof.
  unfold TransactionType_of_value. cbn [find TransactionType_value].
  repeat match goal with
    | |- context [String.eqb ?a s] =>
        destruct (String.eqb_spec a s) as [<-|_]; [intros [= <-]; reflexivity|]
    end.
  done.
Qed.

Lemma TransactionSource_of_value_inv (s : string) (t : TransactionSource) :
  TransactionSource_of_value s = Ok t → TransactionSource_value t = s.
Proof.
  unfold TransactionSource_of_value. cbn [find TransactionSource_value].
  repeat match goal with
    | |- context [String.eqb ?a s] =>
        destruct (String.eqb_spec a s) as [<-|_]; [intros [= <-]; reflexivity|]
    end.
  done.
Qed.

(** X15. [from_dict] and [to_dict] are inverse to each other.  A record
    with a valid timestamp comes back from [from_dict (to_dict tx)]; and a
    dictionary that [from_dict] accepts is the one [to_dict] makes of the
    record, but for the spelling of the timestamp, which [to_dict] writes
    anew with [isoformat]. *)
Theorem from_dict_to_dict_roundtrip (tx : Transaction) (data : row_dict) :
  (valid_datetime (timestamp tx) = true → from_dict (to_dict tx) = Ok tx) ∧
  (from_dict data = Ok tx →
   from_dict (to_dict tx) = Ok tx ∧
   to_dict tx = {| d_id := d_id data;
                   d_timestamp := isoformat (timestamp tx);
                   d_transaction_type := d_transaction_type data;
                   d_source := d_source data;
                   d_amount := d_amount data;
                   d_currency := d_currency data;
                   d_fee := d_fee data;
                   d_fee_currency := d_fee_currency data;
                   d_status := d_status data;
                   d_notes := d_notes data;
                   d_raw_data := d_raw_data data;
                   d_related_transactions := d_related_transactions data |}).
Proof.
  split; [apply from_dict_to_dict|].
  unfold from_dict at 1.
  destruct (fromisoformat (d_timestamp data)) as [ts|] eqn:Hts; simpl; [|done].
  destruct (TransactionType_of_value _) as [ty|] eqn:Hty; simpl; [|done].
  destruct (TransactionSource_of_value _) as [src|] eqn:Hsrc; simpl; [|done].
  intros [= <-]. split.
  - apply from_dict_to_dict. simpl. by eapply fromisoformat_valid.
  - unfold to_dict. simpl.
    by rewrite (TransactionType_of_value_inv _ _ Hty), (TransactionSource_of_value_inv _ _ Hsrc).
Qed.

(** * The tracker and the command line *)

(** ** The tracker *)

Lemma faithful_spec (tx : Transaction) :
  faithful tx = true →
  valid_datetime (timestamp tx) = true ∧ json_native (raw_data tx) = true ∧
  is_nan (amount tx) = false ∧ bind_real (fee tx) = fee tx.
Proof.
  unfold faithful. rewrite !andb_true_iff, negb_true_iff.
  intros [[[Hts Hraw] Hamount] Hfee]. split_and!; try done.
  destruct (fee tx) as [f|]; [|done]. simpl. apply negb_true_iff in Hfee. by rewrite Hfee.
Qed.

Lemma save_faithful (db : Database) (tx : Transaction) :
  write_lock db = false → faithful tx = true →
  ∃ r, row_of_transaction tx = Ok r ∧ load_row r = Ok tx ∧
       save_transaction db tx =
         ({| transactions := filter (λ r', r_id r' ≠ id tx) (transactions db) ++ [r];
             transaction_links := transaction_links db;
             write_lock := false |}, true).
Proof.
  intros Hlock (Hts & Hraw & Hnan & Hfee)%faithful_spec.
  destruct (json_roundtrip _ Hraw) as (j & Hj & Hloads).
  eexists. split_and!.
  - unfold row_of_transaction. rewrite Hj. simpl. reflexivity.
  - unfold load_row, from_dict. simpl.
    rewrite fromisoformat_isoformat by done. simpl.
    rewrite TransactionType_roundtrip, TransactionSource_roundtrip. simpl.
    rewrite Hloads, Hfee. by destruct tx.
  - apply save_transaction_success; [done| |done].
    unfold row_of_transaction. by rewrite Hj.
Qed.

Lemma save_transaction_other (db : Database) (tx : Transaction) (i : string) :
  i ≠ id tx → get_transaction (save_transaction db tx).1 i = get_transaction db i.
Proof.
  intros Hne. destruct (save_transaction db tx).2 eqn:Hok;
    [|by rewrite save_transaction_failure].
  apply save_transaction_true in Hok as (Hlock & Hnan & r & Hrow).
  rewrite (save_transaction_success db tx r) by done. simpl.
  destruct (row_of_transaction_fields _ _ Hrow) as (Hid & _).
  unfold get_transaction.
  rewrite (select_other_after_replace _ (id tx) i r _ (transaction_links db) _ (write_lock db))
    by done.
  by destruct db.
Qed.

Lemma save_transaction_links (db : Database) (tx : Transaction) :
  transaction_links (save_transaction db tx).1 = transaction_links db.
Proof.
  destruct (save_transaction db tx).2 eqn:Hok; [|by rewrite save_transaction_failure].
  apply save_transaction_true in Hok as (Hlock & Hnan & r & Hrow).
  by rewrite (save_transaction_success db tx r).
Qed.

Lemma save_transaction_unlocked (db : Database) (tx : Transaction) :
  write_lock db = false → write_lock (save_transaction db tx).1 = false.
Proof.
  intros Hlock. destruct (save_transaction db tx).2 eqn:Hok;
    [|by rewrite save_transaction_failure].
  apply save_transaction_true in Hok as (_ & Hnan & r & Hrow).
  by rewrite (save_transaction_success db tx r).
Qed.

Lemma save_each_snoc (db : Database) (l : list Transaction) (tx : Transaction) :
  CryptoTracker.save_each db (l ++ [tx])
  = (save_transaction (CryptoTracker.save_each db l) tx).1.
Proof. unfold CryptoTracker.save_each. by rewrite foldl_app. Qed.

Lemma save_each_app (db : Database) (l1 l2 : list Transaction) :
  CryptoTracker.save_each db (l1 ++ l2)
  = CryptoTracker.save_each (CryptoTracker.save_each db l1) l2.
Proof. unfold CryptoTracker.save_each. by rewrite foldl_app. Qed.

Lemma save_each_unlocked (db : Database) (l : list Transaction) :
  write_lock db = false → write_lock (CryptoTracker.save_each db l) = false.
Proof.
  revert db. induction l as [|tx l IH]; intros db Hlock; [done|].
  simpl. apply IH. by apply save_transaction_unlocked.
Qed.

Lemma save_each_links (db : Database) (l : list Transaction) :
  transaction_links (CryptoTracker.save_each db l) = transaction_links db.
Proof.
  revert db. induction l as [|tx l IH]; intros db; [done|].
  simpl. by rewrite IH, save_transaction_links.
Qed.

Lemma save_each_other (db : Database) (l : list Transaction) (i : string) :
  i ∉ id <$> l →
  get_transaction (CryptoTracker.save_each db l) i = get_transaction db i.
Proof.
  revert db. induction l as [|tx l IH]; intros db Hout; [done|].
  rewrite fmap_cons, not_elem_of_cons in Hout. destruct Hout as [Hne Hout].
  simpl. rewrite IH by done. by apply save_transaction_other.
Qed.

(** What the loop of saves leaves under the id of each record: the last
    record of the list that carries the id. *)
Lemma save_each_last (db : Database) (l1 l2 : list Transaction) (tx : Transaction) :
  write_lock db = false → faithful tx = true → id tx ∉ id <$> l2 →
  get_transaction (CryptoTracker.save_each db (l1 ++ tx :: l2)) (id tx) = Ok (Some tx).
Proof.
  intros Hlock Hfaithful Hout.
  rewrite save_each_app. simpl. fold (CryptoTracker.save_each
    (save_transaction (CryptoTracker.save_each db l1) tx).1 l2).
  rewrite save_each_other by done.
  destruct (save_faithful (CryptoTracker.save_each db l1) tx) as (r & Hrow & Hload & ->);
    [by apply save_each_unlocked|done|].
  destruct (row_of_transaction_fields _ _ Hrow) as (Hid & _).
  unfold get_transaction. simpl. rewrite select_after_replace by done. by rewrite Hload.
Qed.

(** X16. track_ethereum_address stores what it was handed.  When no
    other connection is in a write, each record of the fetched list that the
    store can give back as it is (valid timestamp, JSON-native payload, no
    NaN) is returned by get_transaction under its id afterwards, unless a
    later record of the list has the same id; ids that do not occur in the
    list keep what they had, the link table is untouched, and the method
    returns the fetched list. *)
Theorem track_ethereum_address_stores (db : Database) (fetched : list Transaction) :
  write_lock db = false →
  let db' := (CryptoTracker.track_ethereum_address db fetched).1 in
  (∀ l1 tx l2, fetched = l1 ++ tx :: l2 → faithful tx = true → id tx ∉ id <$> l2 →
               get_transaction db' (id tx) = Ok (Some tx)) ∧
  (∀ i, i ∉ id <$> fetched → get_transaction db' i = get_transaction db i) ∧
  transaction_links db' = transaction_links db ∧
  (CryptoTracker.track_ethereum_address db fetched).2 = fetched.
Proof.
  intros Hlock db'. subst db'. unfold CryptoTracker.track_ethereum_address. simpl.
  split_and!; [|apply save_each_other|apply save_each_links|done].
  intros l1 tx l2 -> Hfaithful Hout. by apply save_each_last.
Qed.

Lemma track_ethereum_address_stores_witness :
  get_transaction (CryptoTracker.track_ethereum_address db_abc [tx_plain; tx_plain_later]).1 "A"
    = Ok (Some tx_plain_later) ∧
  get_transaction (CryptoTracker.track_ethereum_address db_abc [tx_plain; tx_plain_later]).1 "B"
    = get_transaction db_abc "B".
Proof.
  destruct (track_ethereum_address_stores db_abc [tx_plain; tx_plain_later])
    as (Hlast & Hother & _); [reflexivity|].
  split.
  - apply (Hlast [tx_plain] tx_plain_later []); [reflexivity|reflexivity|].
    simpl. apply not_elem_of_nil.
  - apply Hother. simpl. intros Hin.
    repeat (apply elem_of_cons in Hin as [Hin|Hin]; [discriminate|]).
    by apply elem_of_nil in Hin.
Defined.

(** X17. track_coinbase_account.  A ValueError of the client (a missing
    API key; a JSONDecodeError counts, being a ValueError) ends the call
    with the empty list and the store as it was; any other exception of the
    client leaves the method, the store as it was.  When the client
    returns, the method returns the client's list, and each record of it
    that the store can give back as it is, and whose id no later record
    has, is what get_transaction returns under its id. *)
Theorem track_coinbase_account_stores (db : Database) (fetched : result (list Transaction)) :
  write_lock db = false →
  match fetched with
  | Raise e =>
      CryptoTracker.track_coinbase_account db fetched
      = if is_ValueError e then Ok (db, []) else Raise e
  | Ok transactions =>
      ∃ db', CryptoTracker.track_coinbase_account db fetched = Ok (db', transactions) ∧
        (∀ l1 tx l2, transactions = l1 ++ tx :: l2 → faithful tx = true → id tx ∉ id <$> l2 →
                     get_transaction db' (id tx) = Ok (Some tx)) ∧
        (∀ i, i ∉ id <$> transactions → get_transaction db' i = get_transaction db i) ∧
        transaction_links db' = transaction_links db
  end.
Proof.
  intros Hlock. destruct fetched as [transactions|e]; [|done].
  eexists. split; [done|].
  split_and!; [|apply save_each_other|apply save_each_links].
  intros l1 tx l2 -> Hfaithful Hout. by apply save_each_last.
Qed.

Lemma track_coinbase_account_stores_witness :
  CryptoTracker.track_coinbase_account db_abc (Raise JSONDecodeError) = Ok (db_abc, []).
Proof.
  apply (track_coinbase_account_stores db_abc (Raise JSONDecodeError)). reflexivity.
Defined.

(** ** The command line *)


Lemma fee_cell_Raise (tx : Transaction) (e : exn) :
  CLI.fee_cell tx = Raise e → e = TypeError ∧ fee tx = None.
Proof. unfold CLI.fee_cell. destruct (fee tx); [done|]. by intros [= <-]. Qed.

Lemma table_row_Ok (tx : Transaction) (row : list CLI.cell) :
  CLI.table_row tx = Ok row → fee tx ≠ None ∧ length row = 7.
Proof.
  unfold CLI.table_row. destruct (CLI.fee_cell tx) as [c|e] eqn:Hfee; simpl; [|done].
  intros [= <-]. split; [|done]. unfold CLI.fee_cell in Hfee. by destruct (fee tx).
Qed.

Lemma table_row_Raise (tx : Transaction) (e : exn) :
  CLI.table_row tx = Raise e → e = TypeError ∧ fee tx = None.
Proof.
  unfold CLI.table_row. destruct (CLI.fee_cell tx) as [c|e'] eqn:Hfee; simpl; [done|].
  intros [= <-]. by apply fee_cell_Raise.
Qed.

(** X18. What the two formatting methods come to.  _format_transactions
    returns the message "No transactions found." for the empty list and
    nothing else, a table with one row of seven cells per record otherwise;
    _format_transaction_details returns "Transaction not found." for [None]
    alone.  Either raises exactly when a record it is given has [None] as
    its fee (a NULL in column [fee]), and what it raises is a TypeError. *)
Theorem formatting_outcome (l : list Transaction) (o : option Transaction) :
  match CLI._format_transactions l with
  | Raise e => e = TypeError ∧ ∃ tx, tx ∈ l ∧ fee tx = None
  | Ok (CLI.Message s) => l = [] ∧ s = "No transactions found."
  | Ok (CLI.Grid headers table_data) =>
      l ≠ [] ∧ (∀ tx, tx ∈ l → fee tx ≠ None) ∧
      length headers = 7 ∧
      Forall2 (λ tx row, CLI.table_row tx = Ok row ∧ length row = 7) l table_data
  end ∧
  match CLI._format_transaction_details o with
  | Raise e => e = TypeError ∧ ∃ tx, o = Some tx ∧ fee tx = None
  | Ok (CLI.Message s) => o = None ∧ s = "Transaction not found."
  | Ok (CLI.Grid headers table_data) =>
      ∃ tx, o = Some tx ∧ fee tx ≠ None ∧
            length table_data = if decide (related_transactions tx = []) then 8 else 9
  end.
Proof.
  split.
  - destruct l as [|tx0 l]; [done|].
    unfold CLI._format_transactions.
    destruct (result_mapM CLI.table_row (tx0 :: l)) as [table_data|e] eqn:Hrows;
      cbn [mbind result_bind rbind].
    + apply result_mapM_Ok in Hrows. split_and!; [done| |done|].
      * intros tx [i Hi]%list_elem_of_lookup.
        destruct (Forall2_lookup_l _ _ _ _ _ Hrows Hi) as (row & _ & Hrow).
        by apply table_row_Ok in Hrow as [? _].
      * eapply Forall2_impl; [exact Hrows|]. simpl. intros tx row Hrow.
        split; [done|]. by apply table_row_Ok in Hrow as [_ ?].
    + apply result_mapM_Raise in Hrows as (tx & Hin & Hraise).
      apply table_row_Raise in Hraise as [-> Hfee]. split; [done|]. by exists tx.
  - destruct o as [tx|]; [|done]. unfold CLI._format_transaction_details.
    destruct (CLI.fee_cell tx) as [c|e] eqn:Hfee; cbn [mbind result_bind rbind].
    + exists tx. split_and!; [done| |].
      * unfold CLI.fee_cell in Hfee. by destruct (fee tx).
      * destruct (related_transactions tx); [done|]. rewrite length_app. done.
    + apply fee_cell_Raise in Hfee as [-> Hfee]. split; [done|]. by exists tx.
Qed.

Lemma format_transactions_Ok (l : list Transaction) :
  (∀ tx, tx ∈ l → fee tx ≠ None) → ∃ r, CLI._format_transactions l = Ok r.
Proof.
  intros Hfees. destruct l as [|tx0 l]; [by eexists|].
  unfold CLI._format_transactions.
  destruct (result_mapM CLI.table_row (tx0 :: l)) as [table_data|e] eqn:Hrows;
    cbn [mbind result_bind rbind]; [by eexists|].
  apply result_mapM_Raise in Hrows as (tx & Hin & [_ Hfee]%table_row_Raise).
  by destruct (Hfees tx Hin).
Qed.

Lemma format_transactions_Raise (l : list Transaction) (tx : Transaction) :
  tx ∈ l → fee tx = None → CLI._format_transactions l = Raise TypeError.
Proof.
  intros Hin Hfee. destruct l as [|tx0 l]; [by apply elem_of_nil in Hin|].
  unfold CLI._format_transactions.
  destruct (result_mapM CLI.table_row (tx0 :: l)) as [table_data|e] eqn:Hrows;
    cbn [mbind result_bind rbind].
  - apply result_mapM_Ok in Hrows. apply list_elem_of_lookup in Hin as [i Hi].
    destruct (Forall2_lookup_l _ _ _ _ _ Hrows Hi) as (row & _ & [Hsome _]%table_row_Ok).
    done.
  - by apply result_mapM_Raise in Hrows as (tx' & _ & [-> _]%table_row_Raise).
Qed.

Lemma filter_all {A : Type} (P : A → Prop) `{!∀ x, Decision (P x)} (l : list A) :
  (∀ x, P x) → filter P l = l.
Proof.
  intros HP. induction l as [|x l IH]; [done|].
  rewrite filter_cons_True by done. by rewrite IH.
Qed.

Lemma keep_filter (arg : option string) (key : Transaction → string) (l : list Transaction) :
  CLI.keep arg key l = filter (λ tx, lets_through arg (key tx) = true) l.
Proof.
  unfold CLI.keep, lets_through. destruct arg as [v|]; [|by rewrite filter_all].
  case_bool_decide; simpl; [by rewrite filter_all|].
  apply list_filter_iff. intros tx. by rewrite bool_decide_eq_true.
Qed.

(** X19. What the [list] subcommand shows.  The transactions handed to
    the table are the first [limit] of those in the history that every
    given filter lets through, in the order of the history; a filter compares
    in lower case, and an empty filter value filters nothing.  A negative
    [limit] is not refused: it cuts that many transactions off the end. *)
Theorem list_shows_first_matches (limit : Z) (c t s : option string)
    (history : list Transaction) :
  let matching :=
    filter (λ tx, lets_through c (currency tx)
                  && lets_through t (TransactionType_value (transaction_type tx))
                  && lets_through s (TransactionSource_value (source tx)) = true) history in
  let shown := CLI.listed limit c t s history in
  shown `prefix_of` matching ∧
  matching `sublist_of` history ∧
  length shown = (if (limit <? 0)%Z then length matching - Z.to_nat (- limit)
                  else Z.to_nat limit `min` length matching)%nat.
Proof.
  intros matching shown.
  assert (shown = CLI.slice_to limit matching) as ->.
  { subst shown matching. unfold CLI.listed. f_equal.
    rewrite !keep_filter, !list_filter_filter. apply list_filter_iff.
    intros tx. rewrite !andb_true_iff. tauto. }
  unfold CLI.slice_to. split_and!.
  - destruct (limit <? 0)%Z; apply prefix_take.
  - apply sublist_filter.
  - destruct (limit <? 0)%Z; rewrite length_take; lia.
Qed.

(** ** The exit code of the reading subcommands *)







(** X21. A NULL fee breaks the display.  A record whose fee is [None]
    (a NULL in column [fee], which is what a save with a NaN fee leaves) is
    returned by get_transaction, but [show] of its id and [chain] from its id
    both end with exit code 1: formatting the fee compares [None] with 0. *)
Theorem null_fee_breaks_display (net : CLI.clients) (db : Database) (i : string)
    (tx : Transaction) :
  get_transaction db i = Ok (Some tx) → fee tx = None →
  CLI.run net db (Some (CLI.show i)) = (db, 1%Z) ∧
  CLI.run net db (Some (CLI.show_chain i)) = (db, 1%Z).
Proof.
  intros Hget Hfee. unfold CLI.run. split; f_equal.
  - rewrite Hget. cbn [mbind result_bind rbind].
    unfold CLI._format_transaction_details, CLI.fee_cell. by rewrite Hfee.
  - unfold CryptoTracker.get_transaction_chain.
    destruct (get_transaction_chain db i) as [l|e] eqn:Hl; [|done].
    cbn [mbind result_bind rbind].
    rewrite (format_transactions_Raise l tx); [done| |done].
    destruct (get_transaction_chain_sound _ _ _ Hl) as (_ & Hmem & _).
    apply Hmem. destruct (get_transaction_id _ _ _ Hget) as [Hid _].
    split; rewrite Hid; [apply rtc_refl|done].
Qed.

Lemma null_fee_breaks_display_witness :
  CLI.run no_clients (save_transaction empty_db tx_nan_fee).1 (Some (CLI.show "N"))
    = ((save_transaction empty_db tx_nan_fee).1, 1%Z) ∧
  CLI.run no_clients (save_transaction empty_db tx_nan_fee).1 (Some (CLI.show_chain "N"))
    = ((save_transaction empty_db tx_nan_fee).1, 1%Z).
Proof.
  eapply (null_fee_breaks_display no_clients (save_transaction empty_db tx_nan_fee).1 "N");
    reflexivity.
Defined.

(** ** The exit code of [track-eth] *)

Lemma save_each_locked (db : Database) (l : list Transaction) :
  write_lock db = true → CryptoTracker.save_each db l = db.
Proof.
  intros Hlock. induction l as [|tx l IH]; [done|].
  simpl. by rewrite save_transaction_locked.
Qed.

(** X22. The exit code of [track-eth] says nothing about the store.
    While another connection holds the write lock no fetched transaction is
    saved, and the subcommand still ends with exit code 0, the store as it
    was: what save_transaction returns is dropped by the tracker. *)
Theorem track_eth_exit_code_ignores_saves (net : CLI.clients) (db : Database) (a : string) :
  write_lock db = true →
  (∀ tx, tx ∈ CLI.get_address_transactions net a → fee tx ≠ None) →
  CLI.run net db (Some (CLI.track_eth a)) = (db, 0%Z).
Proof.
  intros Hlock Hfees. unfold CLI.run, CryptoTracker.track_ethereum_address.
  rewrite save_each_locked by done. f_equal.
  destruct (format_transactions_Ok (take 10 (CLI.get_address_transactions net a)))
    as [r ->]; [|done].
  intros tx Htx%subseteq_take. by apply Hfees.
Qed.

Lemma track_eth_exit_code_ignores_saves_witness :
  CLI.run (CLI.mkClients (λ _, [tx_plain]) (Ok [])) (mkDatabase [] [] true)
    (Some (CLI.track_eth "0xabc"))
  = (mkDatabase [] [] true, 0%Z).
Proof.
  apply (track_eth_exit_code_ignores_saves (CLI.mkClients (λ _, [tx_plain]) (Ok []))
           (mkDatabase [] [] true) "0xabc"); [reflexivity|].
  simpl. intros tx ->%list_elem_of_singleton. done.
Defined.

(** * The clients *)

(** ** The Coinbase client *)

Lemma extend_each_Ok {A : Type} (get_transactions : A → result (list Transaction))
    (accounts : list A) (acc l : list Transaction) :
  CoinbaseClient.extend_each get_transactions accounts acc = Ok l →
  ∃ fetched, Forall2 (λ a txs, get_transactions a = Ok txs) accounts fetched ∧
             l = acc ++ mjoin fetched.
Proof.
  revert acc. induction accounts as [|a accounts IH]; intros acc; simpl.
  - intros [= <-]. exists []. split; [constructor|]. simpl. by rewrite app_nil_r.
  - destruct (get_transactions a) as [txs|e] eqn:Ha; cbn [mbind result_bind rbind]; [|done].
    intros (fetched & Hall & ->)%IH. exists (txs :: fetched).
    split; [by constructor|]. simpl. by rewrite app_assoc.
Qed.

(** X23. What the Coinbase client hands to the tracker.  When
    get_all_transactions returns, each account has answered, and the list is
    a rearrangement of the accounts' transactions put end to end, in
    ascending order of timestamp; so it has returned only if the timestamps
    are all naive or all aware. *)
Theorem coinbase_get_all_transactions_sorted {A : Type} (get_accounts : result (list A))
    (get_transactions : A → result (list Transaction)) (l : list Transaction) :
  (∀ a txs tx, get_transactions a = Ok txs → tx ∈ txs →
               valid_datetime (timestamp tx) = true) →
  CoinbaseClient.get_all_transactions get_accounts get_transactions = Ok l →
  ∃ accounts fetched,
    get_accounts = Ok accounts ∧
    Forall2 (λ a txs, get_transactions a = Ok txs) accounts fetched ∧
    l ≡ₚ mjoin fetched ∧
    StronglySorted timestamp_le l ∧
    (∀ x y, x ∈ l → y ∈ l → aware x = aware y).
Proof.
  intros Hvalid. unfold CoinbaseClient.get_all_transactions.
  destruct get_accounts as [accounts|e]; cbn [mbind result_bind rbind]; [|done].
  destruct (CoinbaseClient.extend_each _ _ _) as [all|e] eqn:Hall;
    cbn [mbind result_bind rbind]; [|done].
  apply extend_each_Ok in Hall as (fetched & Hfetched & ->). simpl.
  intros Hsort. exists accounts, fetched.
  pose proof (sort_by_timestamp_perm _ _ Hsort) as Hperm.
  pose proof (sort_by_timestamp_uniform _ _ Hsort) as Huni.
  destruct (sort_by_timestamp_spec (mjoin fetched)) as (l' & Hsort' & _ & Hsorted); [|done|].
  { intros tx (txs & Htx & Htxs)%list_elem_of_join.
    apply list_elem_of_lookup in Htxs as [i Hi].
    destruct (Forall2_lookup_r _ _ _ _ _ Hfetched Hi) as (a & _ & Ha).
    by eapply Hvalid. }
  rewrite Hsort in Hsort'. injection Hsort' as <-.
  split_and!; [done..|].
  intros x y Hx Hy. rewrite Hperm in Hx, Hy. by apply Huni.
Qed.

Lemma coinbase_get_all_transactions_sorted_witness :
  ∃ accounts fetched,
    Ok ["wallet-1"; "wallet-2"] = Ok accounts ∧
    Forall2 (λ a txs, two_accounts a = Ok txs) accounts fetched ∧
    [plain_tx "A" (at_second 1); plain_tx "A" (at_second 2); plain_tx "B" (at_second 3)]
      ≡ₚ mjoin fetched ∧
    StronglySorted timestamp_le
      [plain_tx "A" (at_second 1); plain_tx "A" (at_second 2); plain_tx "B" (at_second 3)] ∧
    (∀ x y,
       x ∈ [plain_tx "A" (at_second 1); plain_tx "A" (at_second 2); plain_tx "B" (at_second 3)] →
       y ∈ [plain_tx "A" (at_second 1); plain_tx "A" (at_second 2); plain_tx "B" (at_second 3)] →
       aware x = aware y).
Proof.
  apply (coinbase_get_all_transactions_sorted (Ok ["wallet-1"; "wallet-2"]) two_accounts).
  - intros a txs tx. unfold two_accounts.
    destruct (String.eqb a "wallet-1"); intros [= <-] Htx; each_row Htx; reflexivity.
  - reflexivity.
Defined.

(** ** From the Coinbase client to the store *)

Lemma timestamp_le_refl (tx : Transaction) : timestamp_le tx tx.
Proof.
  unfold timestamp_le, datetime_lt, datetime_cmp.
  destruct (tzinfo (timestamp tx)); [rewrite Z.eqb_refl|]; simpl;
    by rewrite wall_compare_refl.
Qed.

(** The last record of a list that carries a given id. *)
Lemma last_occurrence (l : list Transaction) (i : string) :
  i ∈ id <$> l →
  ∃ l1 tx' l2, l = l1 ++ tx' :: l2 ∧ id tx' = i ∧ i ∉ id <$> l2.
Proof.
  induction l as [|x l IH]; [by intros ?%elem_of_nil|].
  intros Hin. destruct (decide (i ∈ id <$> l)) as [Hlater|Hlast].
  - destruct (IH Hlater) as (l1 & tx' & l2 & -> & Hid & Hout).
    by exists (x :: l1), tx', l2.
  - rewrite fmap_cons in Hin. apply elem_of_cons in Hin as [->|Hin]; [|done].
    by exists [], x, l.
Qed.

Lemma last_with_id (l : list Transaction) (tx : Transaction) :
  tx ∈ l →
  ∃ l1 tx' l2, l = l1 ++ tx' :: l2 ∧ id tx' = id tx ∧ (id tx ∉ id <$> l2) ∧
               (tx = tx' ∨ tx ∈ l1).
Proof.
  intros Hin.
  destruct (last_occurrence l (id tx)) as (l1 & tx' & l2 & -> & Hid & Hout);
    [by apply list_elem_of_fmap_2|].
  exists l1, tx', l2. split_and!; [done..|].
  apply elem_of_app in Hin as [Hin|Hin]; [by right|].
  apply elem_of_cons in Hin as [->|Hin]; [by left|].
  destruct Hout. by apply list_elem_of_fmap_2.
Qed.

(** X24. From the Coinbase client to the store: the latest record wins.
    When the list that get_all_transactions has returned is handed to
    track_coinbase_account, no other connection being in a write, then for
    each fetched record that the store can give back as it is,
    get_transaction returns under its id a fetched record of that id whose
    timestamp is not earlier: of several records with one id, one with the
    latest timestamp is kept. *)
Theorem coinbase_latest_record_wins {A : Type} (db : Database)
    (get_accounts : result (list A)) (get_transactions : A → result (list Transaction))
    (l : list Transaction) (tx : Transaction) :
  write_lock db = false →
  CoinbaseClient.get_all_transactions get_accounts get_transactions = Ok l →
  (∀ x, x ∈ l → faithful x = true) → tx ∈ l →
  ∃ db' tx',
    CryptoTracker.track_coinbase_account db (Ok l) = Ok (db', l) ∧
    get_transaction db' (id tx) = Ok (Some tx') ∧
    tx' ∈ l ∧ id tx' = id tx ∧ timestamp_le tx tx'.
Proof.
  intros Hlock Hall Hfaithful Hin.
  assert (StronglySorted timestamp_le l) as Hsorted.
  { revert Hall. unfold CoinbaseClient.get_all_transactions.
    destruct get_accounts as [accounts|e]; cbn [mbind result_bind rbind]; [|done].
    destruct (CoinbaseClient.extend_each _ _ _) as [all|e];
      cbn [mbind result_bind rbind]; [|done].
    intros Hsort.
    pose proof (sort_by_timestamp_perm _ _ Hsort) as Hperm.
    destruct (sort_by_timestamp_spec all) as (l' & Hsort' & _ & Hsorted).
    - intros x Hx. rewrite <- Hperm in Hx. by apply faithful_spec, Hfaithful.
    - by eapply sort_by_timestamp_uniform.
    - rewrite Hsort in Hsort'. by injection Hsort' as <-. }
  destruct (last_with_id l tx Hin) as (l1 & tx' & l2 & -> & Hid & Hout & Hbefore).
  exists (CryptoTracker.save_each db (l1 ++ tx' :: l2)), tx'.
  split_and!; [done| | |done|].
  - rewrite <- Hid. apply save_each_last; [done| |by rewrite Hid].
    apply Hfaithful. apply elem_of_app. right. left.
  - apply elem_of_app. right. left.
  - destruct Hbefore as [->|Hl1]; [apply timestamp_le_refl|].
    eapply StronglySorted_app_1_elem_of; [exact Hsorted|done|left].
Qed.

Lemma coinbase_latest_record_wins_witness :
  ∃ db' tx',
    CryptoTracker.track_coinbase_account empty_db
      (Ok [plain_tx "A" (at_second 1); plain_tx "A" (at_second 2); plain_tx "B" (at_second 3)])
    = Ok (db', [plain_tx "A" (at_second 1); plain_tx "A" (at_second 2);
                plain_tx "B" (at_second 3)]) ∧
    get_transaction db' (id (plain_tx "A" (at_second 1))) = Ok (Some tx') ∧
    tx' ∈ [plain_tx "A" (at_second 1); plain_tx "A" (at_second 2); plain_tx "B" (at_second 3)] ∧
    id tx' = id (plain_tx "A" (at_second 1)) ∧
    timestamp_le (plain_tx "A" (at_second 1)) tx'.
Proof.
  apply (coinbase_latest_record_wins empty_db (Ok ["wallet-1"; "wallet-2"]) two_accounts).
  - reflexivity.
  - reflexivity.
  - intros x Hx. each_row Hx; reflexivity.
  - left.
Defined.

(** ** The timestamps of Coinbase *)

Lemma replace_Z_app (a b : string) :
  CoinbaseClient.replace_Z (a ++ b)
  = (CoinbaseClient.replace_Z a ++ CoinbaseClient.replace_Z b)%string.
Proof.
  induction a as [|c a IH]; [done|].
  rewrite string_app_cons. cbn [CoinbaseClient.replace_Z].
  destruct (Ascii.eqb c "Z").
  - by rewrite IH, string_app_assoc.
  - by rewrite IH.
Qed.

Lemma digit_char_not_Z (n : Z) : Ascii.eqb (digit_char n) "Z" = false.
Proof.
  apply Ascii.eqb_neq. intros Heq.
  pose proof (digit_val_char n) as Hval. rewrite Heq in Hval. discriminate.
Qed.

Lemma replace_Z_pad (k : nat) (n : Z) : CoinbaseClient.replace_Z (pad k n) = pad k n.
Proof.
  revert n. induction k as [|k IH]; intros n; [done|].
  cbn [pad]. rewrite replace_Z_app, IH. cbn [CoinbaseClient.replace_Z].
  by rewrite digit_char_not_Z.
Qed.

Lemma replace_Z_isoformat (d : datetime) :
  tzinfo d = None → CoinbaseClient.replace_Z (isoformat d) = isoformat d.
Proof.
  intros Htz. unfold isoformat. rewrite Htz.
  rewrite !replace_Z_app, !replace_Z_pad.
  destruct (microsecond d =? 0)%Z; [done|].
  by rewrite replace_Z_app, replace_Z_pad.
Qed.

(** X25. The timestamps of Coinbase are aware.  A [created_at] in the
    form the API uses, date and time followed by [Z], becomes the datetime
    of that date and time with UTC as its zone. *)
Theorem coinbase_timestamps_are_aware (d : datetime) :
  valid_datetime d = true → tzinfo d = None →
  CoinbaseClient.parse_created_at (isoformat d ++ "Z")
  = Ok (mkDatetime (year d) (month d) (day d) (hour d) (minute d) (second d)
          (microsecond d) (Some 0%Z)).
Proof.
  intros Hvalid Htz. unfold CoinbaseClient.parse_created_at.
  rewrite replace_Z_app, replace_Z_isoformat by done.
  set (d' := mkDatetime _ _ _ _ _ _ _ _).
  assert ((isoformat d ++ CoinbaseClient.replace_Z "Z")%string = isoformat d') as ->.
  { unfold isoformat. rewrite Htz. subst d'. simpl.
    rewrite !string_app_assoc. repeat f_equal. }
  apply fromisoformat_isoformat.
  destruct d as [y mo dd h mi s us tz]. simpl in *. subst tz. subst d'.
  unfold valid_datetime in *. simpl in *. by rewrite andb_true_r in Hvalid |- *.
Qed.

Lemma coinbase_timestamps_are_aware_witness :
  CoinbaseClient.parse_created_at "2024-01-01T12:00:00Z" = Ok noon_utc.
Proof.
  apply (coinbase_timestamps_are_aware noon); reflexivity.
Defined.

(** ** The DEX tracker *)

Lemma decode_swap_fields (tx tx' : Transaction) :
  DEXTracker.decode_swap tx = Some tx' →
  DEXTracker.with_notes "" tx' = DEXTracker.with_notes "" tx ∧
  ∃ prefix, notes tx' = (prefix ++ notes tx)%string.
Proof.
  unfold DEXTracker.decode_swap.
  destruct (raw_data tx) as [ | | | | | | | |kvs]; try done.
  destruct (DEXTracker.truthy _); [|intros [= <-]; split; [done|by exists ""]].
  destruct (DEXTracker.len _) as [n|]; [|done]. cbn [mbind option_bind].
  case_bool_decide; [|intros [= <-]; split; [done|by exists ""]].
  destruct (DEXTracker.first_ten _) as [sig|]; [|done]. cbn [mbind option_bind].
  destruct (DEXTracker.find_sig sig) as [[name|]|]; [| |done]; cbn [mbind option_bind];
    intros [= <-]; (split; [done|]).
  - exists ("DEX Swap - " ++ name ++ " - ")%string. simpl.
    by rewrite !string_app_assoc.
  - by exists "".
Qed.

(** X26. What track_dex_transaction may change.  A transaction that is
    not a DEX transaction is returned as fetched.  For a DEX transaction the
    result, when there is one, has type SWAP, notes that end with
    "DEX Swap - " and the notes fetched, and every other field as fetched:
    the source in particular stays what the Ethereum client set, the tracker
    never sets it to DEX. *)
Theorem track_dex_transaction_changes (fetched : option Transaction) (is_dex : bool)
    (tx' : Transaction) :
  DEXTracker.track_dex_transaction fetched is_dex = Some tx' →
  ∃ tx, fetched = Some tx ∧
    (is_dex = false → tx' = tx) ∧
    (is_dex = true →
     transaction_type tx' = SWAP ∧
     ∃ prefix, notes tx' = (prefix ++ "DEX Swap - " ++ notes tx)%string) ∧
    DEXTracker.with_notes "" (DEXTracker.with_type SWAP tx')
    = DEXTracker.with_notes "" (DEXTracker.with_type SWAP tx).
Proof.
  unfold DEXTracker.track_dex_transaction. destruct fetched as [tx|]; [|done].
  destruct is_dex.
  - intros [Hfields [prefix Hnotes]]%decode_swap_fields. exists tx.
    split_and!; [done|done| |].
    + intros _. split; [|by exists prefix].
      by apply (f_equal transaction_type) in Hfields.
    + destruct tx', tx. unfold DEXTracker.with_notes, DEXTracker.with_type in *.
      simpl in *. congruence.
  - intros [= <-]. exists tx. split_and!; [done|done|done|done].
Qed.

Lemma track_dex_transaction_changes_witness :
  ∃ tx, Some tx_swap_bytes = Some tx ∧
    (true = false →
     DEXTracker.with_notes "DEX Swap - " (DEXTracker.with_type SWAP tx_swap_bytes) = tx) ∧
    (true = true →
     transaction_type
       (DEXTracker.with_notes "DEX Swap - " (DEXTracker.with_type SWAP tx_swap_bytes)) = SWAP ∧
     ∃ prefix,
       notes (DEXTracker.with_notes "DEX Swap - " (DEXTracker.with_type SWAP tx_swap_bytes))
       = (prefix ++ "DEX Swap - " ++ notes tx)%string) ∧
    DEXTracker.with_notes ""
      (DEXTracker.with_type SWAP
         (DEXTracker.with_notes "DEX Swap - " (DEXTracker.with_type SWAP tx_swap_bytes)))
    = DEXTracker.with_notes "" (DEXTracker.with_type SWAP tx).
Proof.
  apply (track_dex_transaction_changes (Some tx_swap_bytes) true). reflexivity.
Defined.

(** X27. When the swap is named.  For a DEX transaction whose [raw_data]
    is a dict with, as its [input], a string of more than ten characters
    that starts with a selector of [swap_sigs], the notes become
    "DEX Swap - ", the name of the function, " - DEX Swap - " and the notes
    fetched: the first prefix is there twice. *)
Theorem track_dex_transaction_names_swap (tx : Transaction) (kvs : list (string * pyval))
    (input name : string) :
  raw_data tx = PyDict kvs →
  DEXTracker.dict_get "input" kvs = Some (PyStr input) →
  (10 < String.length input)%nat →
  DEXTracker.dict_get (substring 0 10 input) DEXTracker.swap_sigs = Some name →
  DEXTracker.track_dex_transaction (Some tx) true
  = Some (DEXTracker.with_notes
            ("DEX Swap - " ++ name ++ " - DEX Swap - " ++ notes tx)%string
            (DEXTracker.with_type SWAP tx)).
Proof.
  intros Hraw Hinput Hlen Hname.
  unfold DEXTracker.track_dex_transaction, DEXTracker.decode_swap.
  cbn [raw_data DEXTracker.with_notes DEXTracker.with_type]. rewrite Hraw, Hinput.
  cbn [from_option Datatypes.id DEXTracker.truthy DEXTracker.len].
  destruct input as [|c input]; [simpl in Hlen; lia|].
  cbn [String.eqb negb mbind option_bind].
  rewrite bool_decide_eq_true_2 by done.
  cbn [DEXTracker.first_ten mbind option_bind DEXTracker.find_sig DEXTracker.hashable].
  rewrite Hname. by cbn [mbind option_bind notes DEXTracker.with_notes].
Qed.

Lemma track_dex_transaction_names_swap_witness :
  DEXTracker.track_dex_transaction (Some tx_swap_str) true
  = Some (DEXTracker.with_notes "DEX Swap - swapExactETHForTokens - DEX Swap - "
            (DEXTracker.with_type SWAP tx_swap_str)).
Proof.
  apply (track_dex_transaction_names_swap tx_swap_str
           [("input", PyStr "0x7ff36ab5000000000000")] "0x7ff36ab5000000000000"
           "swapExactETHForTokens");
    [reflexivity|reflexivity|simpl; lia|reflexivity].
Defined.

(** X28. Call data held as bytes is never decoded.  For a DEX
    transaction whose [raw_data] is a dict with a bytes object as its
    [input], whatever its length and content, the function is not named: the
    keys of [swap_sigs] are strings, and no bytes object is equal to a
    string.  The notes get the one prefix "DEX Swap - ". *)
Theorem track_dex_transaction_bytes_input (tx : Transaction) (kvs : list (string * pyval))
    (input : string) :
  raw_data tx = PyDict kvs →
  DEXTracker.dict_get "input" kvs = Some (PyBytes input) →
  DEXTracker.track_dex_transaction (Some tx) true
  = Some (DEXTracker.with_notes ("DEX Swap - " ++ notes tx)%string
            (DEXTracker.with_type SWAP tx)).
Proof.
  intros Hraw Hinput.
  unfold DEXTracker.track_dex_transaction, DEXTracker.decode_swap.
  cbn [raw_data DEXTracker.with_notes DEXTracker.with_type]. rewrite Hraw, Hinput.
  cbn [from_option Datatypes.id DEXTracker.truthy DEXTracker.len].
  destruct input as [|c input]; [done|].
  cbn [String.eqb negb mbind option_bind].
  case_bool_decide; [|done].
  by cbn [DEXTracker.first_ten mbind option_bind DEXTracker.find_sig DEXTracker.hashable].
Qed.

Lemma track_dex_transaction_bytes_input_witness :
  DEXTracker.track_dex_transaction (Some tx_swap_bytes) true
  = Some (DEXTracker.with_notes "DEX Swap - " (DEXTracker.with_type SWAP tx_swap_bytes)).
Proof.
  apply (track_dex_transaction_bytes_input tx_swap_bytes
           [("input", PyBytes "0x7ff36ab5000000000000")] "0x7ff36ab5000000000000");
    reflexivity.
Defined.
